(** * Png2Svg: colour reconciliation and SVG normalisation

    A shallow embedding of [Vectorizer] (src/cpp/src/vectorizer.cpp) and the
    properties of its colour arithmetic, palette extraction, nearest-colour
    lookup, opacity flattening and whitespace compaction.

    Conventions of the embedding:
    - a [std::string] is a list of characters ([str]);
    - a C++ [int] is a [Z]; where the code can leave the 32-bit range the
      wrap-around or the exception is written out;
    - a C++ exception is the left injection of [result];
    - a C++ [float] is an IEEE-754 binary32 value, a [double] a binary64
      value, each operation rounded to nearest, ties to even. *)

From Stdlib Require Import String Ascii ZArith Bool Arith List Lia Permutation Sorted.
From Stdlib Require Import SpecFloat.
Import ListNotations.

Set Implicit Arguments.
Local Open Scope Z_scope.

(** ** Strings *)

Definition str := list ascii.

(** A string literal of the source. *)
Definition lit (s : string) : str := list_ascii_of_string s.

Definition ascii_code (c : ascii) : Z := Z.of_N (N_of_ascii c).

Definition str_eqb (a b : str) : bool :=
  if list_eq_dec ascii_dec a b then true else false.

(** ** Exceptions and undefined behaviour *)

Inductive exn : Type :=
| invalid_argument      (* std::invalid_argument *)
| out_of_range          (* std::out_of_range *)
| undefined_behaviour.  (* no exception: the C++ standard leaves the result open *)

Inductive result (A : Type) : Type :=
| Ok (a : A)
| Throw (e : exn).
Arguments Throw {A} e.

Definition bind {A B} (m : result A) (k : A -> result B) : result B :=
  match m with
  | Ok a => k a
  | Throw e => Throw e
  end.

Notation "'do' x <- m ; k" := (bind m (fun x => k))
  (at level 10, x name, m at level 100, k at level 200).

Definition throws {A} (m : result A) : Prop := exists e, m = Throw e.

(** ** IEEE-754 arithmetic

    A finite value of a binary format is an integer multiple of the format's
    smallest subnormal, so [Fin n] stands for [n] such units: [2^-149] for
    binary32 and [2^-1074] for binary64.  Every operation computes the exact
    result and rounds it to nearest, ties to even.  The sign of a zero is not
    kept: no function of this program can observe it. *)

Module IEEE.

Record format : Type := Format {
  prec : Z;        (* bits of the significand *)
  one : Z;         (* the value 1.0, in units *)
  largest : Z      (* the largest finite value, in units *)
}.

Definition binary32 : format :=
  Format 24 (2 ^ 149) ((2 ^ 24 - 1) * 2 ^ 253).

Definition binary64 : format :=
  Format 53 (2 ^ 1074) ((2 ^ 53 - 1) * 2 ^ 2045).

Inductive float : Type :=
| Fin (n : Z)
| PInf
| NInf
| NaN.

(** The integer nearest to [num / den], the even one of two equally near. *)
Definition round_half_even (num den : Z) : Z :=
  let q := num / den in
  let r := num mod den in
  if 2 * r <? den then q
  else if den <? 2 * r then q + 1
  else if Z.even q then q else q + 1.

(** The number of low bits that a magnitude whose integer part is [a] loses
    to keep [prec] significant bits; none in the subnormal range. *)
Definition shift_of (fmt : format) (a : Z) : Z :=
  Z.max 0 (Z.log2 a - (prec fmt - 1)).

(** The exact value [num / den] (in units, [0 < den]) rounded to the format. *)
Definition rnd (fmt : format) (num den : Z) : float :=
  let k := shift_of fmt (Z.abs num / den) in
  let n := round_half_even num (den * 2 ^ k) * 2 ^ k in
  if largest fmt <? n then PInf
  else if n <? - largest fmt then NInf
  else Fin n.

(** A value of the format: rounding leaves it as it is. *)
Definition representable (fmt : format) (n : Z) : bool :=
  match rnd fmt n 1 with
  | Fin n' => n' =? n
  | _ => false
  end.

Definition of_int (fmt : format) (z : Z) : float := rnd fmt (z * one fmt) 1.

Definition opp (a : float) : float :=
  match a with
  | Fin n => Fin (- n)
  | PInf => NInf
  | NInf => PInf
  | NaN => NaN
  end.

Definition add (fmt : format) (a b : float) : float :=
  match a, b with
  | NaN, _ | _, NaN => NaN
  | PInf, NInf | NInf, PInf => NaN
  | PInf, _ | _, PInf => PInf
  | NInf, _ | _, NInf => NInf
  | Fin x, Fin y => rnd fmt (x + y) 1
  end.

Definition sub (fmt : format) (a b : float) : float := add fmt a (opp b).

(** An infinity times a finite value: the sign of the product, or [NaN]
    for zero. *)
Definition inf_times (positive : bool) (n : Z) : float :=
  if n =? 0 then NaN
  else if Bool.eqb positive (0 <? n) then PInf else NInf.

Definition mul (fmt : format) (a b : float) : float :=
  match a, b with
  | NaN, _ | _, NaN => NaN
  | PInf, PInf | NInf, NInf => PInf
  | PInf, NInf | NInf, PInf => NInf
  | PInf, Fin n | Fin n, PInf => inf_times true n
  | NInf, Fin n | Fin n, NInf => inf_times false n
  | Fin x, Fin y => rnd fmt (x * y) (one fmt)
  end.

(** The correctly rounded square root.  For a positive finite [n] the root
    lies far above the subnormal range, so when it is irrational it rounds as
    the midpoint of the two integers around it does. *)
Definition sqrt (fmt : format) (a : float) : float :=
  match a with
  | Fin n =>
      if n <? 0 then NaN
      else
        let N := n * one fmt in
        let s := Z.sqrt N in
        if s * s =? N then rnd fmt s 1 else rnd fmt (2 * s + 1) 2
  | PInf => PInf
  | NInf | NaN => NaN
  end.

(** [a < b]; false when either side is [NaN]. *)
Definition ltb (a b : float) : bool :=
  match a, b with
  | NaN, _ | _, NaN => false
  | _, NInf => false
  | NInf, _ => true
  | PInf, _ => false
  | _, PInf => true
  | Fin x, Fin y => x <? y
  end.

(** [static_cast<int>]: truncation toward zero; a value that [int] cannot
    hold, an infinity or [NaN] is undefined behaviour. *)
Definition to_int (fmt : format) (a : float) : result Z :=
  match a with
  | Fin n =>
      let z := Z.quot n (one fmt) in
      if (- 2 ^ 31 <=? z) && (z <=? 2 ^ 31 - 1) then Ok z
      else Throw undefined_behaviour
  | _ => Throw undefined_behaviour
  end.

End IEEE.

(** ** ColorMath: hexadecimal text *)

Module Hex.

(** [isspace] of the C locale. *)
Definition isspace (c : ascii) : bool :=
  let n := ascii_code c in (n =? 32) || ((9 <=? n) && (n <=? 13)).

(** The value of a hexadecimal digit, as [strtol] reads it in base 16. *)
Definition digit_val (c : ascii) : option Z :=
  let n := ascii_code c in
  if (48 <=? n) && (n <=? 57) then Some (n - 48)
  else if (97 <=? n) && (n <=? 102) then Some (n - 87)
  else if (65 <=? n) && (n <=? 70) then Some (n - 55)
  else None.

Definition is_xdigit (c : ascii) : bool :=
  match digit_val c with Some _ => true | None => false end.

(** The lower-case digit [printf] writes for a value below 16. *)
Definition digit_char (d : Z) : ascii :=
  nth (Z.to_nat d) (lit "0123456789abcdef") "0"%char.

Fixpoint skip_space (s : str) : str :=
  match s with
  | c :: t => if isspace c then skip_space t else s
  | [] => []
  end.

(** The longest run of hexadecimal digits at the head of [s], read left to
    right onto the accumulator; [None] when [s] starts with no digit. *)
Fixpoint read_digits (acc : option Z) (s : str) : option Z :=
  match s with
  | c :: t =>
      match digit_val c with
      | Some d =>
          read_digits (Some (16 * match acc with Some a => a | None => 0 end + d)) t
      | None => acc
      end
  | [] => acc
  end.

Definition INT_MIN : Z := - 2 ^ 31.
Definition INT_MAX : Z := 2 ^ 31 - 1.

(** [std::stoi(s, nullptr, 16)]: [strtol] skips white space, takes an optional
    sign and an optional [0x] prefix (only when a digit follows it), and reads
    the longest run of hexadecimal digits; no digit is [invalid_argument], a
    value outside [int] is [out_of_range]. *)
Definition stoi16 (s : str) : result Z :=
  let s1 := skip_space s in
  let '(neg, s2) :=
    match s1 with
    | "-"%char :: t => (true, t)
    | "+"%char :: t => (false, t)
    | _ => (false, s1)
    end in
  let s3 :=
    match s2 with
    | "0"%char :: x :: d :: t =>
        if (Ascii.eqb x "x" || Ascii.eqb x "X") && is_xdigit d then d :: t else s2
    | _ => s2
    end in
  match read_digits None s3 with
  | None => Throw invalid_argument
  | Some v =>
      let v' := if neg then - v else v in
      if (INT_MIN <=? v') && (v' <=? INT_MAX) then Ok v' else Throw out_of_range
  end.

(** [s.substr(pos, n)]. *)
Definition substr (s : str) (pos n : nat) : result str :=
  if (length s <? pos)%nat then Throw out_of_range
  else Ok (firstn n (skipn pos s)).

(** The loop of [hexToRgb] that doubles every character of a 3-digit code. *)
Fixpoint expand (s : str) : str :=
  match s with
  | c :: t => c :: c :: expand t
  | [] => []
  end.

(** The digit part: the text without its leading [#], if it has one. *)
Definition strip_hash (s : str) : str :=
  match s with
  | "#"%char :: t => t
  | _ => s
  end.

Definition hexToRgb (hexColor : str) : result (Z * Z * Z) :=
  let hex := strip_hash hexColor in
  let hex := if (length hex =? 3)%nat then expand hex else hex in
  do rs <- substr hex 0 2;
  do r <- stoi16 rs;
  do gs <- substr hex 2 2;
  do g <- stoi16 gs;
  do bs <- substr hex 4 2;
  do b <- stoi16 bs;
  Ok (r, g, b).

(** The digits of [u] in base 16, most significant first, [n] of them. *)
Fixpoint digits16 (n : nat) (u : Z) : str :=
  match n with
  | O => []
  | S k => digits16 k (u / 16) ++ [digit_char (u mod 16)]
  end.

(** Leading zeros are dropped while more than [keep] characters are left. *)
Fixpoint drop_zeros (keep : nat) (s : str) : str :=
  match s with
  | "0"%char :: t => if (keep <? length s)%nat then drop_zeros keep t else s
  | _ => s
  end.

(** What [printf] writes for [%02x]: the argument is read as an
    [unsigned int], so a negative [int] wraps modulo [2^32]. *)
Definition fmt_02x (v : Z) : str := drop_zeros 2 (digits16 8 (v mod 2 ^ 32)).

(** [snprintf(buffer, 8, "#%02x%02x%02x", r, g, b)]: at most seven
    characters fit before the terminating NUL. *)
Definition rgbToHex (r g b : Z) : str :=
  firstn 7 ("#"%char :: fmt_02x r ++ fmt_02x g ++ fmt_02x b).

End Hex.

(** ** ColorMath: blending and compositing *)

Module ColorMath.
Import IEEE.

(** The C++ type [float]. *)
Definition f32 : format := binary32.

(** [1 - (1 - a) * (1 - b)], the literal [1] converted to [float]. *)
Definition combineOpacity (a b : float) : float :=
  sub f32 (of_int f32 1)
      (mul f32 (sub f32 (of_int f32 1) a) (sub f32 (of_int f32 1) b)).

(** [static_cast<int>(a * c + (1 - a) * 255)] for a channel [c]. *)
Definition blend (c : Z) (a : float) : result Z :=
  to_int f32 (add f32 (mul f32 a (of_int f32 c))
                      (mul f32 (sub f32 (of_int f32 1) a) (of_int f32 255))).

Definition rgbaToHex (r g b : Z) (a : float) : result str :=
  do r' <- blend r a;
  do g' <- blend g a;
  do b' <- blend b a;
  Ok (Hex.rgbToHex r' g' b').

End ColorMath.

(** ** ColorMapper *)

Module ColorMapper.
Import IEEE.

(** The C++ type [double]. *)
Definition f64 : format := binary64.

Definition DBL_MAX : float := Fin (largest f64).

(** [std::pow(d, 2)] for an [int] difference [d]: the square of the
    converted value. *)
Definition pow2 (d : Z) : float := mul f64 (of_int f64 d) (of_int f64 d).

(** The Euclidean distance of the loop body.  The channels come out of
    [hexToRgb], each read from at most two characters, so the [int]
    differences cannot overflow. *)
Definition distance (t c : Z * Z * Z) : float :=
  let '(tr, tg, tb) := t in
  let '(cr, cg, cb) := c in
  sqrt f64 (add f64 (add f64 (pow2 (tr - cr)) (pow2 (tg - cg))) (pow2 (tb - cb))).

Fixpoint nearest_loop (targetRgb : Z * Z * Z) (minDistance : float)
    (nearest : str) (colorList : list str) : result str :=
  match colorList with
  | [] => Ok nearest
  | c :: rest =>
      do cRgb <- Hex.hexToRgb c;
      let dist := distance targetRgb cRgb in
      if ltb dist minDistance
      then nearest_loop targetRgb dist c rest
      else nearest_loop targetRgb minDistance nearest rest
  end.

(** [colorList[0]] on an empty vector is undefined behaviour. *)
Definition findNearestColor (color : str) (colorList : list str) : result str :=
  do targetRgb <- Hex.hexToRgb color;
  match colorList with
  | [] => Throw undefined_behaviour
  | first :: _ => nearest_loop targetRgb DBL_MAX first colorList
  end.

End ColorMapper.

(** ** Text scanning and rewriting *)

Module Text.

Definition dquote : ascii := ascii_of_N 34.

(** An SVG literal of the source, written with ['] for the double quote. *)
Definition svg (s : string) : str :=
  map (fun c => if Ascii.eqb c "'" then dquote else c) (lit s).

(** [Some rest] when [s] is [p] followed by [rest]. *)
Fixpoint strip_prefix (p s : str) : option str :=
  match p, s with
  | [], _ => Some s
  | a :: p', b :: s' => if Ascii.eqb a b then strip_prefix p' s' else None
  | _ :: _, [] => None
  end.

(** Every occurrence of the non-empty literal [old], found left to right
    and not overlapping, replaced by [new]; the inserted text is not scanned
    again.  [skip] counts the characters of a found occurrence still to be
    passed over.  This is both [std::regex_replace] for a pattern without
    operators and the [find]/[replace] loop of [getSolid]. *)
Fixpoint replace_from (old new : str) (skip : nat) (s : str) : str :=
  match s with
  | [] => []
  | c :: t =>
      match skip with
      | S k => replace_from old new k t
      | O =>
          match strip_prefix old s with
          | Some _ => new ++ replace_from old new (length old - 1) t
          | None => c :: replace_from old new 0 t
          end
      end
  end.

Definition replace_all (old new s : str) : str := replace_from old new 0 s.

(** [std::regex_replace(s, std::regex("\\s+"), " ")]: [in_run] tells that
    the preceding character was white space, already replaced. *)
Fixpoint collapse_from (in_run : bool) (s : str) : str :=
  match s with
  | [] => []
  | c :: t =>
      if Hex.isspace c
      then (if in_run then collapse_from true t
            else " "%char :: collapse_from true t)
      else c :: collapse_from false t
  end.

Definition collapse_space (s : str) : str := collapse_from false s.

(** The longest prefix of characters satisfying [f], and the rest. *)
Fixpoint span (f : ascii -> bool) (s : str) : str * str :=
  match s with
  | c :: t => if f c then let '(a, b) := span f t in (c :: a, b) else ([], s)
  | [] => ([], [])
  end.

Definition is_digit (c : ascii) : bool :=
  let n := ascii_code c in (48 <=? n) && (n <=? 57).

(** The class [[\d\.]] of the opacity pattern. *)
Definition is_opacity_char (c : ascii) : bool := is_digit c || Ascii.eqb c ".".

Definition opacity_open : str := svg "fill-opacity='".

(** The attribute text [fill-opacity="v"]. *)
Definition opacity_attr (v : str) : str := opacity_open ++ v ++ [dquote].

(** A match of [fill-opacity="([\d\.]+)"] at the head of [s]: the captured
    group and the suffix after the match.  The closing quote is not in the
    class, so the greedy run is the only candidate. *)
Definition match_opacity (s : str) : option (str * str) :=
  match strip_prefix opacity_open s with
  | Some t =>
      match span is_opacity_char t with
      | ([], _) => None
      | (v, q :: suffix) =>
          if Ascii.eqb q dquote then Some (v, suffix) else None
      | (_, []) => None
      end
  | None => None
  end.

(** The [regex_search] loop of [getSolid]: the captured groups of the
    successive leftmost matches, each search resuming at the suffix of the
    previous match. *)
Fixpoint opacity_matches_from (skip : nat) (s : str) : list str :=
  match s with
  | [] => []
  | c :: t =>
      match skip with
      | S k => opacity_matches_from k t
      | O =>
          match match_opacity s with
          | Some (v, _) =>
              v :: opacity_matches_from (length opacity_open + length v) t
          | None => opacity_matches_from 0 t
          end
      end
  end.

Definition opacity_matches (s : str) : list str := opacity_matches_from 0 s.

(** The digits of [u] in base 10, most significant first, [n] of them. *)
Fixpoint digits10 (n : nat) (u : Z) : str :=
  match n with
  | O => []
  | S k => digits10 k (u / 10) ++ [Hex.digit_char (u mod 10)]
  end.

(** The decimal numeral of [u >= 0]. *)
Definition dec (u : Z) : str :=
  Hex.drop_zeros 1 (digits10 (S (Z.to_nat (Z.log2 u))) u).

(** The value of a run of decimal digits. *)
Fixpoint dec_value (acc : Z) (s : str) : Z :=
  match s with
  | c :: t => dec_value (10 * acc + (ascii_code c - 48)) t
  | [] => acc
  end.

End Text.

(** ** Conversions between [float] and text *)

Module FloatText.
Import IEEE Text.

Definition f32 : format := binary32.

(** [std::stof] on a text of digits and dots, the only texts the opacity
    pattern captures: [strtof] converts the longest prefix of the form
    digits, optional dot, digits, holding at least one digit, correctly
    rounded.  No digit is [invalid_argument]; an overflow is [out_of_range],
    and so is, in glibc, an inexact result below the normal range. *)
Definition stof (s : str) : result float :=
  let '(ip, rest) := span is_digit s in
  let fp := match rest with
            | "."%char :: t => fst (span is_digit t)
            | _ => []
            end in
  match ip ++ fp with
  | [] => Throw invalid_argument
  | ds =>
      let num := dec_value 0 ds * one f32 in
      let den := 10 ^ Z.of_nat (length fp) in
      match rnd f32 num den with
      | Fin n =>
          if (Z.abs n <? 2 ^ 23) && negb (n * den =? num)
          then Throw out_of_range
          else Ok (Fin n)
      | _ => Throw out_of_range
      end
  end.

(** [std::to_string(float)]: [printf] with [%f], six digits after the point,
    the exact binary value rounded to nearest, ties to even. *)
Definition to_string (a : float) : str :=
  match a with
  | Fin n =>
      let N := round_half_even (Z.abs n * 10 ^ 6) (one f32) in
      (if n <? 0 then lit "-" else []) ++
      dec (N / 10 ^ 6) ++ lit "." ++ digits10 6 (N mod 10 ^ 6)
  | PInf => lit "inf"
  | NInf => lit "-inf"
  | NaN => lit "nan"
  end.

End FloatText.

(** ** OpacityFlattener *)

Module Flatten.
Import IEEE Text.

Definition fill_black : str := svg "fill='black'".
Definition stroke_none : str := svg " stroke='none'".

(** [std::set<float>::insert]: the elements in ascending order, each once. *)
Fixpoint set_insert (x : float) (l : list float) : list float :=
  match l with
  | [] => [x]
  | y :: t =>
      if ltb x y then x :: l
      else if ltb y x then y :: set_insert x t
      else l
  end.

Fixpoint mapM {A B} (f : A -> result B) (l : list A) : result (list B) :=
  match l with
  | [] => Ok []
  | a :: t => do b <- f a; do bs <- mapM f t; Ok (b :: bs)
  end.

Definition oldAttr (opacity : float) : str :=
  opacity_attr (FloatText.to_string opacity).

Definition newAttr (stroke : bool) (hexColor : str) : str :=
  if stroke
  then svg "fill='" ++ hexColor ++ svg "' stroke-width='1' stroke='"
         ++ hexColor ++ [dquote]
  else svg "fill='" ++ hexColor ++ [dquote].

(** The inner loop over [j]: the opacity composed with every later one. *)
Definition trueOpacity (opacity : float) (lighter : list float) : float :=
  fold_left ColorMath.combineOpacity lighter opacity.

(** The loop over [i]; [sortedOpacities] is what is left from position [i]. *)
Fixpoint flatten_loop (stroke : bool) (sortedOpacities : list float)
    (res : str) : result str :=
  match sortedOpacities with
  | [] => Ok res
  | opacity :: lighter =>
      do hexColor <- ColorMath.rgbaToHex 0 0 0 (trueOpacity opacity lighter);
      flatten_loop stroke lighter
        (replace_all (oldAttr opacity) (newAttr stroke hexColor) res)
  end.

(** [uniqueOpacities] is ascending and without duplicates, so sorting its
    reverse range ascending leaves the vector descending: the reversed set. *)
Definition getSolid (svgContent : str) (stroke : bool) : result str :=
  let res := replace_all fill_black [] svgContent in
  do values <- mapM FloatText.stof (opacity_matches res);
  let uniqueOpacities := fold_left (fun s v => set_insert v s) values [] in
  match uniqueOpacities with
  | [] => Ok res
  | _ :: _ =>
      let sortedOpacities := rev uniqueOpacities in
      do res <- flatten_loop stroke sortedOpacities res;
      Ok (replace_all stroke_none [] res)
  end.

End Flatten.

(** ** SvgNormalizer *)

Module Normalizer.
Import Text.

Definition optimizeSvg (svgContent : str) : str :=
  replace_all (lit "> <") (lit "><") (collapse_space svgContent).

End Normalizer.

(** ** PixelStore and DominantColorExtractor *)

Module Palette.

(** [PixelData]: [pixels] is height x width x channels, of [uint8_t]. *)
Record PixelData : Type := {
  pixels : list (list (list Byte.byte));
  width : Z;
  height : Z;
  channels : Z;
  mode : str
}.

Definition sample_value (b : Byte.byte) : Z := Z.of_N (Byte.to_N b).

(** [v[i]] of a [std::vector]: outside the vector it is undefined
    behaviour. *)
Definition at_ {A} (v : list A) (i : Z) : result A :=
  if i <? 0 then Throw undefined_behaviour
  else match nth_error v (Z.to_nat i) with
       | Some a => Ok a
       | None => Throw undefined_behaviour
       end.

(** [std::map<std::string, int>]: the entries in ascending key order. *)
Definition color_map := list (str * Z).

(** [a < b] on [std::string]: lexicographic on the character codes. *)
Fixpoint str_ltb (a b : str) : bool :=
  match a, b with
  | _, [] => false
  | [], _ :: _ => true
  | x :: a', y :: b' =>
      if ascii_code x <? ascii_code y then true
      else if ascii_code y <? ascii_code x then false
      else str_ltb a' b'
  end.

(** [colorCount[color]++].  The counter counts sampled pixels, fewer than
    [2^31] in any buffer the decoder returns. *)
Fixpoint incr (color : str) (m : color_map) : color_map :=
  match m with
  | [] => [(color, 1)]
  | (k, n) :: t =>
      if str_eqb color k then (k, n + 1) :: t
      else if str_ltb color k then (color, 1) :: m
      else (k, n) :: incr color t
  end.

(** The values of the counter of [for (i = 0; i < n; i += step)]. *)
Definition strided (n step : Z) : list Z :=
  map (fun k => Z.of_nat k * step) (seq 0 (Z.to_nat ((n + step - 1) / step))).

Definition sampleStep (data : PixelData) : Z :=
  Z.max 1 (Z.quot (Z.min (width data) (height data)) 100).

(** The 32-level bucket of a channel. *)
Definition quantize (b : Byte.byte) : Z := sample_value b / 32 * 32.

(** The quantized colour of a pixel, or [None] for a pixel the loop skips:
    a transparent one of a 4-channel buffer. *)
Definition pixel_color (data : PixelData) (px : list Byte.byte)
  : result (option str) :=
  do transparent <-
    (if channels data =? 4
     then do a <- at_ px 3; Ok (sample_value a <? 128)
     else Ok false);
  if transparent then Ok None
  else
    do p0 <- at_ px 0;
    do p1 <- at_ px 1;
    do p2 <- at_ px 2;
    Ok (Some (Hex.rgbToHex (quantize p0) (quantize p1) (quantize p2))).

(** The body of the inner loop at [(x, y)]. *)
Definition visit (data : PixelData) (colorCount : color_map) (y x : Z)
  : result color_map :=
  if 3 <=? channels data then
    do row <- at_ (pixels data) y;
    do px <- at_ row x;
    do color <- pixel_color data px;
    match color with
    | Some c => Ok (incr c colorCount)
    | None => Ok colorCount
    end
  else Ok colorCount.

Fixpoint foldM {A B} (f : A -> B -> result A) (l : list B) (a : A) : result A :=
  match l with
  | [] => Ok a
  | b :: t => do a' <- f a b; foldM f t a'
  end.

(** The two nested loops over the sampled pixels. *)
Definition histogram (data : PixelData) : result color_map :=
  let step := sampleStep data in
  foldM (fun m y => foldM (fun m x => visit data m y x)
                          (strided (width data) step) m)
        (strided (height data) step) [].

(** [std::sort] with the comparator [a.second > b.second].  The standard
    leaves the order of entries of equal count open; the model is the
    insertion sort that libstdc++ and libc++ run on short ranges, which
    keeps them in the order of the map: an entry moves past the entries of
    strictly greater count only. *)
Fixpoint insert_by_count (e : str * Z) (l : list (str * Z)) : list (str * Z) :=
  match l with
  | [] => [e]
  | h :: t => if snd e <? snd h then h :: insert_by_count e t else e :: l
  end.

Definition sort_by_count (l : list (str * Z)) : list (str * Z) :=
  fold_right insert_by_count [] l.

Definition extractDominantColors (data : PixelData) (numColors : Z)
  : result (list str) :=
  do colorCount <- histogram data;
  let sortedColors := sort_by_count colorCount in
  Ok (firstn (Z.to_nat numColors) (map fst sortedColors)).

End Palette.

(** ** InspectionHeuristic *)

Module Inspect.
Import Palette.

Record VectorizationOption : Type := {
  step : Z;
  colors : list str
}.

Definition black_option : VectorizationOption :=
  {| step := 1; colors := [lit "#000000"] |}.

Definition near_white (rgb : Z * Z * Z) : bool :=
  let '(r, g, b) := rgb in (200 <? r) && (200 <? g) && (200 <? b).

Definition near_black (rgb : Z * Z * Z) : bool :=
  let '(r, g, b) := rgb in (r <? 50) && (g <? 50) && (b <? 50).

(** The palette after the background check of [inspectImage]: the first
    colour is erased when it is near-white and [palette.size() > 1]. *)
Definition workingPalette (palette : list str) : result (list str) :=
  match palette with
  | [] => Ok []
  | first :: rest =>
      do firstRgb <- Hex.hexToRgb first;
      let isWhiteBackground := near_white firstRgb in
      if isWhiteBackground && (1 <? length palette)%nat
      then Ok rest
      else Ok palette
  end.

(** The options of the final loop: option [i] holds the first [i]
    colours, for [i] from 1 to [n]. *)
Fixpoint options_upto (n : nat) (palette : list str) : list VectorizationOption :=
  match n with
  | O => []
  | S k => options_upto k palette
           ++ [{| step := Z.of_nat n; colors := firstn n palette |}]
  end.

(** [inspectImage] on the decoded buffer of the image ([getPixels] is the
    codec's). *)
Definition inspectImage (data : PixelData) : result (list VectorizationOption) :=
  do palette <- extractDominantColors data 5;
  match palette with
  | [] => Ok [black_option]
  | _ :: _ =>
      do palette <- workingPalette palette;
      do isBlackAndWhite <-
        match rev palette with
        | [] => Ok false
        | back :: _ => do lastRgb <- Hex.hexToRgb back; Ok (near_black lastRgb)
        end;
      if isBlackAndWhite then Ok [black_option]
      else Ok (options_upto (Nat.min 4 (length palette)) palette)
  end.

End Inspect.

(** ** SvgNormalizer: the view box *)

Module Viewbox.
Import Text.

(** A match at the head of [s] of the literal [open] that starts the pattern,
    one or more digits, and the closing quote: the captured digits.  The
    closing quote is no digit, so the greedy run is the only candidate. *)
Definition match_size (open s : str) : option str :=
  match strip_prefix open s with
  | Some t =>
      match span is_digit t with
      | ([], _) => None
      | (v, q :: _) => if Ascii.eqb q dquote then Some v else None
      | (_, []) => None
      end
  | None => None
  end.

(** [std::regex_search]: the group of the leftmost match. *)
Fixpoint search_size (open s : str) : option str :=
  match s with
  | [] => None
  | _ :: t =>
      match match_size open s with
      | Some v => Some v
      | None => search_size open t
      end
  end.

Definition widthPattern : str := svg "width='".
Definition heightPattern : str := svg "height='".

Definition oldHeader (width height : str) : str :=
  svg "<svg xmlns='http://www.w3.org/2000/svg' width='" ++ width
  ++ svg "' height='" ++ height ++ svg "'>".

Definition newHeader (width height : str) : str :=
  svg "<svg xmlns='http://www.w3.org/2000/svg' viewBox='0 0 " ++ width
  ++ lit " " ++ height ++ svg "'>".

(** [result.find(old)] and, when it is found, [result.replace] of that one
    occurrence, for a non-empty [old]. *)
Fixpoint replace_first (old new s : str) : str :=
  match s with
  | [] => []
  | c :: t =>
      match strip_prefix old s with
      | Some rest => new ++ rest
      | None => c :: replace_first old new t
      end
  end.

Definition viewboxify (svgContent : str) : str :=
  match search_size widthPattern svgContent with
  | Some width =>
      match search_size heightPattern svgContent with
      | Some height =>
          replace_first (oldHeader width height) (newHeader width height)
            svgContent
      | None => svgContent
      end
  | None => svgContent
  end.

End Viewbox.

(** ** PixelStore: the decoded image *)

Module PixelStore.
Import Palette.

(** The [switch] on the number of channels. *)
Definition mode_of (channels : Z) : str :=
  if channels =? 1 then lit "L"
  else if channels =? 2 then lit "LA"
  else if channels =? 3 then lit "RGB"
  else if channels =? 4 then lit "RGBA"
  else lit "UNKNOWN".

(** The values of the counter of [for (i = 0; i < n; ++i)]. *)
Definition counter (n : Z) : list Z := map Z.of_nat (seq 0 (Z.to_nat n)).

(** The conversion loops of [getPixels], on what [stbi_load] returned: the
    buffer of samples and its three dimensions, which the decoder never
    returns negative.  A sample read outside the buffer is undefined
    behaviour. *)
Definition getPixels (buf : list Byte.byte) (width height channels : Z)
  : result PixelData :=
  do rows <-
    Flatten.mapM (fun y =>
      Flatten.mapM (fun x =>
        Flatten.mapM (fun c => at_ buf ((y * width + x) * channels + c))
          (counter channels))
        (counter width))
      (counter height);
  Ok {| pixels := rows; width := width; height := height;
        channels := channels; mode := mode_of channels |}.

End PixelStore.

(** ** Posterizer *)

Module Posterize.

(** The posterization of one grey sample [p] of [0..255], promoted to
    [int]: [static_cast<unsigned char>((p / step) * step)] for
    [step = 256 / levels], when [levels > 1]; a division by zero is
    undefined behaviour. *)
Definition posterize (levels p : Z) : result Z :=
  if 1 <? levels then
    let step := Z.quot 256 levels in
    if step =? 0 then Throw undefined_behaviour
    else Ok ((Z.quot p step * step) mod 256)
  else Ok p.

End Posterize.

(** ** The command line: which option is vectorized *)

Module Cli.
Import Palette Inspect.

(** The automatic selection of [processSingleFile], reached with a vector
    that is not empty: [options[std::min(optionIndex, size - 1)]]. *)
Definition selectOption (options : list VectorizationOption) (optionIndex : Z)
  : result VectorizationOption :=
  let idx := Z.min optionIndex (Z.of_nat (length options) - 1) in
  at_ options idx.

End Cli.

(** ** ColorMapper: [replaceColors] *)

Module Recolor.
Import Text Palette.

(** The class [\w] of the word boundary: letters, digits and [_]. *)
Definition is_word (c : ascii) : bool :=
  let n := ascii_code c in
  ((48 <=? n) && (n <=? 57)) || ((65 <=? n) && (n <=? 90))
  || ((97 <=? n) && (n <=? 122)) || (n =? 95).

(** [\b] after a hexadecimal digit: the end of the text or a character
    that is not of a word. *)
Definition boundary (rest : str) : bool :=
  match rest with
  | [] => true
  | c :: _ => negb (is_word c)
  end.

(** [n] hexadecimal digits, in either case, and then a word boundary. *)
Definition hex_run (n : nat) (t : str) : bool :=
  (length (firstn n t) =? n)%nat && forallb Hex.is_xdigit (firstn n t)
  && boundary (skipn n t).

(** A match of [#([a-f0-9]{3}){1,2}\b], case-insensitive, at the head of
    [s]: the matched text and the suffix.  The greedy repetition takes six
    digits when they are followed by a boundary; three digits are followed
    by a boundary only if the fourth character is no digit. *)
Definition match_color (s : str) : option (str * str) :=
  match s with
  | "#"%char :: t =>
      if hex_run 6 t then Some ("#"%char :: firstn 6 t, skipn 6 t)
      else if hex_run 3 t then Some ("#"%char :: firstn 3 t, skipn 3 t)
      else None
  | _ => None
  end.

(** The [regex_search] loop: the texts of the successive leftmost matches,
    each search resuming at the suffix of the previous match. *)
Fixpoint color_matches_from (skip : nat) (s : str) : list str :=
  match s with
  | [] => []
  | _ :: t =>
      match skip with
      | S k => color_matches_from k t
      | O =>
          match match_color s with
          | Some (m, _) => m :: color_matches_from (length m - 1) t
          | None => color_matches_from 0 t
          end
      end
  end.

Definition color_matches (s : str) : list str := color_matches_from 0 s.

(** [std::set<std::string>::insert]: ascending, each text once. *)
Fixpoint set_insert (x : str) (l : list str) : list str :=
  match l with
  | [] => [x]
  | y :: t =>
      if str_ltb x y then x :: l
      else if str_ltb y x then y :: set_insert x t
      else l
  end.

(** [replaceColors] on the decoded image ([getPixels] is applied by the
    caller of the model). *)
Definition replaceColors (svgContent : str) (originalData : PixelData)
  : result str :=
  if str_eqb (mode originalData) (lit "L")
     || str_eqb (mode originalData) (lit "LA")
  then Ok svgContent
  else
    let svgColors :=
      fold_left (fun s m => set_insert m s) (color_matches svgContent) [] in
    match svgColors with
    | [] => Ok svgContent
    | _ :: _ =>
        let numColors := Z.min (Z.of_nat (length svgColors)) 5 in
        do dominantColors <- extractDominantColors originalData numColors;
        match dominantColors with
        | [] => Ok svgContent
        | _ :: _ =>
            foldM (fun res svgColor =>
                     do nearest <- ColorMapper.findNearestColor svgColor
                                     dominantColors;
                     Ok (replace_all svgColor nearest res))
                  svgColors svgContent
        end
    end.

End Recolor.

(** ** [parseImage]: from the traced drawing to the document *)

Module Pipeline.
Import Text Palette.

(** What [parseImage] does with the text that potrace wrote, for the image
    as [getPixels] decodes it.  For [step == 1] the first colour is the
    format of a [regex_replace]; a colour text holds no [$], and is then
    inserted as it is. *)
Definition processSvg (svgContent : str) (step : Z) (colors : list str)
    (data : PixelData) : result str :=
  do svgContent <- Flatten.getSolid svgContent (negb (step =? 1));
  do svgContent <-
    (if (step =? 1) && negb (length colors =? 0)%nat
     then do c <- at_ colors 0;
          Ok (replace_all (lit "#000000") c svgContent)
     else if 1 <? step then Recolor.replaceColors svgContent data
     else Ok svgContent);
  let svgContent := Normalizer.optimizeSvg svgContent in
  Ok (Viewbox.viewboxify svgContent).

End Pipeline.

(** ** Posterizer: the grey image *)

Module Gray.
Import IEEE Palette.

(** The C++ type [double]. *)
Definition f64 : format := binary64.

(** The literal [n / 1000] of type [double], as [0.299]. *)
Definition literal (n : Z) : float := rnd f64 (n * one f64) 1000.

(** [static_cast<unsigned char>] of a [double]: truncation toward zero; a
    truncated value outside [0..255], an infinity or [NaN] is undefined
    behaviour. *)
Definition to_uchar (a : float) : result Z :=
  match a with
  | Fin n =>
      let z := Z.quot n (one f64) in
      if (0 <=? z) && (z <=? 255) then Ok z else Throw undefined_behaviour
  | _ => Throw undefined_behaviour
  end.

(** [static_cast<unsigned char>(0.299 * r + 0.587 * g + 0.114 * b)], every
    operation rounded to [double]. *)
Definition gray (r g b : Z) : result Z :=
  to_uchar
    (add f64
       (add f64 (mul f64 (literal 299) (of_int f64 r))
                (mul f64 (literal 587) (of_int f64 g)))
       (mul f64 (literal 114) (of_int f64 b))).

(** The conversion loop of [posterizeImage], entered for more than one
    channel: pixel [i] is read at [i * channels], [+ 1] and [+ 2] of the
    decoder's buffer. *)
Definition toGray (pixels : list Byte.byte) (width height channels : Z)
  : result (list Z) :=
  Flatten.mapM (fun i =>
      do r <- at_ pixels (i * channels);
      do g <- at_ pixels (i * channels + 1);
      do b <- at_ pixels (i * channels + 2);
      gray (sample_value r) (sample_value g) (sample_value b))
    (PixelStore.counter (width * height)).

(** [posterizeImage] on the decoded buffer: the samples that are written
    to the bitmap. *)
Definition posterizeImage (pixels : list Byte.byte)
    (width height channels levels : Z) : result (list Z) :=
  do workingPixels <-
    (if 1 <? channels then toGray pixels width height channels
     else Ok (map sample_value pixels));
  if 1 <? levels then
    Flatten.mapM (fun i =>
        do p <- at_ workingPixels i; Posterize.posterize levels p)
      (PixelStore.counter (width * height))
  else Ok workingPixels.

End Gray.

(** * Vocabulary of the properties *)

(** Every character, for properties checked character by character. *)
Definition all_ascii : list ascii := map ascii_of_nat (seq 0 256).

Module HexSpec.
Import Hex.

(** Every channel value. *)
Definition channel_list : list Z := map Z.of_nat (seq 0 256).

(** A channel is written as two digits, which [stoi] reads back. *)
Definition channel_ok (v : Z) : bool :=
  match fmt_02x v with
  | [a; b] => match stoi16 [a; b] with
              | Ok v' => v' =? v
              | Throw _ => false
              end
  | _ => false
  end.

Definition is_sign (c : ascii) : bool := Ascii.eqb c "+" || Ascii.eqb c "-".

(** A channel field that [stoi] converts: a hexadecimal digit, alone or in
    front of any character, or a digit after one white space or sign. *)
Definition field_ok (f : str) : bool :=
  match f with
  | [c] => is_xdigit c
  | [c1; c2] => is_xdigit c1 || ((isspace c1 || is_sign c1) && is_xdigit c2)
  | _ => false
  end.

(** The texts that [hexToRgb] turns into a triple. *)
Definition accepted (hexColor : str) : bool :=
  let hex := strip_hash hexColor in
  let hex := if (length hex =? 3)%nat then expand hex else hex in
  (5 <=? length hex)%nat
  && field_ok (firstn 2 hex)
  && field_ok (firstn 2 (skipn 2 hex))
  && field_ok (firstn 2 (skipn 4 hex)).

Definition in_field_range (v : Z) : bool := (-15 <=? v) && (v <=? 255).

Definition field1_check (c : ascii) : bool :=
  match stoi16 [c] with
  | Ok v => field_ok [c] && in_field_range v
  | Throw _ => negb (field_ok [c])
  end.

Definition field2_check (c1 c2 : ascii) : bool :=
  match stoi16 [c1; c2] with
  | Ok v => field_ok [c1; c2] && in_field_range v
  | Throw _ => negb (field_ok [c1; c2])
  end.

End HexSpec.

Module NormalizerSpec.
Import Text.

(** The second pass of [optimizeSvg]. *)
Definition squeeze (s : str) : str := replace_all (lit "> <") (lit "><") s.

(** A text on which [collapse_from] has nothing to do: every white-space
    character is one blank that follows no white space. *)
Fixpoint tidy_from (in_run : bool) (s : str) : bool :=
  match s with
  | [] => true
  | c :: t =>
      if Hex.isspace c
      then Ascii.eqb c " " && negb in_run && tidy_from true t
      else tidy_from false t
  end.

End NormalizerSpec.

Module IEEESpec.
Import IEEE.

(** The low bits dropped, and the rounded value before the overflow test of
    [rnd], for a significand of [p] bits. *)
Definition shift (p a : Z) : Z := Z.max 0 (Z.log2 a - (p - 1)).

Definition rndz (p : Z) (num den : Z) : Z :=
  let k := shift p (Z.abs num / den) in
  round_half_even num (den * 2 ^ k) * 2 ^ k.

(** A value that needs no more than [p] significant bits. *)
Definition fits (p : Z) (n : Z) : Prop :=
  exists m j, n = m * 2 ^ j /\ Z.abs m < 2 ^ p /\ 0 <= j.

End IEEESpec.

Module MapperSpec.
Import IEEE IEEESpec.

(** The colour a text stands for; black for a text that is none. *)
Definition rgb_of (c : str) : Z * Z * Z :=
  match Hex.hexToRgb c with
  | Ok rgb => rgb
  | Throw _ => (0, 0, 0)
  end.

(** The squared Euclidean distance in RGB space. *)
Definition sqdist (a b : Z * Z * Z) : Z :=
  let '(ar, ag, ab) := a in
  let '(br, bg, bb) := b in
  (ar - br) * (ar - br) + (ag - bg) * (ag - bg) + (ab - bb) * (ab - bb).

(** [c] is the first of the candidates that are nearest to [t]. *)
Definition first_nearest (t : Z * Z * Z) (colorList : list str) (c : str) : Prop :=
  exists pre post,
    colorList = pre ++ c :: post
    /\ (forall c', In c' colorList -> sqdist t (rgb_of c) <= sqdist t (rgb_of c'))
    /\ (forall c', In c' pre -> sqdist t (rgb_of c) < sqdist t (rgb_of c')).

(** The [double] square root of the integer [n], in units of [2^-1074]. *)
Definition root64 (n : Z) : Z :=
  let N := n * one binary64 * one binary64 in
  let s := Z.sqrt N in
  if s * s =? N then rndz 53 s 1 else rndz 53 (2 * s + 1) 2.

(** The largest squared distance between two colours read by [hexToRgb]. *)
Definition max_sqdist : Z := 3 * (270 * 270).

(** The value 1.0 of [double], in units of [2^-1074], and a coarser grid. *)
Definition unit64 : Z := one ColorMapper.f64.
Definition grid64 : Z := 2 ^ 1054.

(** A colour read by [hexToRgb]. *)
Definition in_range (rgb : Z * Z * Z) : Prop :=
  let '(r, g, b) := rgb in
  -15 <= r <= 255 /\ -15 <= g <= 255 /\ -15 <= b <= 255.

(** A colour text. *)
Definition ok (c : str) : Prop := HexSpec.accepted c = true.

(** The state of the loop after the candidates [seen]. *)
Definition loop_inv (t : Z * Z * Z) (seen : list str) (minDistance : float)
    (nearest : str) : Prop :=
  (seen = [] /\ minDistance = ColorMapper.DBL_MAX)
  \/ (first_nearest t seen nearest
      /\ minDistance = Fin (root64 (sqdist t (rgb_of nearest)))).

End MapperSpec.

Module FlattenSpec.
Import Text Flatten.

(** The first pass of [getSolid]. *)
Definition strip_black (s : str) : str := replace_all fill_black [] s.

(** A [fill-opacity] attribute occurs in the text: the opacity pattern
    matches somewhere. *)
Definition has_opacity (s : str) : bool :=
  match opacity_matches s with
  | [] => false
  | _ :: _ => true
  end.

(** The same, said of the text itself. *)
Definition occurs_opacity (s : str) : Prop :=
  exists pre v post,
    s = pre ++ opacity_attr v ++ post
    /\ v <> [] /\ forallb is_opacity_char v = true.

(** An occurrence of one of the three literals that [getSolid] rewrites:
    [fill="black"], [ stroke="none"], or [fill-opacity="v"] for a non-empty
    run [v] of digits and dots. *)
Definition attr_word (w : str) : Prop :=
  w = fill_black \/ w = stroke_none
  \/ exists v, v <> [] /\ forallb is_opacity_char v = true /\ w = opacity_attr v.

(** [t] is [s] with some occurrences of the words [P] replaced by other
    text, and every other character kept where it is. *)
Inductive edits (P : str -> Prop) : str -> str -> Prop :=
| edits_nil : edits P [] []
| edits_keep (c : ascii) (s t : str) :
    edits P s t -> edits P (c :: s) (c :: t)
| edits_word (w r s t : str) :
    P w -> edits P s t -> edits P (w ++ s) (r ++ t).

(** A sequence of rewriting passes. *)
Inductive passes (P : str -> Prop) : str -> str -> Prop :=
| passes_one (s t : str) : edits P s t -> passes P s t
| passes_cons (s t u : str) : edits P s t -> passes P t u -> passes P s u.

(** The length of the occurrence of a literal at the head of [s]; [0] when
    there is none. *)
Definition occurrence_length (s : str) : nat :=
  match strip_prefix fill_black s with
  | Some _ => length fill_black
  | None =>
      match strip_prefix stroke_none s with
      | Some _ => length stroke_none
      | None =>
          match match_opacity s with
          | Some (v, _) => length (opacity_attr v)
          | None => O
          end
      end
  end.

(** The characters of [s] that are part of no occurrence; [cover] counts
    the characters still covered by an occurrence that started earlier. *)
Fixpoint outside_from (cover : nat) (s : str) : str :=
  match s with
  | [] => []
  | c :: t =>
      match Nat.max cover (occurrence_length s) with
      | O => c :: outside_from 0 t
      | S k => outside_from k t
      end
  end.

Definition outside (s : str) : str := outside_from 0 s.

(** [a] is [b] with some characters left out. *)
Inductive subseq : str -> str -> Prop :=
| subseq_nil : subseq [] []
| subseq_skip (c : ascii) (a b : str) : subseq a b -> subseq a (c :: b)
| subseq_keep (c : ascii) (a b : str) : subseq a b -> subseq (c :: a) (c :: b).

Fixpoint is_subseq (a b : str) : bool :=
  match b with
  | [] => match a with [] => true | _ :: _ => false end
  | y :: b' =>
      match a with
      | [] => true
      | x :: a' => if Ascii.eqb x y then is_subseq a' b' else is_subseq a b'
      end
  end.

(** A finite opacity that is not negative. *)
Definition nonneg (a : IEEE.float) : Prop := exists n, a = IEEE.Fin n /\ 0 <= n.

End FlattenSpec.

Module PaletteSpec.
Import Palette.

(** The buffer is what it says it is: [height] rows of [width] pixels of
    [channels] samples. *)
Definition well_formed (data : PixelData) : Prop :=
  Z.of_nat (length (pixels data)) = height data /\
  Forall (fun row =>
    Z.of_nat (length row) = width data /\
    Forall (fun px => Z.of_nat (length px) = channels data) row) (pixels data).

(** What the loop body counts at [(x, y)]: the quantized colour of the
    pixel, or nothing. *)
Definition cell (data : PixelData) (y x : Z) : list str :=
  if 3 <=? channels data then
    match at_ (pixels data) y with
    | Ok row =>
        match at_ row x with
        | Ok px =>
            match pixel_color data px with
            | Ok (Some c) => [c]
            | _ => []
            end
        | Throw _ => []
        end
    | Throw _ => []
    end
  else [].

(** The quantized colours of the sampled pixels, in the order of the scan
    (row by row): what the histogram counts. *)
Definition scanned (data : PixelData) : list str :=
  flat_map (fun y => flat_map (cell data y)
                       (strided (width data) (sampleStep data)))
           (strided (height data) (sampleStep data)).

(** How often a colour was counted. *)
Definition frequency (data : PixelData) (c : str) : nat :=
  count_occ (list_eq_dec ascii_dec) (scanned data) c.

(** The distinct colours of a list, in the order of their first occurrence. *)
Definition first_seen (l : list str) : list str :=
  rev (nodup (list_eq_dec ascii_dec) (rev l)).

(** The count of a colour in the map; [0] when it has no entry. *)
Fixpoint get (k : str) (m : color_map) : Z :=
  match m with
  | [] => 0
  | (k', n) :: t => if str_eqb k k' then n else get k t
  end.

Definition str_lt (a b : str) : Prop := str_ltb a b = true.

(** Keys ascending and every count positive. *)
Definition map_ok (m : color_map) : Prop :=
  StronglySorted str_lt (map fst m) /\ Forall (fun e => 0 < snd e) m.

(** A byte of the given value. *)
Definition byte_of (z : Z) : Byte.byte :=
  match Byte.of_N (Z.to_N z) with
  | Some b => b
  | None => Byte.x00
  end.

(** The map that counts the colours of a list. *)
Definition counted (l : list str) : color_map :=
  fold_left (fun m c => incr c m) l [].

(** The order of the sort: counts descending. *)
Definition by_count (a b : str * Z) : Prop := snd b <= snd a.

(** A colour whose three channels are multiples of 32. *)
Definition bucket_color (c : str) : Prop :=
  exists r g b, Hex.hexToRgb c = Ok (r, g, b)
    /\ r mod 32 = 0 /\ g mod 32 = 0 /\ b mod 32 = 0.

(** A buffer of one row of RGB pixels. *)
Definition rgb_row (row : list (Z * Z * Z)) : PixelData :=
  {| pixels := [map (fun p : Z * Z * Z =>
                       let '(r, g, b) := p in [byte_of r; byte_of g; byte_of b])
                    row];
     width := Z.of_nat (length row);
     height := 1;
     channels := 3;
     mode := lit "RGB" |}.

(** A white pixel, then a black one. *)
Definition white_black : PixelData := rgb_row [(255, 255, 255); (0, 0, 0)].

(** Two white pixels, then a blue one. *)
Definition white_white_blue : PixelData :=
  rgb_row [(255, 255, 255); (255, 255, 255); (32, 64, 96)].

End PaletteSpec.

Module ColorMathSpec.
Import IEEE ColorMath.

(** The value 1.0 of [float], in units of [2^-149]. *)
Definition unit32 : Z := one f32.

(** Half of the last bit of a [float] below 1.0: [2^-25]. *)
Definition half_ulp32 : Z := 2 ^ 124.

End ColorMathSpec.

(** The arithmetic compared with the standard library's specification of
    IEEE-754 ([SpecFloat]). *)
Module IEEECheck.
Import IEEE.

(** The value of a [spec_float] of the format, in units. *)
Definition of_spec (fmt : format) (x : spec_float) : float :=
  match x with
  | S754_zero _ => Fin 0
  | S754_infinity s => if s then NInf else PInf
  | S754_nan => NaN
  | S754_finite s m e =>
      Fin ((if s then Z.neg m else Z.pos m) * 2 ^ (e + Z.log2 (one fmt)))
  end.

Definition float_eqb (a b : float) : bool :=
  match a, b with
  | Fin x, Fin y => x =? y
  | PInf, PInf | NInf, NInf | NaN, NaN => true
  | _, _ => false
  end.

(** The operations agree on the pair [(x, y)]. *)
Definition agree (fmt : format) (x y : spec_float) : bool :=
  let emax := Z.log2 (largest fmt / one fmt) + 1 in
  let p := prec fmt in
  let a := of_spec fmt x in
  let b := of_spec fmt y in
  float_eqb (add fmt a b) (of_spec fmt (SFadd p emax x y))
  && float_eqb (sub fmt a b) (of_spec fmt (SFsub p emax x y))
  && float_eqb (mul fmt a b) (of_spec fmt (SFmul p emax x y))
  && float_eqb (sqrt fmt a) (of_spec fmt (SFsqrt p emax x))
  && Bool.eqb (ltb a b) (SFltb x y).

(** The normal number [m * 2^e] of the format, for [m] of at most [prec]
    bits. *)
Definition normal (fmt : format) (s : bool) (m : positive) (e : Z) : spec_float :=
  let d := prec fmt - Z.log2 (Z.pos m) - 1 in
  match 2 ^ d with
  | Z.pos k => S754_finite s (m * k) (e - d)
  | _ => S754_nan
  end.

(** Sample values: exact and inexact products, both signs, the special
    values, and for binary32 two subnormal numbers. *)
Definition samples (fmt : format) : list spec_float :=
  [ S754_zero false; normal fmt false 1 (-1); normal fmt false 3 (-2);
    normal fmt true 1 0; normal fmt false 255 0; normal fmt false 195075 0;
    normal fmt false 13421773 (-25); normal fmt true 10066331 (-35);
    normal fmt false 5 120; normal fmt false 7 (-100);
    S754_infinity false; S754_infinity true; S754_nan ].

(** Fewer of them, for the long numbers of binary64. *)
Definition samples64 : list spec_float :=
  [ S754_zero false; normal binary64 false 1 (-1); normal binary64 true 3 (-2);
    normal binary64 false 255 0; normal binary64 false 195075 0;
    S754_infinity false; S754_nan ].

Definition subnormal32 : list spec_float :=
  [ S754_finite false 3 (-149); S754_finite true 8388607 (-149) ].

Definition agree_on (fmt : format) (l : list spec_float) : bool :=
  forallb (fun x => forallb (agree fmt x) l) l.

End IEEECheck.

Module BlendSpec.
Import IEEE IEEESpec ColorMath ColorMathSpec.

(** An opacity between 0 and 1. *)
Definition unit_opacity (a : float) : Prop :=
  exists n, a = Fin n /\ 0 <= n <= unit32.

(** The composite of two opacities of the unit interval, in units. *)
Definition composite (na nb : Z) : Z :=
  rndz 24 (unit32 - rndz 24 (rndz 24 (unit32 - na) 1 * rndz 24 (unit32 - nb) 1)
                          unit32) 1.

(** The blended channel before the cast to [int], in units. *)
Definition blended (c na : Z) : Z :=
  rndz 24 (rndz 24 (na * c) 1 + rndz 24 (255 * rndz 24 (unit32 - na) 1) 1) 1.

End BlendSpec.

Module HexText.
Import Hex.

(** The lower-case form of a character. *)
Definition to_lower (c : ascii) : ascii :=
  let n := ascii_code c in
  if (65 <=? n) && (n <=? 90) then ascii_of_N (Z.to_N (n + 32)) else c.

(** A digit that [rgbToHex] may write. *)
Definition lower_xdigit (c : ascii) : bool :=
  is_xdigit c && Ascii.eqb (to_lower c) c.

(** The value of a hexadecimal digit, and of two of them. *)
Definition value (c : ascii) : Z :=
  match digit_val c with Some v => v | None => 0 end.

Definition pair_value (c1 c2 : ascii) : Z := 16 * value c1 + value c2.

(** Two hexadecimal digits are read as their value, which is written back
    as the same digits in lower case. *)
Definition pair_check (c1 c2 : ascii) : bool :=
  if is_xdigit c1 && is_xdigit c2
  then match stoi16 [c1; c2] with
       | Ok v => (v =? pair_value c1 c2)
                 && str_eqb (fmt_02x v) [to_lower c1; to_lower c2]
       | Throw _ => false
       end
  else true.

End HexText.

Module NormalSpec.

(** The characters of a text that are not white space, in their order. *)
Definition ink (s : str) : str := filter (fun c => negb (Hex.isspace c)) s.

(** The literal [w] occurs in [s]. *)
Definition occurs (w s : str) : Prop := exists pre post, s = pre ++ w ++ post.

(** The gap between two tags that [optimizeSvg] closes. *)
Definition gap : str := lit "> <".

End NormalSpec.

Module ViewboxSpec.
Import Text.

(** The literal [p] and the text [s] differ at a position that both have. *)
Fixpoint clash (p s : str) : bool :=
  match p, s with
  | a :: p', b :: s' => negb (Ascii.eqb a b) || clash p' s'
  | _, _ => false
  end.

(** No occurrence of [p] starts in [s], whatever follows [s]. *)
Fixpoint clear_of (p s : str) : bool :=
  match s with
  | [] => true
  | _ :: t => clash p s && clear_of p t
  end.

(** The literal start of the header that [viewboxify] looks for. *)
Definition headerOpen : str :=
  svg "<svg xmlns='http://www.w3.org/2000/svg' width='".

(** A captured size: one or more digits. *)
Definition size (v : str) : Prop := v <> [] /\ forallb is_digit v = true.

End ViewboxSpec.

Module OpacitySpec.
Import IEEE Text FloatText.

(** A captured value that [stof] reads as an opacity between 0 and 1. *)
Definition reads_unit (v : str) : Prop :=
  exists a, stof v = Ok a /\ BlendSpec.unit_opacity a.

(** Strictly descending, as [sortedOpacities] has to be. *)
Definition descending (l : list float) : Prop :=
  StronglySorted (fun a b => ltb b a = true) l.

Definition ascending (l : list float) : Prop :=
  StronglySorted (fun a b => ltb a b = true) l.

Definition finite (a : float) : Prop := exists n, a = Fin n.

(** The text of [k] millionths with six digits after the point, as
    [printf] writes it with [%f]. *)
Definition six (k : Z) : str :=
  dec (k / 10 ^ 6) ++ lit "." ++ digits10 6 (k mod 10 ^ 6).

End OpacitySpec.

Module PixelSpec.
Import Palette.

(** The sample of channel [c] at [(x, y)] of a buffer. *)
Definition sample (data : PixelData) (y x c : Z) : result Byte.byte :=
  do row <- at_ (pixels data) y;
  do px <- at_ row x;
  at_ px c.

(** The samples of a buffer, row by row and pixel by pixel. *)
Definition samples (data : PixelData) : list Byte.byte :=
  concat (map (@concat Byte.byte) (pixels data)).

End PixelSpec.

Module PipelineSpec.
Import Text NormalSpec.

(** The gap [> <] starts the text. *)
Definition starts_gap (s : str) : bool :=
  match strip_prefix gap s with
  | Some _ => true
  | None => false
  end.

(** No gap starts anywhere in the text. *)
Fixpoint gap_free (s : str) : bool :=
  match s with
  | [] => true
  | _ :: t => negb (starts_gap s) && gap_free t
  end.

Definition not_gt (c : ascii) : bool := negb (Ascii.eqb c ">").

Definition not_space (c : ascii) : bool := negb (Hex.isspace c).

End PipelineSpec.

Module RecolorSpec.
Import Recolor.

(** The colours of the document that [replaceColors] maps: the set of the
    texts that the colour pattern finds. *)
Definition svgColors (svgContent : str) : list str :=
  fold_left (fun s m => set_insert m s) (color_matches svgContent) [].


End RecolorSpec.

Module GraySpec.
Import IEEE IEEESpec.

(** The three weights, in units of [2^-1074]. *)
Definition k299 : Z := rndz 53 (299 * one binary64) 1000.
Definition k587 : Z := rndz 53 (587 * one binary64) 1000.
Definition k114 : Z := rndz 53 (114 * one binary64) 1000.

(** A thousand times the luminance of a pixel. *)
Definition luma (r g b : Z) : Z := 299 * r + 587 * g + 114 * b.

(** A sample of a grey image. *)
Definition byte_value (z : Z) : Prop := 0 <= z <= 255.

End GraySpec.

(** * Properties *)

(** ** Strings *)

Lemma str_eqb_eq (a b : str) : str_eqb a b = true <-> a = b.
Proof.
  unfold str_eqb. destruct (list_eq_dec ascii_dec a b); split; congruence.
Qed.

Lemma str_eqb_refl (a : str) : str_eqb a a = true.
Proof. now apply str_eqb_eq. Qed.

(** ** Characters *)

Lemma in_all_ascii (c : ascii) : In c all_ascii.
Proof.
  unfold all_ascii. rewrite <- (ascii_nat_embedding c).
  apply in_map, in_seq. pose proof (nat_ascii_bounded c). lia.
Qed.

(** A boolean property checked on every character holds of every character. *)
Lemma ascii_forall (P : ascii -> bool) :
  forallb P all_ascii = true -> forall c, P c = true.
Proof.
  intros H c. rewrite forallb_forall in H. apply H, in_all_ascii.
Qed.

Lemma ascii_forall2 (P : ascii -> ascii -> bool) :
  forallb (fun a => forallb (P a) all_ascii) all_ascii = true ->
  forall a b, P a b = true.
Proof.
  intros H a b.
  apply (ascii_forall (P a)). revert a. apply ascii_forall. exact H.
Qed.

(** ** The error monad *)

Lemma bind_Ok {A B} (a : A) (k : A -> result B) : bind (Ok a) k = k a.
Proof. reflexivity. Qed.

Lemma bind_Throw {A B} (e : exn) (k : A -> result B) : bind (Throw e) k = Throw e.
Proof. reflexivity. Qed.

Lemma bind_Ok_inv {A B} (m : result A) (k : A -> result B) (b : B) :
  bind m k = Ok b -> exists a, m = Ok a /\ k a = Ok b.
Proof. destruct m as [a|e]; simpl; [eauto | discriminate]. Qed.

(** ** ColorMath: hexadecimal text *)

Module HexFacts.
Import Hex HexSpec.

Lemma in_channel_list v : 0 <= v <= 255 -> In v channel_list.
Proof.
  intros H. unfold channel_list. rewrite <- (Z2Nat.id v) by lia.
  apply in_map, in_seq. lia.
Qed.

Lemma channel_roundtrip v :
  0 <= v <= 255 ->
  exists a b, fmt_02x v = [a; b] /\ stoi16 [a; b] = Ok v.
Proof.
  intros H.
  assert (A : forallb channel_ok channel_list = true) by (vm_compute; reflexivity).
  rewrite forallb_forall in A. specialize (A v (in_channel_list H)).
  unfold channel_ok in A.
  destruct (fmt_02x v) as [|a [|b [|? ?]]]; try discriminate.
  exists a, b. split; [reflexivity|].
  destruct (stoi16 [a; b]); try discriminate.
  apply Z.eqb_eq in A. now subst.
Qed.

(** The text of a colour reads back as the colour. *)
Lemma rgbToHex_read_back (r g b : Z) :
  0 <= r <= 255 -> 0 <= g <= 255 -> 0 <= b <= 255 ->
  hexToRgb (rgbToHex r g b) = Ok (r, g, b).
Proof.
  intros Hr Hg Hb.
  destruct (channel_roundtrip Hr) as (r1 & r2 & Er & Sr).
  destruct (channel_roundtrip Hg) as (g1 & g2 & Eg & Sg).
  destruct (channel_roundtrip Hb) as (b1 & b2 & Eb & Sb).
  unfold rgbToHex. rewrite Er, Eg, Eb.
  unfold hexToRgb. cbn [app firstn strip_hash length Nat.eqb substr skipn Nat.ltb Nat.leb bind].
  rewrite Sr. cbn [bind]. rewrite Sg. cbn [bind]. rewrite Sb. reflexivity.
Qed.

(** C6. For all channel values r, g, b in [0,255], parsing the text that
    [rgbToHex] writes gives the triple back:
    [hexToRgb (rgbToHex r g b) = (r, g, b)]. *)
Theorem hexToRgb_rgbToHex (r g b : Z) :
  0 <= r <= 255 -> 0 <= g <= 255 -> 0 <= b <= 255 ->
  hexToRgb (rgbToHex r g b) = Ok (r, g, b).
Proof. apply rgbToHex_read_back. Qed.

Lemma hexToRgb_rgbToHex_witness :
  hexToRgb (rgbToHex 255 128 0) = Ok (255, 128, 0).
Proof. apply hexToRgb_rgbToHex; lia. Defined.

(** *** Which texts [hexToRgb] accepts *)

Lemma field1_checked c : field1_check c = true.
Proof. revert c. apply ascii_forall. vm_compute. reflexivity. Qed.

Lemma field2_checked c1 c2 : field2_check c1 c2 = true.
Proof. revert c1 c2. apply ascii_forall2. vm_compute. reflexivity. Qed.

(** [stoi] on a field of at most two characters. *)
Lemma stoi16_field (f : str) :
  (length f <= 2)%nat ->
  if field_ok f
  then exists v, stoi16 f = Ok v /\ -15 <= v <= 255
  else throws (stoi16 f).
Proof.
  intros L. destruct f as [|c1 [|c2 [|? ?]]]; simpl in L; try lia.
  - simpl. eexists. reflexivity.
  - pose proof (field1_checked c1) as H. unfold field1_check in H.
    destruct (stoi16 [c1]) as [v|e].
    + apply andb_prop in H. destruct H as [H1 H2]. rewrite H1.
      exists v. split; [reflexivity|]. unfold in_field_range in H2. lia.
    + apply negb_true_iff in H. rewrite H. eexists. reflexivity.
  - pose proof (field2_checked c1 c2) as H. unfold field2_check in H.
    destruct (stoi16 [c1; c2]) as [v|e].
    + apply andb_prop in H. destruct H as [H1 H2]. rewrite H1.
      exists v. split; [reflexivity|]. unfold in_field_range in H2. lia.
    + apply negb_true_iff in H. rewrite H. eexists. reflexivity.
Qed.

Lemma firstn2_length (h : str) : (length (firstn 2 h) <= 2)%nat.
Proof. rewrite length_firstn. lia. Qed.

Lemma field_ok_nonempty f : field_ok f = true -> f <> [].
Proof. destruct f; simpl; congruence. Qed.

Lemma firstn_skipn_nonempty (h : str) k :
  firstn 2 (skipn k h) <> [] -> (k < length h)%nat.
Proof.
  intros H. destruct (Nat.ltb_spec k (length h)) as [L|L]; [exact L|].
  rewrite skipn_all2 in H by lia. now destruct H.
Qed.

Lemma substr_ok (h : str) pos n :
  (pos <= length h)%nat -> substr h pos n = Ok (firstn n (skipn pos h)).
Proof.
  intros L. unfold substr.
  destruct (Nat.ltb_spec (length h) pos); [lia | reflexivity].
Qed.

Lemma substr_throw (h : str) pos n :
  (length h < pos)%nat -> substr h pos n = Throw out_of_range.
Proof.
  intros L. unfold substr.
  destruct (Nat.ltb_spec (length h) pos); [reflexivity | lia].
Qed.

(** [hexToRgb] converts exactly the accepted texts, and every channel it
    returns was read from at most two characters. *)
Lemma hexToRgb_spec (s : str) :
  if accepted s
  then exists r g b, hexToRgb s = Ok (r, g, b)
         /\ -15 <= r <= 255 /\ -15 <= g <= 255 /\ -15 <= b <= 255
  else throws (hexToRgb s).
Proof.
  unfold accepted, hexToRgb.
  set (h := if (length (strip_hash s) =? 3)%nat then expand (strip_hash s)
            else strip_hash s).
  rewrite (substr_ok h 2 (Nat.le_0_l _)). rewrite bind_Ok.
  change (skipn 0 h) with h.
  pose proof (stoi16_field _ (firstn2_length h)) as F1.
  destruct (field_ok (firstn 2 h)) eqn:O1.
  2:{ destruct F1 as [e ->]. rewrite andb_false_r. now exists e. }
  destruct F1 as (r & -> & Rr). rewrite bind_Ok.
  assert (L1 : (0 < length h)%nat).
  { apply field_ok_nonempty in O1. now apply (firstn_skipn_nonempty h 0). }
  destruct (Nat.ltb_spec (length h) 2) as [L2|L2].
  { replace (5 <=? length h)%nat with false by (symmetry; apply Nat.leb_gt; lia).
    rewrite substr_throw by lia. now exists out_of_range. }
  rewrite (substr_ok h 2 L2), bind_Ok.
  pose proof (stoi16_field _ (firstn2_length (skipn 2 h))) as F2.
  destruct (field_ok (firstn 2 (skipn 2 h))) eqn:O2.
  2:{ destruct F2 as [e ->]. rewrite andb_false_r. now exists e. }
  destruct F2 as (g & -> & Rg). rewrite bind_Ok.
  destruct (Nat.ltb_spec (length h) 4) as [L4|L4].
  { replace (5 <=? length h)%nat with false by (symmetry; apply Nat.leb_gt; lia).
    rewrite substr_throw by lia. now exists out_of_range. }
  rewrite (substr_ok h 2 L4), bind_Ok.
  pose proof (stoi16_field _ (firstn2_length (skipn 4 h))) as F3.
  destruct (field_ok (firstn 2 (skipn 4 h))) eqn:O3.
  2:{ destruct F3 as [e ->]. rewrite andb_false_r. now exists e. }
  destruct F3 as (b & -> & Rb). rewrite bind_Ok.
  assert (L5 : (4 < length h)%nat).
  { apply field_ok_nonempty in O3. now apply firstn_skipn_nonempty. }
  replace (5 <=? length h)%nat with true by (symmetry; apply Nat.leb_le; lia).
  exists r, g, b. repeat split; try reflexivity; lia.
Qed.

Lemma hexToRgb_range s r g b :
  hexToRgb s = Ok (r, g, b) ->
  -15 <= r <= 255 /\ -15 <= g <= 255 /\ -15 <= b <= 255.
Proof.
  intros H. pose proof (hexToRgb_spec s) as S.
  destruct (accepted s).
  - destruct S as (r' & g' & b' & E & R). rewrite H in E.
    injection E as <- <- <-. exact R.
  - destruct S as [e E]. congruence.
Qed.

(** C7, as the code has it. [hexToRgb] validates nothing itself: it fails,
    with the [std::invalid_argument] or [std::out_of_range] of [stoi] and
    [substr], exactly on the texts that are not [accepted]: after the
    optional [#] is stripped and a 3-character code is doubled, fewer than
    five characters, or a channel field (characters 1-2, 3-4, 5-6) that
    starts neither with a hexadecimal digit nor with one white space or sign
    followed by a digit.  What follows the sixth character, and what follows
    the first digit of a field, is ignored. *)
Theorem hexToRgb_throws_iff (s : str) :
  throws (hexToRgb s) <-> accepted s = false.
Proof.
  pose proof (hexToRgb_spec s) as S. destruct (accepted s).
  - destruct S as (r & g & b & E & _). split; [|discriminate].
    intros [e E']. congruence.
  - split; [reflexivity|]. intros _. exact S.
Qed.

(** C7 as stated fails: a text with non-hexadecimal characters, and a
    digit part of seven characters, are both converted. *)
Lemma hexToRgb_coerces :
  existsb (fun c => negb (is_xdigit c)) (strip_hash (lit "#1g2g3g")) = true
  /\ hexToRgb (lit "#1g2g3g") = Ok (1, 2, 3)
  /\ length (strip_hash (lit "#1234567")) = 7%nat
  /\ hexToRgb (lit "#1234567") = Ok (18, 52, 86).
Proof. repeat split. Qed.

End HexFacts.

(** ** Text scanning and rewriting *)

Module TextFacts.
Import Text.

Lemma strip_prefix_app (p r : str) : strip_prefix p (p ++ r) = Some r.
Proof.
  induction p as [|a p IH]; simpl; [reflexivity|].
  now rewrite Ascii.eqb_refl.
Qed.

Lemma strip_prefix_Some (p s r : str) :
  strip_prefix p s = Some r -> s = p ++ r.
Proof.
  revert s. induction p as [|a p IH]; intros s H; simpl in H.
  - now injection H as ->.
  - destruct s as [|b s]; [discriminate|].
    destruct (Ascii.eqb_spec a b) as [->|]; [|discriminate].
    simpl. f_equal. now apply IH.
Qed.

Lemma replace_from_skipn (old new : str) (k : nat) (s : str) :
  replace_from old new k s = replace_all old new (skipn k s).
Proof.
  revert k. induction s as [|c t IH]; intros k.
  - now destruct k.
  - destruct k as [|k]; [reflexivity|]. simpl. apply IH.
Qed.

(** At an occurrence the literal is replaced and the scan resumes after it. *)
Lemma replace_all_match (old new r : str) :
  old <> [] ->
  replace_all old new (old ++ r) = new ++ replace_all old new r.
Proof.
  intros N. destruct old as [|c old]; [congruence|].
  unfold replace_all at 1.
  change ((c :: old) ++ r) with (c :: (old ++ r)).
  cbn [replace_from].
  change (c :: old ++ r) with ((c :: old) ++ r).
  rewrite strip_prefix_app. f_equal.
  rewrite replace_from_skipn. f_equal.
  cbn [length]. rewrite Nat.sub_succ, Nat.sub_0_r.
  rewrite skipn_app, skipn_all, Nat.sub_diag. reflexivity.
Qed.

(** Elsewhere the character is kept. *)
Lemma replace_all_keep (old new : str) (c : ascii) (t : str) :
  strip_prefix old (c :: t) = None ->
  replace_all old new (c :: t) = c :: replace_all old new t.
Proof.
  intros H. unfold replace_all. cbn [replace_from]. now rewrite H.
Qed.

Lemma replace_all_nil (old new : str) : replace_all old new [] = [].
Proof. reflexivity. Qed.

(** Induction on the length of a text, for scans that jump over a match. *)
Lemma str_length_ind (P : str -> Prop) :
  (forall s, (forall t, (length t < length s)%nat -> P t) -> P s) ->
  forall s, P s.
Proof.
  intros H s.
  assert (A : forall n t, (length t < n)%nat -> P t).
  { induction n as [|n IH]; intros t L; [lia|].
    apply H. intros u Lu. apply IH. lia. }
  apply (A (S (length s))). lia.
Qed.

(** The two cases of one step of [replace_all]. *)
Lemma replace_all_cases (old new : str) (c : ascii) (t : str) :
  old <> [] ->
  (exists r, c :: t = old ++ r /\ (length r < length (c :: t))%nat
             /\ replace_all old new (c :: t) = new ++ replace_all old new r)
  \/ (strip_prefix old (c :: t) = None
      /\ replace_all old new (c :: t) = c :: replace_all old new t).
Proof.
  intros N. destruct (strip_prefix old (c :: t)) as [r|] eqn:E.
  - left. exists r. apply strip_prefix_Some in E. rewrite E.
    split; [reflexivity|]. split.
    + rewrite length_app. destruct old; [congruence|]. simpl. lia.
    + now apply replace_all_match.
  - right. split; [reflexivity|]. now apply replace_all_keep.
Qed.

End TextFacts.

(** ** SvgNormalizer *)

Module NormalizerFacts.
Import Text TextFacts Normalizer NormalizerSpec.

Lemma tidy_from_weaken s : tidy_from true s = true -> tidy_from false s = true.
Proof.
  destruct s as [|c t]; simpl; [reflexivity|].
  destruct (Hex.isspace c); [|tauto].
  rewrite andb_false_r. discriminate.
Qed.

Lemma collapse_from_tidy b s : tidy_from b (collapse_from b s) = true.
Proof.
  revert b. induction s as [|c t IH]; intros b; simpl; [reflexivity|].
  destruct (Hex.isspace c) eqn:E.
  - destruct b; [apply IH|].
    simpl. apply IH.
  - simpl. rewrite E. apply IH.
Qed.

Lemma collapse_from_fixed b s : tidy_from b s = true -> collapse_from b s = s.
Proof.
  revert b. induction s as [|c t IH]; intros b H; simpl in *; [reflexivity|].
  destruct (Hex.isspace c) eqn:E.
  - apply andb_prop in H. destruct H as [H H3].
    apply andb_prop in H. destruct H as [H1 H2].
    apply Ascii.eqb_eq in H1. subst c.
    destruct b; [discriminate|]. f_equal. now apply IH.
  - f_equal. now apply IH.
Qed.

Lemma squeeze_nil : squeeze [] = [].
Proof. reflexivity. Qed.

Lemma squeeze_cases (c : ascii) (t : str) :
  (exists r, c :: t = lit "> <" ++ r /\ (length r < length (c :: t))%nat
             /\ squeeze (c :: t) = lit "><" ++ squeeze r)
  \/ (strip_prefix (lit "> <") (c :: t) = None
      /\ squeeze (c :: t) = c :: squeeze t).
Proof. apply replace_all_cases. discriminate. Qed.

(** A character other than [>] at the head of the result was at the head of
    the text. *)
Lemma squeeze_head (c : ascii) (s y : str) :
  c <> ">"%char -> squeeze s = c :: y -> exists t, s = c :: t /\ y = squeeze t.
Proof.
  intros N H. destruct s as [|d t]; [discriminate|].
  destruct (squeeze_cases d t) as [(r & E & _ & R)|[_ R]]; rewrite R in H.
  - simpl in H. injection H as H _. congruence.
  - injection H as H1 H2. subst. now exists t.
Qed.

Lemma squeeze_tidy s : forall b, tidy_from b s = true -> tidy_from b (squeeze s) = true.
Proof.
  induction s as [s IH] using str_length_ind. intros b H.
  destruct s as [|c t]; [reflexivity|].
  destruct (squeeze_cases c t) as [(r & E & L & R)|[_ R]]; rewrite R.
  - rewrite E in H. simpl in H. simpl. apply IH; assumption.
  - simpl in *. destruct (Hex.isspace c).
    + apply andb_prop in H. destruct H as [H1 H2]. rewrite H1. simpl.
      apply IH; [lia | assumption].
    + apply IH; [lia | assumption].
Qed.

Lemma squeeze_idempotent s : squeeze (squeeze s) = squeeze s.
Proof.
  induction s as [s IH] using str_length_ind.
  destruct s as [|c t]; [reflexivity|].
  destruct (squeeze_cases c t) as [(r & E & L & R)|[E R]]; rewrite R.
  - change (lit "><" ++ squeeze r) with (">"%char :: "<"%char :: squeeze r).
    destruct (squeeze_cases ">"%char ("<"%char :: squeeze r))
      as [(r' & E' & _)|[_ R']]; [discriminate|].
    rewrite R'. f_equal.
    destruct (squeeze_cases "<"%char (squeeze r))
      as [(r' & E' & _)|[_ R'']]; [discriminate|].
    rewrite R''. f_equal. now apply IH.
  - destruct (squeeze_cases c (squeeze t)) as [(r & E' & _)|[_ R']].
    + exfalso. simpl in E'. injection E' as -> E'.
      apply squeeze_head in E'; [|discriminate].
      destruct E' as (t1 & -> & E').
      symmetry in E'. apply squeeze_head in E'; [|discriminate].
      destruct E' as (t2 & -> & _).
      simpl in E. discriminate.
    + rewrite R'. f_equal. apply IH. simpl. lia.
Qed.

(** C8. For every SVG text [s], a second application of [optimizeSvg]
    changes nothing: [optimizeSvg (optimizeSvg s) = optimizeSvg s]. *)
Theorem optimizeSvg_idempotent (s : str) :
  optimizeSvg (optimizeSvg s) = optimizeSvg s.
Proof.
  unfold optimizeSvg. fold (squeeze (collapse_space s)).
  fold (squeeze (collapse_space (squeeze (collapse_space s)))).
  assert (T : collapse_space (squeeze (collapse_space s))
              = squeeze (collapse_space s)).
  { apply collapse_from_fixed, squeeze_tidy, collapse_from_tidy. }
  rewrite T. apply squeeze_idempotent.
Qed.

End NormalizerFacts.

(** ** IEEE-754 arithmetic *)

Module IEEEFacts.
Import IEEE IEEESpec.

(** *** Rounding to the nearest integer *)

Lemma round_half_even_near (num den : Z) :
  0 < den ->
  let m := round_half_even num den in
  2 * (m * den - num) <= den /\ 2 * (num - m * den) <= den
  /\ (2 * (m * den - num) = den -> Z.even m = true)
  /\ (2 * (num - m * den) = den -> Z.even m = true).
Proof.
  intros D. unfold round_half_even.
  pose proof (Z.div_mod num den ltac:(lia)) as E.
  pose proof (Z.mod_pos_bound num den D) as B.
  set (q := num / den) in *. set (r := num mod den) in *.
  destruct (Z.ltb_spec (2 * r) den) as [L|L]; cbn zeta.
  - repeat split; try nia.
  - destruct (Z.ltb_spec den (2 * r)) as [G|G].
    + repeat split; try nia.
    + destruct (Z.even q) eqn:Ev.
      * repeat split; try nia. intros _. exact Ev.
      * repeat split; try nia. intros _.
        rewrite Z.even_add, Ev. reflexivity.
Qed.

Lemma round_half_even_exact (z den : Z) :
  0 < den -> round_half_even (z * den) den = z.
Proof.
  intros D. unfold round_half_even.
  rewrite Z.div_mul, Z.mod_mul by lia.
  destruct (Z.ltb_spec (2 * 0) den); [reflexivity | lia].
Qed.

Lemma round_half_even_mono (n1 d1 n2 d2 : Z) :
  0 < d1 -> 0 < d2 -> n1 * d2 <= n2 * d1 ->
  round_half_even n1 d1 <= round_half_even n2 d2.
Proof.
  intros D1 D2 L.
  destruct (round_half_even_near n1 D1) as (A1 & _ & T1 & _).
  destruct (round_half_even_near n2 D2) as (_ & A2 & _ & T2).
  set (m1 := round_half_even n1 d1) in *.
  set (m2 := round_half_even n2 d2) in *.
  destruct (Z.le_gt_cases m1 m2) as [|G]; [assumption|exfalso].
  assert (P1 : 2 * (m1 * d1 - n1) * d2 <= d1 * d2) by nia.
  assert (P2 : 2 * (n2 - m2 * d2) * d1 <= d2 * d1) by nia.
  assert (P3 : 1 * (d1 * d2) <= (m1 - m2) * (d1 * d2)) by (apply Z.mul_le_mono_nonneg_r; nia).
  assert (Q : m1 = m2 + 1) by nia.
  assert (Q1 : 2 * (m1 * d1 - n1) = d1) by nia.
  assert (Q2 : 2 * (n2 - m2 * d2) = d2) by nia.
  specialize (T1 Q1). specialize (T2 Q2).
  rewrite Q, Z.even_add, T2 in T1. discriminate.
Qed.

(** *** Rounding to [p] significant bits *)

Section Rounding.
Variable p : Z.
Hypothesis Hp : 1 <= p.

Lemma shift_spec (a : Z) :
  0 <= a ->
  0 <= shift p a /\ a < 2 ^ (p + shift p a)
  /\ (0 < shift p a -> 2 ^ (p - 1 + shift p a) <= a).
Proof.
  intros A. unfold shift.
  destruct (Z.eq_dec a 0) as [->|N].
  - rewrite Z.log2_nonpos by lia.
    rewrite Z.max_l by lia. rewrite Z.add_0_r.
    split; [lia|]. split; [apply Z.pow_pos_nonneg; lia | lia].
  - destruct (Z.log2_spec a ltac:(lia)) as [L U].
    pose proof (Z.log2_nonneg a) as L0.
    destruct (Z.max_spec 0 (Z.log2 a - (p - 1))) as [[C ->]|[C ->]].
    + split; [lia|]. split.
      * replace (p + (Z.log2 a - (p - 1))) with (Z.succ (Z.log2 a)) by lia.
        exact U.
      * intros _. replace (p - 1 + (Z.log2 a - (p - 1))) with (Z.log2 a) by lia.
        exact L.
    + split; [lia|]. split; [|lia].
      rewrite Z.add_0_r. eapply Z.lt_le_trans; [exact U|].
      apply Z.pow_le_mono_r; lia.
Qed.

Lemma shift_mono (a b : Z) : a <= b -> shift p a <= shift p b.
Proof.
  intros L. unfold shift.
  pose proof (Z.log2_le_mono a b L). lia.
Qed.

Lemma div_mono_cross (n1 d1 n2 d2 : Z) :
  0 < d1 -> 0 < d2 -> n1 * d2 <= n2 * d1 -> n1 / d1 <= n2 / d2.
Proof.
  intros D1 D2 L.
  apply Z.div_le_lower_bound; [assumption|].
  pose proof (Z.mul_div_le n1 d1 D1) as Q.
  nia.
Qed.

(** The significand of a rounded non-negative value. *)
Lemma significand_bounds (num den : Z) :
  0 <= num -> 0 < den ->
  let k := shift p (num / den) in
  let m := round_half_even num (den * 2 ^ k) in
  0 <= m <= 2 ^ p /\ (0 < k -> 2 ^ (p - 1) <= m).
Proof.
  intros N D k m.
  assert (A : 0 <= num / den) by (apply Z.div_pos; lia).
  destruct (shift_spec A) as (K0 & U & L). fold k in K0, U, L.
  assert (P2 : 0 < 2 ^ k) by (apply Z.pow_pos_nonneg; lia).
  assert (DK : 0 < den * 2 ^ k) by nia.
  split; [split|].
  - rewrite <- (round_half_even_exact 0 DK). apply round_half_even_mono; nia.
  - rewrite <- (round_half_even_exact (2 ^ p) DK).
    apply round_half_even_mono; try assumption.
    assert (num < 2 ^ (p + k) * den).
    { pose proof (Z.div_mod num den ltac:(lia)).
      pose proof (Z.mod_pos_bound num den D). nia. }
    rewrite Z.pow_add_r in H by lia. nia.
  - intros Kp. specialize (L Kp).
    rewrite <- (round_half_even_exact (2 ^ (p - 1)) DK).
    apply round_half_even_mono; try assumption.
    assert (2 ^ (p - 1 + k) * den <= num).
    { pose proof (Z.mul_div_le num den D). nia. }
    rewrite Z.pow_add_r in H by lia. nia.
Qed.

Lemma rndz_nonneg (num den : Z) : 0 <= num -> 0 < den -> 0 <= rndz p num den.
Proof.
  intros N D. unfold rndz. rewrite Z.abs_eq by assumption.
  destruct (significand_bounds N D) as ([M _] & _).
  assert (A : 0 <= num / den) by (apply Z.div_pos; lia).
  destruct (shift_spec A) as (K0 & _).
  pose proof (Z.pow_pos_nonneg 2 (shift p (num / den)) ltac:(lia) K0). nia.
Qed.

(** Rounding is monotone. *)
Lemma rndz_mono (n1 d1 n2 d2 : Z) :
  0 <= n1 -> 0 < d1 -> 0 < d2 -> n1 * d2 <= n2 * d1 ->
  rndz p n1 d1 <= rndz p n2 d2.
Proof.
  intros N1 D1 D2 L.
  assert (N2 : 0 <= n2) by nia.
  unfold rndz. rewrite !Z.abs_eq by assumption.
  pose proof (div_mono_cross n1 n2 D1 D2 L) as Q.
  pose proof (shift_mono Q) as KK.
  destruct (significand_bounds N1 D1) as ([_ M1] & _).
  destruct (significand_bounds N2 D2) as ([M2 _] & M2').
  assert (A1 : 0 <= n1 / d1) by (apply Z.div_pos; lia).
  assert (A2 : 0 <= n2 / d2) by (apply Z.div_pos; lia).
  destruct (shift_spec A1) as (K1 & _).
  destruct (shift_spec A2) as (K2 & _).
  set (k1 := shift p (n1 / d1)) in *. set (k2 := shift p (n2 / d2)) in *.
  set (m1 := round_half_even n1 (d1 * 2 ^ k1)) in *.
  set (m2 := round_half_even n2 (d2 * 2 ^ k2)) in *.
  assert (P1 : 0 < 2 ^ k1) by (apply Z.pow_pos_nonneg; lia).
  destruct (Z.eq_dec k1 k2) as [E|NE].
  - subst m1 m2. rewrite <- E.
    apply Z.mul_le_mono_nonneg_r; [lia|].
    apply round_half_even_mono; nia.
  - assert (G : 0 < k2) by lia. specialize (M2' G).
    apply Z.le_trans with (2 ^ p * 2 ^ k1); [nia|].
    apply Z.le_trans with (2 ^ (p - 1) * 2 ^ k2).
    + rewrite <- !Z.pow_add_r by lia. apply Z.pow_le_mono_r; lia.
    + assert (0 < 2 ^ k2) by (apply Z.pow_pos_nonneg; lia). nia.
Qed.

(** A value that fits is left as it is. *)
Lemma rndz_fits (n : Z) : fits p n -> rndz p n 1 = n.
Proof.
  intros (m & j & -> & M & J).
  assert (PJ : 0 < 2 ^ j) by (apply Z.pow_pos_nonneg; lia).
  unfold rndz. rewrite Z.div_1_r, Z.mul_1_l.
  rewrite Z.abs_mul, (Z.abs_eq (2 ^ j)) by lia.
  assert (N : 0 <= Z.abs m * 2 ^ j) by nia.
  destruct (shift_spec N) as (K0 & U & L).
  set (k := shift p (Z.abs m * 2 ^ j)) in *.
  assert (PK : 0 < 2 ^ k) by (apply Z.pow_pos_nonneg; lia).
  destruct (Z.le_gt_cases k j) as [C|C].
  - replace (m * 2 ^ j) with ((m * 2 ^ (j - k)) * 2 ^ k).
    + now rewrite round_half_even_exact.
    + rewrite <- Z.mul_assoc, <- Z.pow_add_r by lia. do 2 f_equal. lia.
  - exfalso. assert (G : 0 < k) by lia. specialize (L G).
    assert (Z.abs m * 2 ^ j < 2 ^ p * 2 ^ j) by nia.
    rewrite <- Z.pow_add_r in H by lia.
    assert (2 ^ (p + j) <= 2 ^ (p - 1 + k)) by (apply Z.pow_le_mono_r; lia).
    lia.
Qed.

(** A rounded value fits. *)
Lemma rndz_is_fit (num den : Z) :
  0 <= num -> 0 < den -> fits p (rndz p num den).
Proof.
  intros N D. unfold rndz. rewrite Z.abs_eq by assumption.
  destruct (significand_bounds N D) as ([M0 M1] & _).
  assert (A : 0 <= num / den) by (apply Z.div_pos; lia).
  destruct (shift_spec A) as (K0 & _).
  set (k := shift p (num / den)) in *.
  set (m := round_half_even num (den * 2 ^ k)) in *.
  destruct (Z.eq_dec m (2 ^ p)) as [E|NE].
  - exists (2 ^ (p - 1)), (k + 1). split; [|split]; try lia.
    + rewrite E, <- !Z.pow_add_r by lia. f_equal. lia.
    + rewrite Z.abs_eq by (apply Z.pow_nonneg; lia).
      apply Z.pow_lt_mono_r; lia.
  - exists m, k. split; [reflexivity|]. split; lia.
Qed.

(** The rounding error is at most half of the last kept bit. *)
Lemma rndz_error (num den : Z) :
  0 <= num -> 0 < den ->
  let k := shift p (num / den) in
  2 * (rndz p num den * den - num) <= den * 2 ^ k
  /\ 2 * (num - rndz p num den * den) <= den * 2 ^ k.
Proof.
  intros N D k. unfold rndz. rewrite Z.abs_eq by assumption. fold k.
  assert (A : 0 <= num / den) by (apply Z.div_pos; lia).
  destruct (shift_spec A) as (K0 & _). fold k in K0.
  assert (PK : 0 < 2 ^ k) by (apply Z.pow_pos_nonneg; lia).
  assert (DK : 0 < den * 2 ^ k) by nia.
  destruct (round_half_even_near num DK) as (E1 & E2 & _).
  split; nia.
Qed.

Lemma round_half_even_scale (n g d : Z) :
  0 < g -> 0 < d -> round_half_even (n * d) (d * g) = round_half_even n g.
Proof.
  intros G D. unfold round_half_even.
  rewrite (Z.mul_comm n d), Z.div_mul_cancel_l, Z.mul_mod_distr_l by lia.
  destruct (Z.ltb_spec (2 * (d * (n mod g))) (d * g)),
           (Z.ltb_spec (2 * (n mod g)) g); try nia; try reflexivity.
  destruct (Z.ltb_spec (d * g) (2 * (d * (n mod g)))),
           (Z.ltb_spec g (2 * (n mod g))); try nia; reflexivity.
Qed.

(** A common factor of the fraction does not matter. *)
Lemma rndz_scale (n d : Z) : 0 < d -> rndz p (n * d) d = rndz p n 1.
Proof.
  intros D. unfold rndz.
  rewrite Z.abs_mul, (Z.abs_eq d), Z.div_mul, Z.div_1_r, Z.mul_1_l by lia.
  set (k := shift p (Z.abs n)).
  assert (PK : 0 < 2 ^ k).
  { apply Z.pow_pos_nonneg; [lia|]. unfold k, shift. lia. }
  now rewrite round_half_even_scale.
Qed.

End Rounding.

(** *** Rounding in a format *)

Lemma rnd_unfold (fmt : format) (num den : Z) :
  rnd fmt num den =
  let n := rndz (prec fmt) num den in
  if largest fmt <? n then PInf
  else if n <? - largest fmt then NInf
  else Fin n.
Proof. reflexivity. Qed.

Lemma rnd_finite (fmt : format) (num den : Z) :
  - largest fmt <= rndz (prec fmt) num den <= largest fmt ->
  rnd fmt num den = Fin (rndz (prec fmt) num den).
Proof.
  intros [L U]. rewrite rnd_unfold. cbn zeta.
  destruct (Z.ltb_spec (largest fmt) (rndz (prec fmt) num den)); [lia|].
  destruct (Z.ltb_spec (rndz (prec fmt) num den) (- largest fmt)); [lia|].
  reflexivity.
Qed.

(** *** Agreement with the standard library's IEEE specification *)

Example binary32_agrees :
  IEEECheck.agree_on binary32
    (IEEECheck.samples binary32 ++ IEEECheck.subnormal32) = true.
Proof. vm_compute. reflexivity. Qed.

Example binary64_agrees :
  IEEECheck.agree_on binary64 IEEECheck.samples64 = true.
Proof. vm_compute. reflexivity. Qed.

End IEEEFacts.

(** ** ColorMath: compositing *)

Module ColorMathFacts.
Import IEEE IEEESpec IEEEFacts ColorMath ColorMathSpec.

Lemma prec32 : 1 <= 24.
Proof. lia. Qed.

Lemma rnd32_unfold (num den : Z) :
  rnd f32 num den =
  let n := rndz 24 num den in
  if largest f32 <? n then PInf
  else if n <? - largest f32 then NInf
  else Fin n.
Proof. reflexivity. Qed.

Lemma unit32_fits : fits 24 unit32.
Proof. exists 1, 149. split; [reflexivity|]. split; [reflexivity | lia]. Qed.

Lemma zero_fits p : 1 <= p -> fits p 0.
Proof.
  intros P. exists 0, 0. split; [reflexivity|]. split; [|lia].
  apply Z.pow_pos_nonneg; lia.
Qed.

(** Rounding stays in the unit interval and yields a finite value there. *)
Lemma rnd32_unit (num den : Z) :
  0 <= num -> 0 < den -> num <= unit32 * den ->
  rnd f32 num den = Fin (rndz 24 num den) /\ 0 <= rndz 24 num den <= unit32.
Proof.
  intros N D L.
  assert (B : 0 <= rndz 24 num den <= unit32).
  { split; [now apply rndz_nonneg|].
    rewrite <- (rndz_fits prec32 unit32_fits).
    apply rndz_mono; lia. }
  split; [|exact B].
  rewrite rnd32_unfold. cbn zeta.
  assert (U : unit32 <= largest f32) by (vm_compute; discriminate).
  destruct (Z.ltb_spec (largest f32) (rndz 24 num den)); [lia|].
  assert (G : 0 <= largest f32) by (vm_compute; discriminate).
  destruct (Z.ltb_spec (rndz 24 num den) (- largest f32)); [lia|reflexivity].
Qed.

(** Below 1.0 a rounding moves a value by at most [2^-25]. *)
Lemma rndz32_near (n : Z) :
  0 <= n <= unit32 ->
  n - half_ulp32 <= rndz 24 n 1 <= n + half_ulp32.
Proof.
  intros [N0 N1].
  destruct (Z.eq_dec n unit32) as [->|NE].
  - rewrite (rndz_fits prec32 unit32_fits). unfold half_ulp32. lia.
  - destruct (rndz_error prec32 N0 Z.lt_0_1) as [E1 E2].
    rewrite Z.div_1_r in E1, E2.
    assert (K : shift 24 n <= 125).
    { change 125 with (shift 24 (unit32 - 1)). apply shift_mono. lia. }
    assert (P : 2 ^ shift 24 n <= 2 ^ 125).
    { apply Z.pow_le_mono_r; [lia | exact K]. }
    change (2 ^ 125) with (2 * half_ulp32) in P. lia.
Qed.

Lemma sub_one_unfold (n : Z) :
  sub f32 (of_int f32 1) (Fin n) = rnd f32 (unit32 - n) 1.
Proof. reflexivity. Qed.

(** A [float] in [0.5, 1] is a multiple of [2^-24]. *)
Lemma fits_upper_half (n : Z) :
  fits 24 n -> 2 ^ 148 <= n -> exists k, n = k * 2 ^ 125.
Proof.
  intros (m & j & -> & M & J) L.
  assert (PJ : 0 < 2 ^ j) by (apply Z.pow_pos_nonneg; lia).
  assert (M0 : 0 < m) by nia.
  rewrite Z.abs_eq in M by lia.
  destruct (Z.le_gt_cases 125 j) as [C|C].
  - exists (m * 2 ^ (j - 125)).
    rewrite <- Z.mul_assoc, <- Z.pow_add_r by lia. do 2 f_equal. lia.
  - exfalso.
    assert (2 ^ j <= 2 ^ 124) by (apply Z.pow_le_mono_r; lia).
    assert (m * 2 ^ j < 2 ^ 24 * 2 ^ 124) by nia.
    change (2 ^ 24 * 2 ^ 124) with (2 ^ 148) in *. lia.
Qed.

(** A multiple of [2^-24] in [0, 1] is a [float]. *)
Lemma multiple_fits (k : Z) : 0 <= k <= 2 ^ 24 -> fits 24 (k * 2 ^ 125).
Proof.
  intros [K0 K1]. destruct (Z.eq_dec k (2 ^ 24)) as [->|N].
  - exists 1, 149. split; [reflexivity|]. split; [reflexivity | lia].
  - exists k, 125. split; [reflexivity|]. split; [|lia].
    rewrite Z.abs_eq by lia. lia.
Qed.

Lemma representable_fits (n : Z) :
  0 <= n -> representable f32 n = true -> fits 24 n.
Proof.
  intros N R. unfold representable in R. rewrite rnd32_unfold in R.
  cbn zeta in R.
  destruct (largest f32 <? rndz 24 n 1); [discriminate|].
  destruct (rndz 24 n 1 <? - largest f32); [discriminate|].
  apply Z.eqb_eq in R. rewrite <- R.
  apply (rndz_is_fit prec32); lia.
Qed.

(** The difference [1 - x] of a [float] [x] in [0.5, 1] is exact. *)
Lemma one_minus_exact (x : Z) :
  fits 24 x -> 2 ^ 148 <= x <= unit32 -> rndz 24 (unit32 - x) 1 = unit32 - x.
Proof.
  intros F [L U]. destruct (fits_upper_half F L) as [k ->].
  apply (rndz_fits prec32).
  replace (unit32 - k * 2 ^ 125) with ((2 ^ 24 - k) * 2 ^ 125)
    by (change unit32 with (2 ^ 24 * 2 ^ 125); ring).
  change unit32 with (2 ^ 24 * 2 ^ 125) in U.
  apply multiple_fits. nia.
Qed.

(** The composite is at least either argument less [2^-25]. *)
Lemma composite_lower (na q : Z) :
  0 <= na <= unit32 -> fits 24 na ->
  0 <= q -> q <= rndz 24 (unit32 - na) 1 ->
  na - half_ulp32 <= rndz 24 (unit32 - q) 1.
Proof.
  intros Ha Fa Q0 Qx.
  set (x := rndz 24 (unit32 - na) 1) in *.
  assert (Fx : fits 24 x) by (unfold x; apply (rndz_is_fit prec32); lia).
  destruct (rnd32_unit (num := unit32 - na) (den := 1)) as [_ Bx]; try lia.
  fold x in Bx.
  assert (Mono : rndz 24 (unit32 - x) 1 <= rndz 24 (unit32 - q) 1).
  { apply rndz_mono; lia. }
  assert (Half : fits 24 (2 ^ 148)).
  { exists 1, 148. split; [reflexivity|]. split; [reflexivity | lia]. }
  destruct (Z.le_gt_cases (2 ^ 148) na) as [C|C].
  - (* [1 - a] is exact, and so is [1 - (1 - a)] *)
    assert (Ex : x = unit32 - na) by (apply one_minus_exact; [assumption | lia]).
    rewrite Ex in Mono.
    replace (unit32 - (unit32 - na)) with na in Mono by ring.
    rewrite (rndz_fits prec32 Fa) in Mono. unfold half_ulp32. lia.
  - (* [1 - a] is above one half, and [1 - x] is exact *)
    assert (Lx : 2 ^ 148 <= x).
    { rewrite <- (rndz_fits prec32 Half). unfold x.
      assert (unit32 = 2 * 2 ^ 148) by reflexivity.
      apply rndz_mono; lia. }
    rewrite (one_minus_exact Fx) in Mono by lia.
    pose proof (rndz32_near (n := unit32 - na) ltac:(lia)) as Ex. fold x in Ex.
    lia.
Qed.

(** C9, as the code has it.  For [float] opacities [a] and [b] in [0,1],
    [combineOpacity a b] lies in [0,1] and is at least [max a b - 2^-24]:
    the exact composite is at least [max a b], and the two roundings of the
    subtractions can each lose [2^-25]. *)
Theorem combineOpacity_range (na nb : Z) :
  0 <= na <= unit32 -> 0 <= nb <= unit32 ->
  exists r, combineOpacity (Fin na) (Fin nb) = Fin r
    /\ 0 <= r <= unit32
    /\ Z.max na nb - 2 * half_ulp32 <= r.
Proof.
  intros Ha Hb. unfold combineOpacity.
  rewrite !sub_one_unfold.
  destruct (rnd32_unit (num := unit32 - na) (den := 1)) as [-> Bx]; try lia.
  destruct (rnd32_unit (num := unit32 - nb) (den := 1)) as [-> By]; try lia.
  set (x := rndz 24 (unit32 - na) 1) in *.
  set (y := rndz 24 (unit32 - nb) 1) in *.
  assert (U0 : 0 < unit32) by (vm_compute; reflexivity).
  change (mul f32 (Fin x) (Fin y)) with (rnd f32 (x * y) unit32).
  destruct (rnd32_unit (num := x * y) (den := unit32)) as [-> Bq]; try nia.
  set (q := rndz 24 (x * y) unit32) in *.
  rewrite sub_one_unfold.
  destruct (rnd32_unit (num := unit32 - q) (den := 1)) as [-> Br]; try lia.
  eexists. split; [reflexivity|]. split; [exact Br|].
  (* the product is at most either factor *)
  assert (Fx : fits 24 x) by (unfold x; apply (rndz_is_fit prec32); lia).
  assert (Fy : fits 24 y) by (unfold y; apply (rndz_is_fit prec32); lia).
  assert (Qx : q <= x).
  { rewrite <- (rndz_fits prec32 Fx). unfold q. apply rndz_mono; nia. }
  assert (Qy : q <= y).
  { rewrite <- (rndz_fits prec32 Fy). unfold q. apply rndz_mono; nia. }
  pose proof (rndz32_near (n := unit32 - na) ltac:(lia)) as Ex. fold x in Ex.
  pose proof (rndz32_near (n := unit32 - nb) ltac:(lia)) as Ey. fold y in Ey.
  pose proof (rndz32_near (n := unit32 - q) ltac:(lia)) as Er.
  lia.
Qed.

Lemma combineOpacity_range_witness :
  exists r, combineOpacity (Fin (2 ^ 148)) (Fin (2 ^ 147)) = Fin r
    /\ 0 <= r <= unit32
    /\ Z.max (2 ^ 148) (2 ^ 147) - 2 * half_ulp32 <= r.
Proof.
  apply combineOpacity_range; split; vm_compute; discriminate.
Defined.

(** C9 as stated fails: for the [float] [a = 2^-30] and [b = 0] the
    difference [1 - a] rounds to [1], and the composite is [0], below [a]. *)
Lemma combineOpacity_below_max :
  representable f32 (2 ^ 119) = true
  /\ 0 <= 2 ^ 119 <= unit32
  /\ combineOpacity (Fin (2 ^ 119)) (Fin 0) = Fin 0
  /\ ltb (Fin 0) (Fin (Z.max (2 ^ 119) 0)) = true.
Proof.
  split; [vm_compute; reflexivity|].
  split; [split; vm_compute; discriminate|].
  split; vm_compute; reflexivity.
Qed.

(** *** The sharp bound *)

(** For [float] opacities [a] and [b] in [0,1] the composite is at least
    [max a b - 2^-25]: of the roundings of [1 - a] and of the last
    subtraction only one is inexact. *)
Theorem combineOpacity_lower_bound (na nb : Z) :
  representable f32 na = true -> representable f32 nb = true ->
  0 <= na <= unit32 -> 0 <= nb <= unit32 ->
  exists r, combineOpacity (Fin na) (Fin nb) = Fin r
    /\ 0 <= r <= unit32
    /\ Z.max na nb - half_ulp32 <= r.
Proof.
  intros Ra Rb Ha Hb. unfold combineOpacity.
  pose proof (@representable_fits na (proj1 Ha) Ra) as Fa.
  pose proof (@representable_fits nb (proj1 Hb) Rb) as Fb.
  rewrite !sub_one_unfold.
  destruct (rnd32_unit (num := unit32 - na) (den := 1)) as [-> Bx]; try lia.
  destruct (rnd32_unit (num := unit32 - nb) (den := 1)) as [-> By]; try lia.
  set (x := rndz 24 (unit32 - na) 1) in *.
  set (y := rndz 24 (unit32 - nb) 1) in *.
  assert (U0 : 0 < unit32) by (vm_compute; reflexivity).
  change (mul f32 (Fin x) (Fin y)) with (rnd f32 (x * y) unit32).
  destruct (rnd32_unit (num := x * y) (den := unit32)) as [-> Bq]; try nia.
  set (q := rndz 24 (x * y) unit32) in *.
  rewrite sub_one_unfold.
  destruct (rnd32_unit (num := unit32 - q) (den := 1)) as [-> Br]; try lia.
  eexists. split; [reflexivity|]. split; [exact Br|].
  (* the product is at most either factor *)
  assert (Fx : fits 24 x) by (unfold x; apply (rndz_is_fit prec32); lia).
  assert (Fy : fits 24 y) by (unfold y; apply (rndz_is_fit prec32); lia).
  assert (Qx : q <= x).
  { rewrite <- (rndz_fits prec32 Fx). unfold q. apply rndz_mono; nia. }
  assert (Qy : q <= y).
  { rewrite <- (rndz_fits prec32 Fy). unfold q. apply rndz_mono; nia. }
  pose proof (composite_lower Ha Fa (proj1 Bq) Qx) as La.
  pose proof (composite_lower Hb Fb (proj1 Bq) Qy) as Lb.
  lia.
Qed.

Lemma combineOpacity_lower_bound_witness :
  exists r, combineOpacity (Fin (2 ^ 148)) (Fin (2 ^ 147)) = Fin r
    /\ 0 <= r <= unit32
    /\ Z.max (2 ^ 148) (2 ^ 147) - half_ulp32 <= r.
Proof.
  apply combineOpacity_lower_bound;
    try (vm_compute; reflexivity); split; vm_compute; discriminate.
Defined.

(** The bound is attained: for [a = 2^-25] the composite with [0] is [0]. *)
Example combineOpacity_bound_attained :
  representable f32 half_ulp32 = true
  /\ combineOpacity (Fin half_ulp32) (Fin 0) = Fin (half_ulp32 - half_ulp32).
Proof. split; vm_compute; reflexivity. Qed.

End ColorMathFacts.

(** ** ColorMapper *)

Module MapperFacts.
Import IEEE IEEESpec IEEEFacts ColorMapper MapperSpec.

Lemma prec64 : 1 <= 53.
Proof. lia. Qed.

Lemma unit64_grid : unit64 = 2 ^ 20 * grid64.
Proof. vm_compute. reflexivity. Qed.

Lemma grid64_pos : 0 < grid64.
Proof. vm_compute. reflexivity. Qed.

Lemma largest64_grid : 2 ^ 80 * grid64 <= largest f64.
Proof. vm_compute. discriminate. Qed.

(** An integer below [2^53] is a [double]. *)
Lemma rnd64_int (z : Z) :
  Z.abs z < 2 ^ 53 -> rnd f64 (z * unit64) 1 = Fin (z * unit64).
Proof.
  intros A.
  assert (F : fits 53 (z * unit64)).
  { exists z, 1074. split; [reflexivity|]. split; [exact A | lia]. }
  pose proof (rndz_fits prec64 F) as E.
  rewrite rnd_finite; change (prec f64) with 53; rewrite E; [reflexivity|].
  pose proof largest64_grid. pose proof grid64_pos.
  apply Z.abs_lt in A. rewrite unit64_grid. nia.
Qed.

Lemma of_int64 (z : Z) : Z.abs z < 2 ^ 53 -> of_int f64 z = Fin (z * unit64).
Proof. apply rnd64_int. Qed.

Lemma pow2_exact (d : Z) : Z.abs d <= 270 -> pow2 d = Fin (d * d * unit64).
Proof.
  intros A. unfold pow2. rewrite of_int64 by lia.
  change (mul f64 (Fin (d * unit64)) (Fin (d * unit64)))
    with (rnd f64 (d * unit64 * (d * unit64)) unit64).
  assert (U : 0 < unit64) by (vm_compute; reflexivity).
  rewrite rnd_unfold.
  replace (d * unit64 * (d * unit64)) with (d * d * unit64 * unit64) by ring.
  rewrite (rndz_scale (prec f64) (d * d * unit64) U).
  rewrite <- rnd_unfold. apply rnd64_int.
  apply Z.abs_le in A. apply Z.abs_lt. nia.
Qed.

Lemma add64_int (a b : Z) :
  Z.abs (a + b) < 2 ^ 53 ->
  add f64 (Fin (a * unit64)) (Fin (b * unit64)) = Fin ((a + b) * unit64).
Proof.
  intros A.
  change (add f64 (Fin (a * unit64)) (Fin (b * unit64)))
    with (rnd f64 (a * unit64 + b * unit64) 1).
  rewrite <- Z.mul_add_distr_r. now apply rnd64_int.
Qed.

(** The root of a squared distance lies between two neighbours of the
    grid of step [2^-20]. *)
Lemma root64_between (n : Z) :
  0 <= n <= max_sqdist ->
  let s := Z.sqrt (n * unit64 * unit64) in
  s / grid64 * grid64 <= root64 n <= (s / grid64 + 1) * grid64
  /\ s < 2 ^ 29 * grid64.
Proof.
  intros [N0 N1] s.
  pose proof grid64_pos as G.
  assert (NN : 0 <= n * unit64 * unit64).
  { rewrite unit64_grid. nia. }
  destruct (Z.sqrt_spec _ NN) as [S1 S2]. fold s in S1, S2.
  assert (S0 : 0 <= s) by apply Z.sqrt_nonneg.
  assert (SB : s < 2 ^ 29 * grid64).
  { unfold max_sqdist in N1. rewrite unit64_grid in S1.
    destruct (Z.lt_ge_cases s (2 ^ 29 * grid64)) as [|C]; [assumption|exfalso].
    assert (2 ^ 29 * grid64 * (2 ^ 29 * grid64) <= s * s) by nia.
    assert (n * (2 ^ 20 * grid64) * (2 ^ 20 * grid64)
            <= 218700 * (2 ^ 20 * grid64) * (2 ^ 20 * grid64)).
    { repeat apply Z.mul_le_mono_nonneg_r; lia. }
    nia. }
  split; [|exact SB].
  pose proof (Z.mul_div_le s grid64 G) as Q1.
  pose proof (Z.mod_pos_bound s grid64 G) as Q2.
  pose proof (Z.div_mod s grid64 ltac:(lia)) as Q3.
  assert (Q0 : 0 <= s / grid64) by (apply Z.div_pos; lia).
  assert (QB : s / grid64 < 2 ^ 29).
  { apply Z.div_lt_upper_bound; lia. }
  assert (Flo : fits 53 (s / grid64 * grid64)).
  { exists (s / grid64), 1054. split; [reflexivity|]. split; [|lia].
    rewrite Z.abs_eq by lia. lia. }
  assert (Fhi : fits 53 ((s / grid64 + 1) * grid64)).
  { exists (s / grid64 + 1), 1054. split; [reflexivity|]. split; [|lia].
    rewrite Z.abs_eq by lia. lia. }
  unfold root64. change (one binary64) with unit64. fold s.
  destruct (s * s =? n * unit64 * unit64).
  - split.
    + rewrite <- (rndz_fits prec64 Flo) at 1. apply rndz_mono; nia.
    + rewrite <- (rndz_fits prec64 Fhi). apply rndz_mono; nia.
  - split.
    + rewrite <- (rndz_fits prec64 Flo) at 1. apply rndz_mono; nia.
    + rewrite <- (rndz_fits prec64 Fhi). apply rndz_mono; nia.
Qed.

(** On squared distances the [double] square root is strictly
    increasing: two of them are never confused. *)
Lemma root64_lt (a b : Z) :
  0 <= a -> a < b -> b <= max_sqdist -> root64 a < root64 b.
Proof.
  intros A0 AB B1.
  pose proof grid64_pos as G.
  destruct (root64_between (n := a) ltac:(lia)) as ([_ Ha] & Sa).
  destruct (root64_between (n := b) ltac:(lia)) as ([Hb _] & Sb).
  cbn zeta in *.
  set (sa := Z.sqrt (a * unit64 * unit64)) in *.
  set (sb := Z.sqrt (b * unit64 * unit64)) in *.
  assert (NA : 0 <= a * unit64 * unit64) by (rewrite unit64_grid; nia).
  assert (NB : 0 <= b * unit64 * unit64) by (rewrite unit64_grid; nia).
  destruct (Z.sqrt_spec _ NA) as [A1 A2]. fold sa in A1, A2.
  destruct (Z.sqrt_spec _ NB) as [B2 B3]. fold sb in B2, B3.
  assert (S0 : 0 <= sa) by apply Z.sqrt_nonneg.
  assert (Far : sa + 2 * grid64 <= sb).
  { destruct (Z.le_gt_cases (sa + 2 * grid64) sb) as [|C]; [assumption|exfalso].
    assert (C1 : Z.succ sb * Z.succ sb <= (sa + 2 * grid64) * (sa + 2 * grid64)).
    { apply Z.mul_le_mono_nonneg; lia. }
    assert (C2 : (b - a) * (unit64 * unit64) < 4 * grid64 * sa + 4 * grid64 * grid64) by nia.
    assert (C3 : 1 * (unit64 * unit64) <= (b - a) * (unit64 * unit64)).
    { apply Z.mul_le_mono_nonneg_r; [rewrite unit64_grid; nia | lia]. }
    rewrite unit64_grid in C2, C3. nia. }
  assert (Q : sa / grid64 + 2 <= sb / grid64).
  { replace (sa / grid64 + 2) with ((sa + 2 * grid64) / grid64)
      by (rewrite Z.div_add by lia; reflexivity).
    apply Z.div_le_mono; lia. }
  nia.
Qed.

Lemma root64_lt_iff (a b : Z) :
  0 <= a <= max_sqdist -> 0 <= b <= max_sqdist ->
  (root64 a <? root64 b) = (a <? b).
Proof.
  intros A B.
  destruct (Z.ltb_spec a b) as [L|L].
  - apply Z.ltb_lt. apply root64_lt; lia.
  - apply Z.ltb_ge. destruct (Z.eq_dec a b) as [->|N]; [lia|].
    apply Z.lt_le_incl. apply root64_lt; lia.
Qed.

(** The square root of an integer [double]. *)
Lemma sqrt64_int (n : Z) :
  0 <= n <= max_sqdist ->
  sqrt f64 (Fin (n * unit64)) = Fin (root64 n)
  /\ 0 <= root64 n < largest f64.
Proof.
  intros N.
  destruct (root64_between N) as ([Lo Hi] & SB). cbn zeta in *.
  set (s := Z.sqrt (n * unit64 * unit64)) in *.
  pose proof grid64_pos as G. pose proof largest64_grid as LG.
  assert (S0 : 0 <= s) by apply Z.sqrt_nonneg.
  assert (Q0 : 0 <= s / grid64) by (apply Z.div_pos; lia).
  assert (QB : s / grid64 < 2 ^ 29) by (apply Z.div_lt_upper_bound; lia).
  assert (R : 0 <= root64 n < largest f64) by nia.
  split; [|exact R].
  assert (U : 0 < unit64) by (vm_compute; reflexivity).
  unfold sqrt.
  destruct (Z.ltb_spec (n * unit64) 0) as [C|_]; [nia|].
  change (one f64) with unit64. cbn zeta. fold s.
  unfold root64 in *. change (one binary64) with unit64 in *.
  fold s in R |- *.
  destruct (s * s =? n * unit64 * unit64);
    (rewrite rnd_finite; change (prec f64) with 53; [reflexivity | lia]).
Qed.

Lemma accepted_rgb_of (c : str) :
  HexSpec.accepted c = true ->
  Hex.hexToRgb c = Ok (rgb_of c) /\ in_range (rgb_of c).
Proof.
  intros A. pose proof (HexFacts.hexToRgb_spec c) as S. rewrite A in S.
  destruct S as (r & g & b & E & R). unfold rgb_of. rewrite E.
  split; [reflexivity | exact R].
Qed.

Lemma sqdist_range (t c : Z * Z * Z) :
  in_range t -> in_range c -> 0 <= sqdist t c <= max_sqdist.
Proof.
  destruct t as [[tr tg] tb], c as [[cr cg] cb]. unfold in_range, sqdist, max_sqdist.
  intros (R1 & R2 & R3) (C1 & C2 & C3).
  assert (forall d, -270 <= d <= 270 -> 0 <= d * d <= 270 * 270) as Q by (intros; nia).
  pose proof (Q (tr - cr) ltac:(lia)).
  pose proof (Q (tg - cg) ltac:(lia)).
  pose proof (Q (tb - cb) ltac:(lia)).
  lia.
Qed.

(** The distance of the loop body is the root of the squared distance. *)
Lemma distance_root (t c : Z * Z * Z) :
  in_range t -> in_range c -> distance t c = Fin (root64 (sqdist t c)).
Proof.
  intros Rt Rc. pose proof (sqdist_range t c Rt Rc) as SR.
  destruct t as [[tr tg] tb], c as [[cr cg] cb].
  unfold in_range, sqdist, max_sqdist in *.
  destruct Rt as (R1 & R2 & R3), Rc as (C1 & C2 & C3).
  assert (forall d, -270 <= d <= 270 -> 0 <= d * d <= 270 * 270) as Q by (intros; nia).
  pose proof (Q (tr - cr) ltac:(lia)).
  pose proof (Q (tg - cg) ltac:(lia)).
  pose proof (Q (tb - cb) ltac:(lia)).
  unfold distance.
  rewrite !pow2_exact by (apply Z.abs_le; lia).
  rewrite !add64_int by (apply Z.abs_lt; lia).
  apply sqrt64_int. unfold max_sqdist. lia.
Qed.

Lemma first_nearest_In t l c : first_nearest t l c -> In c l.
Proof.
  intros (pre & post & -> & _). apply in_or_app. right. now left.
Qed.

Lemma nearest_loop_spec (t : Z * Z * Z) (l : list str) :
  in_range t -> Forall ok l ->
  forall seen minDistance nearest,
    Forall ok seen -> loop_inv t seen minDistance nearest ->
    exists c, nearest_loop t minDistance nearest l = Ok c
      /\ ((seen ++ l = [] /\ c = nearest) \/ first_nearest t (seen ++ l) c).
Proof.
  intros Rt. induction l as [|c rest IH]; intros Hl seen minD nearest Hs Inv.
  - exists nearest. split; [reflexivity|]. rewrite app_nil_r.
    destruct Inv as [[-> _]|[F _]]; [left; now split | now right].
  - apply Forall_cons_iff in Hl. destruct Hl as [Hc Hrest].
    destruct (accepted_rgb_of c Hc) as [Ec Rc].
    cbn [nearest_loop]. rewrite Ec, bind_Ok.
    rewrite (distance_root t (rgb_of c) Rt Rc).
    pose proof (sqdist_range t (rgb_of c) Rt Rc) as Dc.
    assert (Hs' : Forall ok (seen ++ [c])).
    { apply Forall_app. split; [assumption | now constructor]. }
    replace (seen ++ c :: rest) with ((seen ++ [c]) ++ rest)
      by (rewrite <- app_assoc; reflexivity).
    (* it is enough to restore the invariant for the next round *)
    assert (Next : forall minD' nearest',
      loop_inv t (seen ++ [c]) minD' nearest' ->
      exists c0, nearest_loop t minD' nearest' rest = Ok c0
        /\ (((seen ++ [c]) ++ rest = [] /\ c0 = nearest)
            \/ first_nearest t ((seen ++ [c]) ++ rest) c0)).
    { intros minD' nearest' Inv'.
      destruct (IH Hrest (seen ++ [c]) minD' nearest' Hs' Inv')
        as (c0 & E0 & [[N _]|F]).
      - destruct seen; discriminate.
      - exists c0. split; [exact E0 | now right]. }
    destruct Inv as [[-> ->]|[F ->]].
    + (* the first candidate is below DBL_MAX *)
      destruct (sqrt64_int Dc) as [_ B].
      unfold DBL_MAX. cbn [ltb].
      replace (root64 (sqdist t (rgb_of c)) <? largest f64) with true
        by (symmetry; apply Z.ltb_lt; lia).
      apply Next. right. split; [|reflexivity].
      exists [], []. split; [reflexivity|]. split.
      * intros c' [<-|[]]. lia.
      * intros c' [].
    + pose proof (first_nearest_In F) as In_n.
      assert (Hn : ok nearest).
      { rewrite Forall_forall in Hs. now apply Hs. }
      destruct (accepted_rgb_of nearest Hn) as [_ Rn].
      pose proof (sqdist_range t (rgb_of nearest) Rt Rn) as Dn.
      cbn [ltb]. rewrite (root64_lt_iff Dc Dn).
      destruct F as (pre & post & E & Min & Strict).
      destruct (Z.ltb_spec (sqdist t (rgb_of c)) (sqdist t (rgb_of nearest))) as [L|L].
      * apply Next. right. split; [|reflexivity].
        exists seen, []. split; [reflexivity|]. split.
        -- intros c' I. apply in_app_or in I. destruct I as [I|[<-|[]]]; [|lia].
           specialize (Min c' I). lia.
        -- intros c' I. specialize (Min c' I). lia.
      * apply Next. right. split; [|reflexivity].
        exists pre, (post ++ [c]). split.
        -- rewrite E, <- app_assoc. reflexivity.
        -- split; [|exact Strict].
           intros c' I. apply in_app_or in I. destruct I as [I|[<-|[]]]; [|lia].
           now apply Min.
Qed.

(** C3. For a target colour and a non-empty list of candidates, all of
    them colour texts, [findNearestColor] returns the first of the
    candidates whose squared Euclidean distance to the target in RGB space
    is least; for the candidates [#000000], [#ffffff] and the target
    [#101010] it returns [#000000]. *)
Theorem findNearestColor_first_nearest (color : str) (colorList : list str) :
  HexSpec.accepted color = true ->
  Forall (fun c => HexSpec.accepted c = true) colorList ->
  colorList <> [] ->
  (exists c, findNearestColor color colorList = Ok c
     /\ In c colorList
     /\ first_nearest (rgb_of color) colorList c)
  /\ findNearestColor (lit "#101010") [lit "#000000"; lit "#ffffff"]
     = Ok (lit "#000000").
Proof.
  intros Ht Hl Ne. split; [|vm_compute; reflexivity].
  destruct (accepted_rgb_of color Ht) as [Et Rt].
  unfold findNearestColor. rewrite Et, bind_Ok.
  destruct colorList as [|first rest]; [congruence|].
  destruct (@nearest_loop_spec (rgb_of color) (first :: rest) Rt Hl [] DBL_MAX first)
    as (c & E & [[N _]|F]).
  - constructor.
  - left. now split.
  - discriminate.
  - exists c. split; [exact E|]. split; [|exact F].
    now apply first_nearest_In in F.
Qed.

Lemma findNearestColor_first_nearest_witness :
  (exists c, findNearestColor (lit "#7f7f80") [lit "#ffffff"; lit "#000000"; lit "fff"] = Ok c
     /\ In c [lit "#ffffff"; lit "#000000"; lit "fff"]
     /\ first_nearest (rgb_of (lit "#7f7f80")) [lit "#ffffff"; lit "#000000"; lit "fff"] c)
  /\ findNearestColor (lit "#101010") [lit "#000000"; lit "#ffffff"]
     = Ok (lit "#000000").
Proof.
  apply findNearestColor_first_nearest.
  - reflexivity.
  - repeat constructor.
  - discriminate.
Defined.

End MapperFacts.

(** ** Conversions between [float] and text *)

Module FloatTextFacts.
Import IEEE IEEESpec IEEEFacts Text FloatText.

Lemma span_fst_forall (f : ascii -> bool) (s : str) :
  forallb f (fst (span f s)) = true.
Proof.
  induction s as [|c t IH]; simpl; [reflexivity|].
  destruct (f c) eqn:E; [|reflexivity].
  destruct (span f t). simpl in *. now rewrite E.
Qed.

Lemma span_app (f : ascii -> bool) (v : str) (q : ascii) (r : str) :
  forallb f v = true -> f q = false -> span f (v ++ q :: r) = (v, q :: r).
Proof.
  intros V Q. induction v as [|c v IH]; simpl in *.
  - now rewrite Q.
  - apply andb_prop in V. destruct V as [-> V]. now rewrite IH.
Qed.

Lemma span_eq (f : ascii -> bool) (s a b : str) :
  span f s = (a, b) -> s = a ++ b /\ forallb f a = true.
Proof.
  intros E. split.
  - revert a b E. induction s as [|c t IH]; simpl; intros a b E.
    + now injection E as <- <-.
    + destruct (f c); [|now injection E as <- <-].
      destruct (span f t) as [a' b']. injection E as <- <-.
      simpl. f_equal. now apply IH.
  - pose proof (span_fst_forall f s) as F. now rewrite E in F.
Qed.

Lemma dec_value_nonneg (s : str) (acc : Z) :
  0 <= acc -> forallb is_digit s = true -> 0 <= dec_value acc s.
Proof.
  revert acc. induction s as [|c t IH]; cbn [dec_value forallb];
    intros acc A D; [assumption|].
  apply andb_prop in D. destruct D as [Dc Dt].
  apply IH; [|assumption].
  unfold is_digit in Dc. cbv zeta in Dc.
  apply andb_prop in Dc. destruct Dc as [Dc _].
  apply Z.leb_le in Dc. lia.
Qed.

(** [stof] returns a finite value that is not negative. *)
Lemma stof_nonneg (s : str) (a : float) :
  stof s = Ok a -> exists n, a = Fin n /\ 0 <= n.
Proof.
  unfold stof. destruct (span is_digit s) as [ip rest] eqn:E.
  set (fp := match rest with
             | "."%char :: t => fst (span is_digit t)
             | _ => []
             end).
  assert (D : forallb is_digit (ip ++ fp) = true).
  { rewrite forallb_app. apply andb_true_intro. split.
    - now apply span_eq in E.
    - unfold fp. destruct rest as [|c t]; [reflexivity|].
      destruct (Ascii.eqb_spec c "."%char) as [->|N].
      + apply span_fst_forall.
      + destruct c as [[] [] [] [] [] [] [] []]; try reflexivity.
        now destruct N. }
  destruct (ip ++ fp) as [|d ds] eqn:Eds; [discriminate|].
  set (num := dec_value 0 (d :: ds) * one f32).
  set (den := 10 ^ Z.of_nat (length fp)).
  assert (N : 0 <= num).
  { unfold num. apply Z.mul_nonneg_nonneg.
    - apply dec_value_nonneg; [lia | assumption].
    - vm_compute. discriminate. }
  assert (Dn : 0 < den) by (apply Z.pow_pos_nonneg; lia).
  rewrite rnd_unfold. cbn zeta. change (prec f32) with 24.
  pose proof (rndz_nonneg (p := 24) ltac:(lia) N Dn) as R.
  destruct (largest f32 <? rndz 24 num den); [discriminate|].
  destruct (rndz 24 num den <? - largest f32); [discriminate|].
  destruct (_ && _); [discriminate|].
  intros H. injection H as <-. eauto.
Qed.

Lemma digit_char_is_digit (u : Z) : is_digit (Hex.digit_char (u mod 10)) = true.
Proof.
  pose proof (Z.mod_pos_bound u 10 ltac:(lia)) as B.
  assert (A : forallb (fun d => is_digit (Hex.digit_char (Z.of_nat d))) (seq 0 10) = true)
    by reflexivity.
  rewrite forallb_forall in A.
  specialize (A (Z.to_nat (u mod 10))). rewrite Z2Nat.id in A by lia.
  apply A, in_seq. lia.
Qed.

Lemma digits10_digits (n : nat) (u : Z) : forallb is_digit (digits10 n u) = true.
Proof.
  revert u. induction n as [|n IH]; intros u; simpl; [reflexivity|].
  rewrite forallb_app, IH. simpl. now rewrite digit_char_is_digit.
Qed.

Lemma drop_zeros_forall (f : ascii -> bool) (keep : nat) (s : str) :
  forallb f s = true -> forallb f (Hex.drop_zeros keep s) = true.
Proof.
  induction s as [|c t IH]; intros F; [reflexivity|].
  simpl in F. apply andb_prop in F. destruct F as [Fc Ft].
  cbn [Hex.drop_zeros].
  assert (K : forallb f (c :: t) = true) by (simpl; now rewrite Fc, Ft).
  destruct c as [[] [] [] [] [] [] [] []]; try exact K.
  destruct (Nat.ltb keep (length _)); [now apply IH | exact K].
Qed.

Lemma is_digit_opacity_char (s : str) :
  forallb is_digit s = true -> forallb is_opacity_char s = true.
Proof.
  induction s as [|c t IH]; simpl; [reflexivity|].
  intros H. apply andb_prop in H. destruct H as [Hc Ht].
  unfold is_opacity_char. rewrite Hc. simpl. now apply IH.
Qed.

(** The text of a non-negative [float] is a non-empty run of digits and
    dots: it is what the opacity pattern captures. *)
Lemma to_string_opacity_text (n : Z) :
  0 <= n ->
  to_string (Fin n) <> [] /\ forallb is_opacity_char (to_string (Fin n)) = true.
Proof.
  intros N. unfold to_string.
  destruct (Z.ltb_spec n 0) as [C|_]; [lia|].
  cbn [app]. split.
  - intros E. apply (f_equal (@length ascii)) in E.
    rewrite !length_app in E. simpl in E. lia.
  - rewrite !forallb_app. apply andb_true_intro. split.
    + apply is_digit_opacity_char. unfold dec.
      apply drop_zeros_forall, digits10_digits.
    + apply andb_true_intro. split; [reflexivity|].
      apply is_digit_opacity_char, digits10_digits.
Qed.

End FloatTextFacts.

(** ** OpacityFlattener *)

Module FlattenFacts.
Import IEEE Text TextFacts FloatText FloatTextFacts Flatten FlattenSpec.

(** *** The opacity pattern *)

Lemma dquote_not_opacity_char : is_opacity_char dquote = false.
Proof. reflexivity. Qed.

Lemma match_opacity_Some (s v suffix : str) :
  match_opacity s = Some (v, suffix) ->
  s = opacity_attr v ++ suffix /\ v <> [] /\ forallb is_opacity_char v = true.
Proof.
  unfold match_opacity.
  destruct (strip_prefix opacity_open s) as [t|] eqn:E; [|discriminate].
  apply strip_prefix_Some in E.
  destruct (span is_opacity_char t) as [a b] eqn:Sp.
  apply span_eq in Sp. destruct Sp as [-> F].
  destruct a as [|a0 a]; [discriminate|].
  destruct b as [|q b]; [discriminate|].
  destruct (Ascii.eqb_spec q dquote) as [->|]; [|discriminate].
  intros H. injection H as <- <-.
  split; [|split; [discriminate | exact F]].
  rewrite E. unfold opacity_attr. now rewrite <- !app_assoc.
Qed.

Lemma match_opacity_attr (v post : str) :
  v <> [] -> forallb is_opacity_char v = true ->
  match_opacity (opacity_attr v ++ post) = Some (v, post).
Proof.
  intros N F. unfold match_opacity, opacity_attr.
  rewrite <- !app_assoc, strip_prefix_app.
  change ([dquote] ++ post) with (dquote :: post).
  rewrite (span_app is_opacity_char v dquote post F dquote_not_opacity_char).
  destruct v; [congruence|]. now rewrite Ascii.eqb_refl.
Qed.

Lemma opacity_attr_cons (v post : str) :
  exists t, opacity_attr v ++ post = "f"%char :: t.
Proof. eexists. reflexivity. Qed.

Lemma opacity_matches_from_skipn (k : nat) (s : str) :
  opacity_matches_from k s = opacity_matches (skipn k s).
Proof.
  revert k. induction s as [|c t IH]; intros k.
  - now destruct k.
  - destruct k as [|k]; [reflexivity|]. simpl. apply IH.
Qed.

Lemma opacity_matches_keep (c : ascii) (t : str) :
  match_opacity (c :: t) = None ->
  opacity_matches (c :: t) = opacity_matches t.
Proof.
  intros H. unfold opacity_matches. cbn [opacity_matches_from]. now rewrite H.
Qed.

Lemma opacity_matches_match (c : ascii) (t v suffix : str) :
  match_opacity (c :: t) = Some (v, suffix) ->
  exists rest, opacity_matches (c :: t) = v :: rest.
Proof.
  intros H. unfold opacity_matches. cbn [opacity_matches_from]. rewrite H.
  eauto.
Qed.

(** [has_opacity] says that an attribute occurs in the text. *)
Lemma has_opacity_occurs (s : str) :
  has_opacity s = true <-> occurs_opacity s.
Proof.
  unfold has_opacity. split.
  - induction s as [|c t IH]; [discriminate|].
    destruct (match_opacity (c :: t)) as [[v suffix]|] eqn:M.
    + intros _. apply match_opacity_Some in M.
      destruct M as (E & N & F). exists [], v, suffix. now repeat split.
    + rewrite (opacity_matches_keep _ _ M). intros H.
      destruct (IH H) as (pre & v & post & -> & N & F).
      exists (c :: pre), v, post. now repeat split.
  - intros (pre & v & post & -> & N & F).
    induction pre as [|c pre IH].
    + pose proof (match_opacity_attr post N F) as M.
      change ([] ++ opacity_attr v ++ post) with (opacity_attr v ++ post).
      destruct (opacity_attr_cons v post) as [t E]. rewrite E in M |- *.
      destruct (opacity_matches_match _ _ M) as [rest ->]. reflexivity.
    + change ((c :: pre) ++ opacity_attr v ++ post)
        with (c :: (pre ++ opacity_attr v ++ post)).
      destruct (match_opacity (c :: pre ++ opacity_attr v ++ post))
        as [[v' suffix]|] eqn:M.
      * destruct (opacity_matches_match _ _ M) as [rest ->]. reflexivity.
      * now rewrite (opacity_matches_keep _ _ M).
Qed.

(** *** Rewriting passes *)

Lemma edits_refl (P : str -> Prop) (s : str) : edits P s s.
Proof. induction s; now constructor. Qed.

Lemma passes_trans (P : str -> Prop) (s t u : str) :
  passes P s t -> passes P t u -> passes P s u.
Proof.
  induction 1 as [s t E|s t t' E _ IH]; intros H.
  - now apply passes_cons with t.
  - apply passes_cons with t; [assumption|]. now apply IH.
Qed.

(** Replacing the occurrences of a word is a rewriting pass. *)
Lemma edits_replace_all (P : str -> Prop) (old new : str) :
  P old -> old <> [] -> forall s, edits P s (replace_all old new s).
Proof.
  intros Po N s. induction s as [s IH] using str_length_ind.
  destruct s as [|c t]; [constructor|].
  destruct (replace_all_cases new c t N) as [(r & E & L & R)|[_ R]]; rewrite R.
  - rewrite E. apply edits_word; [assumption|]. now apply IH.
  - apply edits_keep. apply IH. simpl. lia.
Qed.

Lemma fill_black_word : attr_word fill_black.
Proof. now left. Qed.

Lemma stroke_none_word : attr_word stroke_none.
Proof. right. now left. Qed.

Lemma oldAttr_word (n : Z) : 0 <= n -> attr_word (oldAttr (Fin n)).
Proof.
  intros N. right. right. exists (to_string (Fin n)).
  destruct (to_string_opacity_text N) as [A B]. now repeat split.
Qed.

Lemma oldAttr_nonempty (a : float) : oldAttr a <> [].
Proof. unfold oldAttr, opacity_attr. discriminate. Qed.

(** *** The opacities of the document *)

Lemma mapM_stof_nonneg (l : list str) (values : list float) :
  mapM stof l = Ok values -> Forall nonneg values.
Proof.
  revert values. induction l as [|a l IH]; simpl; intros values H.
  - injection H as <-. constructor.
  - apply bind_Ok_inv in H. destruct H as (b & Eb & H).
    apply bind_Ok_inv in H. destruct H as (bs & Ebs & H).
    injection H as <-. constructor.
    + now apply stof_nonneg in Eb.
    + now apply IH.
Qed.

Lemma set_insert_Forall (P : float -> Prop) (x : float) (l : list float) :
  P x -> Forall P l -> Forall P (set_insert x l).
Proof.
  intros Px. induction l as [|y t IH]; intros F; simpl.
  - now constructor.
  - apply Forall_cons_iff in F. destruct F as [Py Ft].
    destruct (ltb x y); [repeat constructor; assumption|].
    destruct (ltb y x); constructor; auto.
Qed.

Lemma fold_set_insert_Forall (P : float -> Prop) (values acc : list float) :
  Forall P values -> Forall P acc ->
  Forall P (fold_left (fun s v => set_insert v s) values acc).
Proof.
  revert acc. induction values as [|v values IH]; intros acc Fv Fa; simpl.
  - assumption.
  - apply Forall_cons_iff in Fv. destruct Fv as [Pv Fv].
    apply IH; [assumption|]. now apply set_insert_Forall.
Qed.

(** The loop over the opacities is a sequence of rewriting passes. *)
Lemma flatten_loop_passes (stroke : bool) (ops : list float) :
  Forall nonneg ops ->
  forall res out, flatten_loop stroke ops res = Ok out ->
  passes attr_word res out.
Proof.
  induction ops as [|a ops IH]; intros F res out H.
  - injection H as <-. apply passes_one, edits_refl.
  - apply Forall_cons_iff in F. destruct F as [(n & -> & N) F].
    cbn [flatten_loop] in H.
    apply bind_Ok_inv in H. destruct H as (hexColor & _ & H).
    eapply passes_cons; [|exact (IH F _ _ H)].
    apply edits_replace_all; [now apply oldAttr_word | apply oldAttr_nonempty].
Qed.

(** *** Characters outside the occurrences *)

Lemma attr_word_occurrence (w s : str) :
  attr_word w -> (length w <= occurrence_length (w ++ s))%nat.
Proof.
  intros [->|[->|(v & N & F & ->)]]; unfold occurrence_length.
  - now rewrite strip_prefix_app.
  - change (strip_prefix fill_black (stroke_none ++ s)) with (@None str).
    now rewrite strip_prefix_app.
  - change (strip_prefix fill_black (opacity_attr v ++ s)) with (@None str).
    change (strip_prefix stroke_none (opacity_attr v ++ s)) with (@None str).
    now rewrite (match_opacity_attr s N F).
Qed.

Lemma attr_word_nonempty (w : str) : attr_word w -> w <> [].
Proof.
  intros [->|[->|(v & _ & _ & ->)]]; discriminate.
Qed.

Lemma outside_from_covered (w s : str) (cover : nat) :
  (length w <= cover)%nat -> exists k, outside_from cover (w ++ s) = outside_from k s.
Proof.
  revert cover. induction w as [|c w IH]; intros cover L.
  - now exists cover.
  - change ((c :: w) ++ s) with (c :: (w ++ s)). cbn [outside_from].
    simpl in L.
    destruct (Nat.max cover (occurrence_length (c :: w ++ s))) as [|k] eqn:E; [lia|].
    apply IH. lia.
Qed.

Lemma subseq_app_l (a r b : str) : subseq a b -> subseq a (r ++ b).
Proof. intros H. induction r; simpl; [assumption | now constructor]. Qed.

(** A rewriting of attribute words keeps, in their order, the characters
    that are part of no occurrence. *)
Lemma edits_outside (s t : str) :
  edits attr_word s t -> forall cover, subseq (outside_from cover s) t.
Proof.
  induction 1 as [|c s t _ IH|w r s t W _ IH]; intros cover.
  - constructor.
  - cbn [outside_from].
    destruct (Nat.max cover (occurrence_length (c :: s))).
    + apply subseq_keep, IH.
    + apply subseq_skip, IH.
  - pose proof (attr_word_occurrence s W) as L.
    destruct w as [|c w]; [now apply attr_word_nonempty in W|].
    change ((c :: w) ++ s) with (c :: (w ++ s)) in *. cbn [outside_from].
    simpl in L.
    destruct (Nat.max cover (occurrence_length (c :: w ++ s))) as [|k] eqn:E; [lia|].
    destruct (outside_from_covered w s (cover := k) ltac:(lia)) as [k' ->].
    apply subseq_app_l, IH.
Qed.

Lemma is_subseq_step (b : str) :
  (forall x a, is_subseq (x :: a) b = true -> is_subseq a b = true)
  /\ (forall a y, is_subseq a b = true -> is_subseq a (y :: b) = true).
Proof.
  induction b as [|y b [IH1 IH2]].
  - split; [discriminate|]. intros [|x a] y H; [reflexivity | discriminate].
  - assert (T : forall x a, is_subseq (x :: a) (y :: b) = true
                            -> is_subseq a (y :: b) = true).
    { intros x a H. cbn [is_subseq] in H.
      destruct (Ascii.eqb x y); apply IH2; [assumption | now apply IH1 in H]. }
    split; [exact T|].
    intros [|x a] z H; [reflexivity|]. cbn [is_subseq] in *.
    destruct (Ascii.eqb x z); [|assumption].
    apply (T x a). exact H.
Qed.

Lemma subseq_is_subseq (a b : str) : subseq a b -> is_subseq a b = true.
Proof.
  induction 1 as [|c a b _ IH|c a b _ IH].
  - reflexivity.
  - now apply is_subseq_step.
  - cbn [is_subseq]. now rewrite Ascii.eqb_refl.
Qed.

(** *** What [getSolid] leaves alone *)

(** C10, as the code has it.  [getSolid] is a sequence of rewriting passes:
    the removal of [fill="black"], one replacement of [fill-opacity="v"] for
    each distinct opacity, and the removal of [ stroke="none"].  Each pass
    keeps, where it is, every character of the text it receives that is
    not part of an occurrence of the literal it rewrites; path data,
    coordinates and the other attributes are rewritten by no pass. *)
Theorem getSolid_passes (s : str) (stroke : bool) (out : str) :
  getSolid s stroke = Ok out -> passes attr_word s out.
Proof.
  unfold getSolid. intros H.
  apply bind_Ok_inv in H. destruct H as (values & Ev & H).
  assert (P1 : edits attr_word s (replace_all fill_black [] s)).
  { apply edits_replace_all; [apply fill_black_word | discriminate]. }
  pose proof (mapM_stof_nonneg _ Ev) as Fv.
  pose proof (fold_set_insert_Forall Fv (Forall_nil _)) as Fu.
  destruct (fold_left _ values []) as [|u us] eqn:Eu.
  - injection H as <-. now apply passes_one.
  - apply bind_Ok_inv in H. destruct H as (res & Er & H). injection H as <-.
    apply passes_cons with (replace_all fill_black [] s); [exact P1|].
    apply passes_trans with res.
    + apply (flatten_loop_passes stroke (ops := rev (u :: us))); [|exact Er].
      now apply Forall_rev.
    + apply passes_one, edits_replace_all; [apply stroke_none_word | discriminate].
Qed.

Lemma getSolid_passes_witness :
  passes attr_word
    (svg "<path d='M0 0z' fill='black' fill-opacity='0.500000' stroke='none'/>")
    (svg "<path d='M0 0z'  fill='#7f7f7f'/>").
Proof.
  apply (getSolid_passes
           (svg "<path d='M0 0z' fill='black' fill-opacity='0.500000' stroke='none'/>")
           false).
  vm_compute. reflexivity.
Defined.

(** C10 as stated fails: a pass can rewrite an occurrence that the pass
    before it has put together.  Here the removal of [fill="black"] joins
    [ stro] and [ke="none"], which the last pass then removes, although no
    character of them is part of an occurrence in the input. *)
Lemma getSolid_not_one_pass :
  getSolid (svg "fill-opacity='0.500000' strofill='black'ke='none'") false
    = Ok (svg "fill='#7f7f7f'")
  /\ ~ edits attr_word
         (svg "fill-opacity='0.500000' strofill='black'ke='none'")
         (svg "fill='#7f7f7f'").
Proof.
  split; [vm_compute; reflexivity|].
  intros E. apply edits_outside with (cover := O) in E.
  apply subseq_is_subseq in E. vm_compute in E. discriminate.
Qed.

(** *** Texts without opacity *)

Lemma replace_all_absent (old new s : str) :
  old <> [] ->
  (forall pre post, s <> pre ++ old ++ post) -> replace_all old new s = s.
Proof.
  intros N. induction s as [s IH] using str_length_ind. intros A.
  destruct s as [|c t]; [reflexivity|].
  destruct (replace_all_cases new c t N) as [(r & E & _)|[_ R]].
  - now destruct (A [] r).
  - rewrite R. f_equal. apply IH; [simpl; lia|].
    intros pre post ->. now apply (A (c :: pre) post).
Qed.

(** C4, as the code has it.  [getSolid] removes [fill="black"] before it
    looks for opacities: for a text in which no [fill-opacity] attribute
    occurs once that literal is removed, it returns the text with every
    [fill="black"] removed, which is the input itself when the literal does
    not occur in it. *)
Theorem getSolid_without_opacity (s : str) (stroke : bool) :
  has_opacity (strip_black s) = false ->
  getSolid s stroke = Ok (strip_black s)
  /\ ((forall pre post, s <> pre ++ fill_black ++ post) -> strip_black s = s).
Proof.
  intros H. split.
  - unfold getSolid, has_opacity, strip_black in *.
    destruct (opacity_matches (replace_all fill_black [] s)); [reflexivity|discriminate].
  - apply replace_all_absent. discriminate.
Qed.

Lemma getSolid_without_opacity_witness :
  getSolid (svg "<path fill='black' d='M1 2z'/>") true
    = Ok (strip_black (svg "<path fill='black' d='M1 2z'/>"))
  /\ ((forall pre post,
         svg "<path fill='black' d='M1 2z'/>" <> pre ++ fill_black ++ post)
      -> strip_black (svg "<path fill='black' d='M1 2z'/>")
         = svg "<path fill='black' d='M1 2z'/>").
Proof.
  apply getSolid_without_opacity. reflexivity.
Defined.

(** C4 as stated fails: a text without any [fill-opacity] attribute is
    returned without its [fill="black"]; and where the removal of that
    literal puts an attribute together, the attribute is replaced. *)
Lemma getSolid_strips_black :
  has_opacity (svg "<path fill='black'/>") = false
  /\ getSolid (svg "<path fill='black'/>") false = Ok (svg "<path />")
  /\ svg "<path />" <> svg "<path fill='black'/>"
  /\ has_opacity (svg "fill-opacity='0.fill='black'500000'") = false
  /\ getSolid (svg "fill-opacity='0.fill='black'500000'") false
     = Ok (svg "fill='#7f7f7f'").
Proof.
  split; [reflexivity|]. split; [vm_compute; reflexivity|].
  split; [discriminate|]. split; vm_compute; reflexivity.
Qed.

(** *** The text of the replaced attribute *)

(** C1 fails on the code.  The attribute [fill-opacity="0.5"] is found and
    its value parsed, but the text searched for is rebuilt with
    [std::to_string], which writes six decimals: [fill-opacity="0.500000"]
    does not occur, nothing is replaced, and the attribute stays in the
    result.  Written with six decimals, the two layers of opacity 0.5 and 0.3
    get the fills of [rgbaToHex(0,0,0,0.65)] and [rgbaToHex(0,0,0,0.3)]. *)
Theorem getSolid_misses_opacity :
  has_opacity (svg "<path fill-opacity='0.5'/>") = true
  /\ (exists a, stof (lit "0.5") = Ok a
        /\ oldAttr a = svg "fill-opacity='0.500000'")
  /\ getSolid (svg "<path fill-opacity='0.5'/>") false
     = Ok (svg "<path fill-opacity='0.5'/>")
  /\ has_opacity (svg "<path fill-opacity='0.5'/>") = true
  /\ getSolid (svg "<p fill-opacity='0.500000'/><p fill-opacity='0.300000'/>") false
     = Ok (svg "<p fill='#595959'/><p fill='#b2b2b2'/>").
Proof.
  split; [reflexivity|]. split.
  - exists (Fin (2 ^ 148)). split; vm_compute; reflexivity.
  - repeat split; vm_compute; reflexivity.
Qed.

End FlattenFacts.

(** ** DominantColorExtractor *)

Module PaletteFacts.
Import Palette PaletteSpec.

(** *** The order of the map keys *)

Lemma ascii_code_inj (a b : ascii) : ascii_code a = ascii_code b -> a = b.
Proof.
  unfold ascii_code. intros H. apply N2Z.inj in H.
  rewrite <- (ascii_N_embedding a), <- (ascii_N_embedding b). now f_equal.
Qed.

Lemma str_ltb_irrefl (a : str) : str_ltb a a = false.
Proof.
  induction a as [|x a IH]; [reflexivity|]. simpl.
  now rewrite Z.ltb_irrefl.
Qed.

Lemma str_ltb_trans (a b c : str) :
  str_ltb a b = true -> str_ltb b c = true -> str_ltb a c = true.
Proof.
  revert b c. induction a as [|x a IH]; intros [|y b] [|z c]; simpl;
    try discriminate; try reflexivity.
  destruct (Z.ltb_spec (ascii_code x) (ascii_code y)) as [XY|XY].
  - intros _. destruct (Z.ltb_spec (ascii_code y) (ascii_code z)) as [YZ|YZ].
    + intros _. destruct (Z.ltb_spec (ascii_code x) (ascii_code z)); [reflexivity|lia].
    + destruct (Z.ltb_spec (ascii_code z) (ascii_code y)); [discriminate|].
      intros _. destruct (Z.ltb_spec (ascii_code x) (ascii_code z)); [reflexivity|lia].
  - destruct (Z.ltb_spec (ascii_code y) (ascii_code x)) as [YX|YX]; [discriminate|].
    intros AB.
    destruct (Z.ltb_spec (ascii_code y) (ascii_code z)) as [YZ|YZ].
    + intros _. destruct (Z.ltb_spec (ascii_code x) (ascii_code z)); [reflexivity|lia].
    + destruct (Z.ltb_spec (ascii_code z) (ascii_code y)) as [ZY|ZY]; [discriminate|].
      intros BC.
      destruct (Z.ltb_spec (ascii_code x) (ascii_code z)); [reflexivity|].
      destruct (Z.ltb_spec (ascii_code z) (ascii_code x)); [lia|].
      now apply IH with b.
Qed.

Lemma str_ltb_total (a b : str) :
  str_eqb a b = false -> str_ltb a b = false -> str_ltb b a = true.
Proof.
  revert b. induction a as [|x a IH]; intros [|y b]; cbn [str_ltb].
  - intros E _. now rewrite str_eqb_refl in E.
  - discriminate.
  - reflexivity.
  - intros E.
    destruct (Z.ltb_spec (ascii_code x) (ascii_code y)) as [XY|XY]; [discriminate|].
    destruct (Z.ltb_spec (ascii_code y) (ascii_code x)) as [YX|YX]; [reflexivity|].
    assert (x = y) by (apply ascii_code_inj; lia). subst y.
    intros L. apply IH; [|exact L].
    destruct (str_eqb a b) eqn:Eab; [|reflexivity].
    apply str_eqb_eq in Eab. subst b. now rewrite str_eqb_refl in E.
Qed.

Lemma str_eqb_neq (a b : str) : str_eqb a b = false <-> a <> b.
Proof.
  split.
  - intros E ->. now rewrite str_eqb_refl in E.
  - intros N. destruct (str_eqb a b) eqn:E; [|reflexivity].
    now apply str_eqb_eq in E.
Qed.

(** *** The histogram *)

Lemma get_absent (k : str) (m : color_map) :
  Forall (str_lt k) (map fst m) -> get k m = 0.
Proof.
  induction m as [|[k' n] t IH]; simpl; intros F; [reflexivity|].
  apply Forall_cons_iff in F. destruct F as [L F].
  destruct (str_eqb k k') eqn:E.
  - apply str_eqb_eq in E. subst k'. unfold str_lt in L.
    now rewrite str_ltb_irrefl in L.
  - now apply IH.
Qed.

Lemma incr_keys (c : str) (m : color_map) (k : str) :
  In k (map fst (incr c m)) -> k = c \/ In k (map fst m).
Proof.
  induction m as [|[k' n] t IH]; simpl.
  - intros [<-|[]]. now left.
  - destruct (str_eqb c k') eqn:E; [simpl; tauto|].
    destruct (str_ltb c k'); simpl.
    + intros [<-|[<-|I]]; tauto.
    + intros [<-|I]; [tauto|]. destruct (IH I); tauto.
Qed.

Lemma incr_ok (c : str) (m : color_map) : map_ok m -> map_ok (incr c m).
Proof.
  unfold map_ok. induction m as [|[k n] t IH]; simpl; intros [S P].
  - split; repeat constructor.
  - apply StronglySorted_inv in S. destruct S as [St Sk].
    apply Forall_cons_iff in P. destruct P as [Pn Pt]. simpl in Pn.
    destruct (str_eqb c k) eqn:E.
    + split; [now constructor|]. constructor; [simpl; lia | assumption].
    + destruct (str_ltb c k) eqn:L.
      * split.
        -- simpl. constructor; [now constructor|].
           constructor; [exact L|].
           eapply Forall_impl; [|exact Sk].
           intros a Ha. now apply str_ltb_trans with k.
        -- constructor; [simpl; lia|]. now constructor.
      * destruct (IH (conj St Pt)) as [S' P'].
        split; [|now constructor].
        simpl. constructor; [exact S'|].
        apply Forall_forall. intros a Ia.
        destruct (incr_keys _ _ _ Ia) as [->|I].
        -- now apply str_ltb_total.
        -- rewrite Forall_forall in Sk. now apply Sk.
Qed.

Lemma get_incr (c : str) (m : color_map) (k : str) :
  map_ok m -> get k (incr c m) = get k m + (if str_eqb k c then 1 else 0).
Proof.
  unfold map_ok. induction m as [|[k' n] t IH]; simpl; intros [S P].
  - destruct (str_eqb k c); reflexivity.
  - apply StronglySorted_inv in S. destruct S as [St Sk].
    apply Forall_cons_iff in P. destruct P as [_ Pt].
    destruct (str_eqb c k') eqn:E.
    + apply str_eqb_eq in E. subst k'. simpl.
      destruct (str_eqb k c); lia.
    + destruct (str_ltb c k') eqn:L; simpl.
      * destruct (str_eqb k c) eqn:Ekc.
        -- apply str_eqb_eq in Ekc. subst k. rewrite E.
           rewrite get_absent; [reflexivity|].
           eapply Forall_impl; [|exact Sk].
           intros a Ha. now apply str_ltb_trans with k'.
        -- lia.
      * destruct (str_eqb k k') eqn:Ekk.
        -- apply str_eqb_eq in Ekk. subst k'.
           destruct (str_eqb k c) eqn:Ekc; [|lia].
           apply str_eqb_eq in Ekc. subst k. now rewrite str_eqb_refl in E.
        -- now apply IH.
Qed.

Lemma get_positive (k : str) (m : color_map) :
  Forall (fun e => 0 < snd e) m ->
  (In k (map fst m) <-> 0 < get k m) /\ 0 <= get k m.
Proof.
  induction m as [|[k' n] t IH]; simpl; intros P.
  - split; [|lia]. split; [intros [] | lia].
  - apply Forall_cons_iff in P. destruct P as [Pn Pt]. simpl in Pn.
    destruct (IH Pt) as [I N].
    destruct (str_eqb k k') eqn:E.
    + apply str_eqb_eq in E. subst k'. split; [|lia]. split; [lia | now left].
    + apply str_eqb_neq in E. split; [|exact N].
      rewrite <- I. split; [intros [->|H]; [congruence | exact H] | now right].
Qed.

Lemma get_In (k : str) (n : Z) (m : color_map) :
  NoDup (map fst m) -> In (k, n) m -> get k m = n.
Proof.
  induction m as [|[k' n'] t IH]; simpl; intros D I; [destruct I|].
  apply NoDup_cons_iff in D. destruct D as [Nk D].
  destruct I as [E|I].
  - injection E as -> ->. now rewrite str_eqb_refl.
  - destruct (str_eqb k k') eqn:E.
    + apply str_eqb_eq in E. subst k'. exfalso. apply Nk.
      now apply (in_map fst) in I.
    + now apply IH.
Qed.

Lemma sorted_keys_NoDup (l : list str) : StronglySorted str_lt l -> NoDup l.
Proof.
  induction 1 as [|a l S IH F]; constructor; [|assumption].
  intros I. rewrite Forall_forall in F. specialize (F a I).
  unfold str_lt in F. now rewrite str_ltb_irrefl in F.
Qed.

Lemma counted_spec (l : list str) :
  map_ok (counted l)
  /\ forall k, get k (counted l) = Z.of_nat (count_occ (list_eq_dec ascii_dec) l k).
Proof.
  unfold counted.
  assert (G : forall l m done,
    map_ok m ->
    (forall k, get k m = Z.of_nat (count_occ (list_eq_dec ascii_dec) done k)) ->
    map_ok (fold_left (fun m c => incr c m) l m)
    /\ forall k, get k (fold_left (fun m c => incr c m) l m)
                 = Z.of_nat (count_occ (list_eq_dec ascii_dec) (done ++ l) k)).
  { clear l. induction l as [|c l IH]; intros m done Ok_m Gm.
    - rewrite app_nil_r. now split.
    - simpl. replace (done ++ c :: l) with ((done ++ [c]) ++ l)
        by (rewrite <- app_assoc; reflexivity).
      apply IH; [now apply incr_ok|].
      intros k. rewrite get_incr by assumption. rewrite Gm.
      rewrite count_occ_app. simpl.
      destruct (list_eq_dec ascii_dec c k) as [->|N].
      + rewrite str_eqb_refl. lia.
      + replace (str_eqb k c) with false; [lia|].
        symmetry. apply str_eqb_neq. congruence. }
  apply (G l [] []).
  - split; constructor.
  - reflexivity.
Qed.

(** *** The sort *)

Lemma insert_by_count_perm (e : str * Z) (l : list (str * Z)) :
  Permutation (insert_by_count e l) (e :: l).
Proof.
  induction l as [|h t IH]; simpl; [reflexivity|].
  destruct (snd e <? snd h); [|reflexivity].
  rewrite IH. apply perm_swap.
Qed.

Lemma sort_by_count_perm (l : list (str * Z)) : Permutation (sort_by_count l) l.
Proof.
  induction l as [|e l IH]; simpl; [reflexivity|].
  rewrite insert_by_count_perm. now constructor.
Qed.

Lemma insert_by_count_sorted (e : str * Z) (l : list (str * Z)) :
  StronglySorted by_count l -> StronglySorted by_count (insert_by_count e l).
Proof.
  induction l as [|h t IH]; simpl; intros S.
  - repeat constructor.
  - apply StronglySorted_inv in S. destruct S as [St Sh].
    destruct (Z.ltb_spec (snd e) (snd h)) as [L|L].
    + constructor; [now apply IH|].
      apply Forall_forall. intros a Ia.
      apply (Permutation_in _ (insert_by_count_perm e t)) in Ia.
      destruct Ia as [<-|Ia]; [unfold by_count; lia|].
      rewrite Forall_forall in Sh. now apply Sh.
    + constructor; [now constructor|].
      constructor; [exact L|].
      eapply Forall_impl; [|exact Sh]. unfold by_count. intros a Ha. lia.
Qed.

Lemma sort_by_count_sorted (l : list (str * Z)) :
  StronglySorted by_count (sort_by_count l).
Proof.
  induction l as [|e l IH]; simpl; [constructor|].
  now apply insert_by_count_sorted.
Qed.

Lemma In_firstn {A} (x : A) (n : nat) (l : list A) : In x (firstn n l) -> In x l.
Proof.
  revert n. induction l as [|a l IH]; intros [|n]; simpl; try tauto.
  intros [->|I]; [now left | right; now apply (IH n)].
Qed.

Lemma StronglySorted_firstn {A} (R : A -> A -> Prop) (n : nat) (l : list A) :
  StronglySorted R l -> StronglySorted R (firstn n l).
Proof.
  revert n. induction l as [|a l IH]; intros [|n] S; simpl; try constructor.
  - apply IH. now apply StronglySorted_inv in S.
  - apply StronglySorted_inv in S. destruct S as [_ F].
    apply Forall_forall. intros x Ix. apply In_firstn in Ix.
    rewrite Forall_forall in F. now apply F.
Qed.

Lemma StronglySorted_map {A B} (R : A -> A -> Prop) (Q : B -> B -> Prop)
    (f : A -> B) (l : list A) :
  (forall a b, In a l -> In b l -> R a b -> Q (f a) (f b)) ->
  StronglySorted R l -> StronglySorted Q (map f l).
Proof.
  intros H S. induction S as [|a l S IH F]; simpl; constructor.
  - apply IH. intros x y Ix Iy. apply H; now right.
  - apply Forall_forall. intros y Iy. apply in_map_iff in Iy.
    destruct Iy as (x & <- & Ix). rewrite Forall_forall in F.
    apply H; [now left | now right | now apply F].
Qed.

(** *** The scan *)

Lemma foldM_total {A B} (f : A -> B -> result A) (g : A -> B -> A) (l : list B) :
  (forall a b, In b l -> f a b = Ok (g a b)) ->
  forall a, foldM f l a = Ok (fold_left g l a).
Proof.
  induction l as [|b l IH]; intros H a; simpl; [reflexivity|].
  rewrite H by now left. rewrite bind_Ok.
  apply IH. intros a' b' I. apply H. now right.
Qed.

Lemma fold_left_flat_map {A B C} (g : A -> C -> A) (h : B -> list C)
    (l : list B) (a : A) :
  fold_left g (flat_map h l) a = fold_left (fun a b => fold_left g (h b) a) l a.
Proof.
  revert a. induction l as [|b l IH]; intros a; simpl; [reflexivity|].
  now rewrite fold_left_app, IH.
Qed.

Lemma strided_range (n step i : Z) :
  1 <= step -> In i (strided n step) -> 0 <= i < n.
Proof.
  intros S I. unfold strided in I. apply in_map_iff in I.
  destruct I as (k & <- & I). apply in_seq in I.
  destruct (Z.le_gt_cases ((n + step - 1) / step) 0) as [C|C].
  - lia.
  - assert (K : Z.of_nat k < (n + step - 1) / step) by lia.
    pose proof (Z.mul_div_le (n + step - 1) step ltac:(lia)) as Q.
    nia.
Qed.

Lemma at_in_range {A} (v : list A) (i : Z) :
  0 <= i < Z.of_nat (length v) -> exists a, at_ v i = Ok a /\ In a v.
Proof.
  intros [L U]. unfold at_.
  destruct (Z.ltb_spec i 0) as [C|_]; [lia|].
  destruct (nth_error v (Z.to_nat i)) as [a|] eqn:E.
  - exists a. split; [reflexivity|]. now apply nth_error_In in E.
  - apply nth_error_None in E. lia.
Qed.

Lemma sampleStep_pos (data : PixelData) : 1 <= sampleStep data.
Proof. unfold sampleStep. lia. Qed.

Lemma pixel_color_total (data : PixelData) (px : list Byte.byte) :
  3 <= channels data -> Z.of_nat (length px) = channels data ->
  exists oc, pixel_color data px = Ok oc.
Proof.
  intros C L. unfold pixel_color.
  destruct (at_in_range px (i := 0) ltac:(lia)) as (p0 & E0 & _).
  destruct (at_in_range px (i := 1) ltac:(lia)) as (p1 & E1 & _).
  destruct (at_in_range px (i := 2) ltac:(lia)) as (p2 & E2 & _).
  rewrite E0, E1, E2.
  destruct (Z.eqb_spec (channels data) 4) as [C4|C4].
  - destruct (at_in_range px (i := 3) ltac:(lia)) as (a & Ea & _).
    rewrite Ea. rewrite !bind_Ok.
    destruct (sample_value a <? 128); eexists; reflexivity.
  - rewrite !bind_Ok. eexists. reflexivity.
Qed.

(** On a well-formed buffer the loop body counts the colour of its cell. *)
Lemma visit_cell (data : PixelData) (m : color_map) (y x : Z) :
  well_formed data ->
  0 <= y < height data -> 0 <= x < width data ->
  visit data m y x = Ok (fold_left (fun m c => incr c m) (cell data y x) m).
Proof.
  intros [H R] Y X. unfold visit, cell.
  destruct (Z.leb_spec 3 (channels data)) as [C|C]; [|reflexivity].
  destruct (at_in_range (pixels data) (i := y) ltac:(lia)) as (row & Er & Ir).
  rewrite Er, bind_Ok.
  rewrite Forall_forall in R. destruct (R row Ir) as [W P].
  destruct (at_in_range row (i := x) ltac:(lia)) as (px & Ep & Ip).
  rewrite Ep, bind_Ok.
  rewrite Forall_forall in P. specialize (P px Ip).
  destruct (pixel_color_total data px C P) as [oc ->]. rewrite bind_Ok.
  destruct oc; reflexivity.
Qed.

Lemma histogram_counted (data : PixelData) :
  well_formed data -> histogram data = Ok (counted (scanned data)).
Proof.
  intros W. unfold histogram, counted, scanned.
  rewrite fold_left_flat_map.
  apply foldM_total. intros m y Iy.
  apply strided_range in Iy; [|apply sampleStep_pos].
  rewrite fold_left_flat_map.
  apply foldM_total. intros m' x Ix.
  apply strided_range in Ix; [|apply sampleStep_pos].
  now apply visit_cell.
Qed.

(** *** The colours *)

Lemma quantize_bucket (b : Byte.byte) :
  0 <= quantize b <= 255 /\ quantize b mod 32 = 0.
Proof.
  unfold quantize, sample_value.
  pose proof (Byte.to_N_bounded b) as B.
  assert (V : 0 <= Z.of_N (Byte.to_N b) <= 255) by lia.
  pose proof (Z.mul_div_le (Z.of_N (Byte.to_N b)) 32 ltac:(lia)) as Q.
  assert (0 <= Z.of_N (Byte.to_N b) / 32) by (apply Z.div_pos; lia).
  split; [lia|]. apply Z.mod_mul. lia.
Qed.

Lemma pixel_color_bucket (data : PixelData) (px : list Byte.byte) (c : str) :
  pixel_color data px = Ok (Some c) -> bucket_color c.
Proof.
  unfold pixel_color. intros H.
  apply bind_Ok_inv in H. destruct H as (tr & _ & H).
  destruct tr; [discriminate|].
  apply bind_Ok_inv in H. destruct H as (p0 & _ & H).
  apply bind_Ok_inv in H. destruct H as (p1 & _ & H).
  apply bind_Ok_inv in H. destruct H as (p2 & _ & H).
  injection H as <-.
  destruct (quantize_bucket p0) as [R0 M0].
  destruct (quantize_bucket p1) as [R1 M1].
  destruct (quantize_bucket p2) as [R2 M2].
  exists (quantize p0), (quantize p1), (quantize p2).
  split; [now apply HexFacts.rgbToHex_read_back | now repeat split].
Qed.

Lemma scanned_bucket (data : PixelData) (c : str) :
  In c (scanned data) -> bucket_color c.
Proof.
  unfold scanned. intros I.
  apply in_flat_map in I. destruct I as (y & _ & I).
  apply in_flat_map in I. destruct I as (x & _ & I).
  unfold cell in I.
  destruct (3 <=? channels data); [|destruct I].
  destruct (at_ (pixels data) y) as [row|]; [|destruct I].
  destruct (at_ row x) as [px|]; [|destruct I].
  destruct (pixel_color data px) as [[c'|]|] eqn:E; try (now destruct I).
  destruct I as [<-|[]]. now apply pixel_color_bucket in E.
Qed.

Lemma first_seen_length_In (l : list str) :
  NoDup (first_seen l) /\ forall k, In k (first_seen l) <-> In k l.
Proof.
  unfold first_seen. split.
  - apply NoDup_rev, NoDup_nodup.
  - intros k. rewrite <- in_rev, nodup_In, <- in_rev. reflexivity.
Qed.

(** The entries of the histogram: one for each distinct colour, holding
    its frequency. *)
Lemma counted_entries (l : list str) :
  length (counted l) = length (first_seen l)
  /\ forall k n, In (k, n) (counted l) ->
       In k l /\ n = Z.of_nat (count_occ (list_eq_dec ascii_dec) l k).
Proof.
  destruct (counted_spec l) as [[S P] G].
  pose proof (sorted_keys_NoDup S) as D.
  assert (K : forall k, In k (map fst (counted l)) <-> In k l).
  { intros k. destruct (get_positive k P) as [I _]. rewrite I, G.
    rewrite (count_occ_In (list_eq_dec ascii_dec)). lia. }
  split.
  - rewrite <- (length_map fst).
    destruct (first_seen_length_In l) as [D' I'].
    apply Permutation_length, NoDup_Permutation; try assumption.
    intros k. now rewrite K, I'.
  - intros k n I. split.
    + apply K. now apply (in_map fst) in I.
    + rewrite <- G. symmetry. now apply get_In.
Qed.

(** C2, as the code has it.  On a well-formed buffer and a requested count
    N, [extractDominantColors] returns at most N colours and at most as
    many as there are distinct quantized colours; the R, G and B channels
    of each are multiples of 32; and the colours are in order of
    descending frequency.  (Colours of equal frequency do not come in the
    order of their first encounter: the histogram is keyed by the colour
    text and [std::sort] is not stable.) *)
Theorem extractDominantColors_spec (data : PixelData) (numColors : Z) :
  well_formed data ->
  exists colors,
    extractDominantColors data numColors = Ok colors
    /\ Z.of_nat (length colors) <= Z.max 0 numColors
    /\ (length colors <= length (first_seen (scanned data)))%nat
    /\ Forall bucket_color colors
    /\ StronglySorted
         (fun a b => (frequency data b <= frequency data a)%nat) colors.
Proof.
  intros W. unfold extractDominantColors.
  rewrite (histogram_counted W), bind_Ok.
  set (M := counted (scanned data)).
  destruct (counted_entries (scanned data)) as [Len Ent]. fold M in Len, Ent.
  pose proof (sort_by_count_perm M) as Perm.
  pose proof (sort_by_count_sorted M) as Sorted.
  eexists. split; [reflexivity|].
  split; [|split; [|split]].
  - pose proof (firstn_le_length (Z.to_nat numColors) (map fst (sort_by_count M))).
    lia.
  - rewrite length_firstn, length_map, (Permutation_length Perm), Len. lia.
  - apply Forall_forall. intros c I. apply In_firstn in I.
    apply in_map_iff in I. destruct I as ([k n] & <- & I).
    apply (Permutation_in _ Perm) in I. apply Ent in I.
    apply (scanned_bucket data). apply I.
  - rewrite firstn_map.
    apply StronglySorted_map with (R := by_count).
    + intros [k n] [k' n'] I I' R. apply In_firstn in I, I'.
      apply (Permutation_in _ Perm) in I, I'.
      apply Ent in I, I'. destruct I as [_ ->], I' as [_ ->].
      unfold by_count in R. simpl in *. unfold frequency. lia.
    + now apply StronglySorted_firstn.
Qed.

Lemma rgb_row_well_formed (row : list (Z * Z * Z)) : well_formed (rgb_row row).
Proof.
  unfold well_formed, rgb_row. cbn [pixels width height channels].
  split; [reflexivity|]. constructor; [|constructor].
  split; [now rewrite length_map|].
  apply Forall_forall. intros px I. apply in_map_iff in I.
  destruct I as ([[r g] b] & <- & _). reflexivity.
Qed.

Lemma extractDominantColors_spec_witness :
  exists colors,
    extractDominantColors white_white_blue 1 = Ok colors
    /\ Z.of_nat (length colors) <= Z.max 0 1
    /\ (length colors <= length (first_seen (scanned white_white_blue)))%nat
    /\ Forall bucket_color colors
    /\ StronglySorted
         (fun a b => (frequency white_white_blue b
                      <= frequency white_white_blue a)%nat) colors.
Proof.
  apply extractDominantColors_spec. apply rgb_row_well_formed.
Defined.

(** C2 as stated fails on the order of ties: white is met first and black
    second, both once, and black is returned first. *)
Lemma extractDominantColors_tie_order :
  extractDominantColors white_black 2 = Ok [lit "#000000"; lit "#e0e0e0"]
  /\ frequency white_black (lit "#000000") = frequency white_black (lit "#e0e0e0")
  /\ first_seen (scanned white_black) = [lit "#e0e0e0"; lit "#000000"].
Proof. repeat split; vm_compute; reflexivity. Qed.

End PaletteFacts.

(** ** InspectionHeuristic *)

Module InspectFacts.
Import Palette PaletteSpec Inspect.

(** C5, as the code has it.  In [inspectImage] the first colour of the
    palette is dropped exactly when it is near-white and the palette holds
    more than one colour, that is, when at least one colour remains after
    the drop; a palette of one colour, and a first colour that is not
    near-white, are kept. *)
Theorem workingPalette_background (first : str) (rest : list str) (rgb : Z * Z * Z) :
  Hex.hexToRgb first = Ok rgb ->
  workingPalette (first :: rest)
  = Ok (match rest with
        | [] => [first]
        | _ :: _ => if near_white rgb then rest else first :: rest
        end).
Proof.
  intros E. unfold workingPalette. rewrite E, bind_Ok.
  destruct rest as [|c rest]; cbn [length Nat.ltb Nat.leb].
  - now rewrite andb_false_r.
  - rewrite andb_true_r. now destruct (near_white rgb).
Qed.

Lemma workingPalette_background_witness :
  workingPalette [lit "#e0e0e0"; lit "#204060"; lit "#000000"]
  = Ok (if near_white (224, 224, 224)
        then [lit "#204060"; lit "#000000"]
        else [lit "#e0e0e0"; lit "#204060"; lit "#000000"]).
Proof.
  apply (workingPalette_background (lit "#e0e0e0")
           [lit "#204060"; lit "#000000"] (rgb := (224, 224, 224))).
  reflexivity.
Defined.

(** C5 as stated fails: of a palette of two colours the near-white first
    one is dropped, although only one colour remains after the drop. *)
Lemma workingPalette_drops_to_one :
  extractDominantColors white_white_blue 5 = Ok [lit "#e0e0e0"; lit "#204060"]
  /\ Hex.hexToRgb (lit "#e0e0e0") = Ok (224, 224, 224)
  /\ near_white (224, 224, 224) = true
  /\ workingPalette [lit "#e0e0e0"; lit "#204060"] = Ok [lit "#204060"]
  /\ length [lit "#204060"] = 1%nat
  /\ inspectImage white_white_blue
     = Ok [{| step := 1; colors := [lit "#204060"] |}].
Proof. repeat split; vm_compute; reflexivity. Qed.

End InspectFacts.

(** ** ColorMath: more on compositing and blending *)

Module BlendFacts.
Import IEEE IEEESpec IEEEFacts ColorMath ColorMathSpec ColorMathFacts BlendSpec.

Lemma mul_comm (fmt : format) (a b : float) : mul fmt a b = mul fmt b a.
Proof.
  destruct a, b; try reflexivity. cbn [mul]. now rewrite Z.mul_comm.
Qed.

(** The composite does not depend on the order of its arguments, whatever
    they are: finite, infinite or [NaN]. *)
Theorem combineOpacity_comm (a b : float) :
  combineOpacity a b = combineOpacity b a.
Proof. unfold combineOpacity. now rewrite mul_comm. Qed.

Lemma unit32_pos : 0 < unit32.
Proof. vm_compute. reflexivity. Qed.

(** On the unit interval the composite is finite and stays in it. *)
Lemma combineOpacity_unit (na nb : Z) :
  0 <= na <= unit32 -> 0 <= nb <= unit32 ->
  combineOpacity (Fin na) (Fin nb) = Fin (composite na nb)
  /\ 0 <= composite na nb <= unit32.
Proof.
  intros Ha Hb. unfold combineOpacity, composite.
  rewrite !sub_one_unfold.
  destruct (rnd32_unit (num := unit32 - na) (den := 1)) as [-> Bx]; try lia.
  destruct (rnd32_unit (num := unit32 - nb) (den := 1)) as [-> By]; try lia.
  set (x := rndz 24 (unit32 - na) 1) in *.
  set (y := rndz 24 (unit32 - nb) 1) in *.
  pose proof unit32_pos as U0.
  change (mul f32 (Fin x) (Fin y)) with (rnd f32 (x * y) unit32).
  destruct (rnd32_unit (num := x * y) (den := unit32)) as [-> Bq]; try nia.
  rewrite sub_one_unfold.
  destruct (rnd32_unit (num := unit32 - rndz 24 (x * y) unit32) (den := 1))
    as [-> Br]; try lia.
  split; [reflexivity | exact Br].
Qed.

(** The composite grows with each opacity. *)
Theorem combineOpacity_mono (na na' nb : Z) :
  0 <= na -> na <= na' -> na' <= unit32 -> 0 <= nb <= unit32 ->
  exists r r',
    combineOpacity (Fin na) (Fin nb) = Fin r
    /\ combineOpacity (Fin na') (Fin nb) = Fin r'
    /\ r <= r'.
Proof.
  intros A0 AA A1 Hb.
  destruct (@combineOpacity_unit na nb ltac:(lia) Hb) as [E B].
  destruct (@combineOpacity_unit na' nb ltac:(lia) Hb) as [E' B'].
  exists (composite na nb), (composite na' nb).
  split; [exact E|]. split; [exact E'|].
  unfold composite.
  destruct (rnd32_unit (num := unit32 - na) (den := 1)) as [_ Bx]; try lia.
  destruct (rnd32_unit (num := unit32 - na') (den := 1)) as [_ Bx']; try lia.
  destruct (rnd32_unit (num := unit32 - nb) (den := 1)) as [_ By]; try lia.
  set (x := rndz 24 (unit32 - na) 1) in *.
  set (x' := rndz 24 (unit32 - na') 1) in *.
  set (y := rndz 24 (unit32 - nb) 1) in *.
  pose proof unit32_pos as U0.
  assert (X : x' <= x).
  { unfold x, x'.
    apply rndz_mono.
    all: lia. }
  destruct (rnd32_unit (num := x * y) (den := unit32)) as [_ Bq]; try nia.
  destruct (rnd32_unit (num := x' * y) (den := unit32)) as [_ Bq']; try nia.
  assert (Q : rndz 24 (x' * y) unit32 <= rndz 24 (x * y) unit32).
  { apply rndz_mono; try lia; try (apply Z.mul_nonneg_nonneg; lia).
    apply Z.mul_le_mono_nonneg_r; [lia|].
    apply Z.mul_le_mono_nonneg_r; lia. }
  apply rndz_mono; lia.
Qed.

Lemma combineOpacity_mono_witness :
  exists r r',
    combineOpacity (Fin (2 ^ 147)) (Fin (2 ^ 148)) = Fin r
    /\ combineOpacity (Fin (3 * 2 ^ 147)) (Fin (2 ^ 148)) = Fin r'
    /\ r <= r'.
Proof.
  apply combineOpacity_mono;
    try split; vm_compute; discriminate.
Defined.

(** Full opacity absorbs: composed with 1, every opacity gives 1. *)
Theorem combineOpacity_one (na : Z) :
  0 <= na <= unit32 ->
  combineOpacity (Fin na) (Fin unit32) = Fin unit32
  /\ combineOpacity (Fin unit32) (Fin na) = Fin unit32.
Proof.
  intros Ha.
  assert (E : combineOpacity (Fin na) (Fin unit32) = Fin unit32).
  { unfold combineOpacity. rewrite !sub_one_unfold.
    destruct (rnd32_unit (num := unit32 - na) (den := 1)) as [-> Bx]; try lia.
    replace (unit32 - unit32) with 0 by ring.
    change (rnd f32 0 1) with (Fin 0). cbn [mul].
    rewrite Z.mul_0_r. change (rnd f32 0 (one f32)) with (Fin 0).
    rewrite sub_one_unfold. reflexivity. }
  split; [exact E|]. now rewrite combineOpacity_comm.
Qed.

Lemma combineOpacity_one_witness :
  combineOpacity (Fin (2 ^ 147)) (Fin unit32) = Fin unit32
  /\ combineOpacity (Fin unit32) (Fin (2 ^ 147)) = Fin unit32.
Proof. apply combineOpacity_one. split; vm_compute; discriminate. Defined.

(** No opacity is an identity from one half up: the composite of a
    [float] in [0.5, 1] with 0 is that [float]. *)
Theorem combineOpacity_zero (na : Z) :
  representable f32 na = true -> 2 ^ 148 <= na <= unit32 ->
  combineOpacity (Fin na) (Fin 0) = Fin na.
Proof.
  intros R [L U].
  assert (F : fits 24 na) by (apply representable_fits; [lia | exact R]).
  unfold combineOpacity. rewrite !sub_one_unfold.
  replace (unit32 - 0) with unit32 by ring.
  change (rnd f32 unit32 1) with (Fin unit32).
  destruct (rnd32_unit (num := unit32 - na) (den := 1)) as [-> Bx]; try lia.
  rewrite (@one_minus_exact na F (conj L U)).
  cbn [mul]. change (one f32) with unit32.
  rewrite rnd32_unfold, (rndz_scale 24 (unit32 - na) unit32_pos), <- rnd32_unfold.
  assert (Fx : fits 24 (unit32 - na)).
  { rewrite <- (@one_minus_exact na F (conj L U)). apply (rndz_is_fit prec32); lia. }
  destruct (rnd32_unit (num := unit32 - na) (den := 1)) as [-> _]; try lia.
  rewrite (rndz_fits prec32 Fx).
  rewrite sub_one_unfold.
  replace (unit32 - (unit32 - na)) with na by ring.
  destruct (rnd32_unit (num := na) (den := 1)) as [-> _]; try lia.
  now rewrite (rndz_fits prec32 F).
Qed.

Lemma combineOpacity_zero_witness :
  combineOpacity (Fin (3 * 2 ^ 147)) (Fin 0) = Fin (3 * 2 ^ 147).
Proof.
  apply combineOpacity_zero; [vm_compute; reflexivity|].
  split; vm_compute; discriminate.
Defined.

(** *** Blending over white *)

Lemma rnd32_bounded (num den B : Z) :
  0 <= num -> 0 < den -> num <= B * den -> fits 24 B -> B <= largest f32 ->
  rnd f32 num den = Fin (rndz 24 num den) /\ 0 <= rndz 24 num den <= B.
Proof.
  intros N D L F G.
  assert (R : 0 <= rndz 24 num den <= B).
  { split; [now apply rndz_nonneg|].
    rewrite <- (rndz_fits prec32 F). apply rndz_mono; lia. }
  split; [|exact R]. apply rnd_finite. change (prec f32) with 24.
  assert (0 <= largest f32) by (vm_compute; discriminate). lia.
Qed.

Lemma fits_small (c e : Z) : 0 <= c < 2 ^ 24 -> 0 <= e -> fits 24 (c * 2 ^ e).
Proof.
  intros C E. exists c, e. split; [reflexivity|]. split; [|exact E].
  rewrite Z.abs_eq by lia. lia.
Qed.

Lemma rndz32_err (n B : Z) :
  0 <= n <= B ->
  2 * (rndz 24 n 1 - n) <= 2 ^ shift 24 B
  /\ 2 * (n - rndz 24 n 1) <= 2 ^ shift 24 B.
Proof.
  intros [N0 N1].
  destruct (rndz_error prec32 N0 Z.lt_0_1) as [E1 E2].
  rewrite Z.div_1_r in E1, E2.
  assert (K : shift 24 n <= shift 24 B) by (apply shift_mono; lia).
  assert (K0 : 0 <= shift 24 n) by (unfold shift; lia).
  assert (P : 2 ^ shift 24 n <= 2 ^ shift 24 B).
  { apply Z.pow_le_mono_r; lia. }
  lia.
Qed.

(** The blend of a channel with white, for an opacity of the unit
    interval, is a channel. *)
Lemma blended_channel (c na : Z) :
  0 <= c <= 255 -> 0 <= na <= unit32 ->
  blend c (Fin na) = Ok (blended c na / unit32)
  /\ 0 <= blended c na / unit32 <= 255.
Proof.
  intros Hc Ha. pose proof unit32_pos as U0.
  assert (LU : 512 * unit32 <= largest f32) by (vm_compute; discriminate).
  assert (F255 : fits 24 (255 * unit32)) by (apply (@fits_small 255 149); lia).
  assert (F512 : fits 24 (512 * unit32)) by (apply (@fits_small 512 149); lia).
  unfold blend, blended.
  (* the two converted integers *)
  assert (Ic : of_int f32 c = Fin (c * unit32)).
  { assert (Fc : fits 24 (c * unit32)) by (apply (@fits_small c 149); lia).
    unfold of_int. change (one f32) with unit32.
    assert (Lc : c * unit32 <= largest f32) by nia.
    destruct (@rnd32_bounded (c * unit32) 1 (c * unit32)) as [E _];
      try lia; try exact Fc.
    rewrite E, (rndz_fits prec32 Fc). reflexivity. }
  assert (I255 : of_int f32 255 = Fin (255 * unit32)) by reflexivity.
  rewrite Ic, I255, sub_one_unfold.
  destruct (rnd32_unit (num := unit32 - na) (den := 1)) as [-> Bx]; try lia.
  set (x := rndz 24 (unit32 - na) 1) in *.
  (* a * c *)
  cbn [mul]. change (one f32) with unit32.
  replace (na * (c * unit32)) with (na * c * unit32) by ring.
  replace (x * (255 * unit32)) with (255 * x * unit32) by ring.
  rewrite !rnd32_unfold, !(rndz_scale 24 _ U0), <- !rnd32_unfold.
  destruct (rnd32_bounded (num := na * c) (den := 1) (B := 255 * unit32))
    as [-> B1]; try exact F255; try lia; try nia.
  destruct (rnd32_bounded (num := 255 * x) (den := 1) (B := 255 * unit32))
    as [-> B2]; try exact F255; try lia.
  set (t1 := rndz 24 (na * c) 1) in *.
  set (t2 := rndz 24 (255 * x) 1) in *.
  cbn [add].
  destruct (rnd32_bounded (num := t1 + t2) (den := 1) (B := 512 * unit32))
    as [-> B3]; try exact F512; try lia.
  set (t3 := rndz 24 (t1 + t2) 1) in *.
  (* the sum stays below 256 *)
  assert (E1 : 2 * (t1 - na * c) <= 2 ^ 133).
  { change 133 with (shift 24 (255 * unit32)).
    apply (rndz32_err (n := na * c) (B := 255 * unit32)). nia. }
  assert (E2 : 2 * (t2 - 255 * x) <= 2 ^ 133).
  { change 133 with (shift 24 (255 * unit32)).
    apply (rndz32_err (n := 255 * x) (B := 255 * unit32)). lia. }
  pose proof (rndz32_near (n := unit32 - na) ltac:(lia)) as Ex. fold x in Ex.
  unfold half_ulp32 in Ex.
  assert (S : t1 + t2 <= 255 * unit32 + 2 ^ 134).
  { assert (na * c <= 255 * na) by nia.
    clearbody x t1 t2 t3. change unit32 with (2 ^ 149) in *. lia. }
  assert (E3 : 2 * (t3 - (t1 + t2)) <= 2 ^ 133).
  { change 133 with (shift 24 (256 * unit32 - 1)).
    apply (rndz32_err (n := t1 + t2) (B := 256 * unit32 - 1)).
    clearbody x t1 t2 t3. change unit32 with (2 ^ 149) in *. lia. }
  assert (T3 : 0 <= t3 < 256 * unit32).
  { clearbody x t1 t2 t3. change unit32 with (2 ^ 149) in *. lia. }
  assert (Q : 0 <= t3 / unit32 <= 255).
  { split; [apply Z.div_pos; lia|].
    assert (t3 / unit32 < 256) by (apply Z.div_lt_upper_bound; lia). lia. }
  split; [|exact Q].
  unfold to_int. change (one f32) with unit32.
  rewrite Z.quot_div_nonneg by lia.
  destruct (Z.leb_spec (- 2 ^ 31) (t3 / unit32)); [|lia].
  destruct (Z.leb_spec (t3 / unit32) (2 ^ 31 - 1)); [reflexivity | lia].
Qed.

(** For channels in [0,255] and an opacity in [0,1], [rgbaToHex] returns:
    every cast to [int] is defined, the three blended channels are again in
    [0,255], and the text is the one [hexToRgb] reads back as these
    channels. *)
Theorem rgbaToHex_channels (r g b na : Z) :
  0 <= r <= 255 -> 0 <= g <= 255 -> 0 <= b <= 255 -> 0 <= na <= unit32 ->
  exists r' g' b',
    rgbaToHex r g b (Fin na) = Ok (Hex.rgbToHex r' g' b')
    /\ (0 <= r' <= 255 /\ 0 <= g' <= 255 /\ 0 <= b' <= 255)
    /\ Hex.hexToRgb (Hex.rgbToHex r' g' b') = Ok (r', g', b').
Proof.
  intros Hr Hg Hb Ha.
  destruct (blended_channel Hr Ha) as [Er Br].
  destruct (blended_channel Hg Ha) as [Eg Bg].
  destruct (blended_channel Hb Ha) as [Eb Bb].
  exists (blended r na / unit32), (blended g na / unit32),
         (blended b na / unit32).
  split; [|split].
  - unfold rgbaToHex. rewrite Er, Eg, Eb. reflexivity.
  - auto.
  - now apply HexFacts.rgbToHex_read_back.
Qed.

Lemma rgbaToHex_channels_witness :
  exists r' g' b',
    rgbaToHex 255 0 0 (Fin (2 ^ 148)) = Ok (Hex.rgbToHex r' g' b')
    /\ (0 <= r' <= 255 /\ 0 <= g' <= 255 /\ 0 <= b' <= 255)
    /\ Hex.hexToRgb (Hex.rgbToHex r' g' b') = Ok (r', g', b').
Proof.
  apply rgbaToHex_channels; try lia. vm_compute. split; discriminate.
Defined.

Lemma blended_opaque (c : Z) : 0 <= c <= 255 -> blended c unit32 / unit32 = c.
Proof.
  intros Hc. pose proof unit32_pos as U0. unfold blended.
  rewrite Z.sub_diag, (rndz_fits prec32 (zero_fits prec32)), Z.mul_0_r,
    (rndz_fits prec32 (zero_fits prec32)), Z.add_0_r.
  assert (F : fits 24 (unit32 * c)).
  { rewrite Z.mul_comm. apply (@fits_small c 149); lia. }
  rewrite (rndz_fits prec32 F), (rndz_fits prec32 F), Z.mul_comm.
  apply Z.div_mul. lia.
Qed.

Lemma blended_transparent (c : Z) : blended c 0 / unit32 = 255.
Proof.
  pose proof unit32_pos as U0. unfold blended.
  rewrite Z.mul_0_l, Z.sub_0_r, (rndz_fits prec32 (zero_fits prec32)),
    (rndz_fits prec32 unit32_fits), Z.add_0_l.
  assert (F : fits 24 (255 * unit32)) by (apply (@fits_small 255 149); lia).
  rewrite (rndz_fits prec32 F), (rndz_fits prec32 F).
  apply Z.div_mul. lia.
Qed.

(** At the two ends of the opacity range the blend is exact: a fully
    opaque colour is written unchanged, and a fully transparent one is
    written as white, whatever its channels are. *)
Theorem rgbaToHex_endpoints (r g b : Z) :
  0 <= r <= 255 -> 0 <= g <= 255 -> 0 <= b <= 255 ->
  rgbaToHex r g b (of_int f32 1) = Ok (Hex.rgbToHex r g b)
  /\ rgbaToHex r g b (of_int f32 0) = Ok (lit "#ffffff").
Proof.
  intros Hr Hg Hb. pose proof unit32_pos as U0.
  change (of_int f32 1) with (Fin unit32).
  change (of_int f32 0) with (Fin 0).
  assert (H1 : 0 <= unit32 <= unit32) by lia.
  assert (H0 : 0 <= 0 <= unit32) by lia.
  split; unfold rgbaToHex.
  - rewrite (proj1 (blended_channel Hr H1)), (proj1 (blended_channel Hg H1)),
      (proj1 (blended_channel Hb H1)).
    cbn [bind]. now rewrite !blended_opaque.
  - rewrite (proj1 (blended_channel Hr H0)), (proj1 (blended_channel Hg H0)),
      (proj1 (blended_channel Hb H0)).
    cbn [bind]. rewrite !blended_transparent. reflexivity.
Qed.

Lemma rgbaToHex_endpoints_witness :
  rgbaToHex 18 52 86 (of_int f32 1) = Ok (Hex.rgbToHex 18 52 86)
  /\ rgbaToHex 18 52 86 (of_int f32 0) = Ok (lit "#ffffff").
Proof. apply rgbaToHex_endpoints; lia. Defined.

(** Blending keeps the order of channels: at one opacity of [0,1] a
    lighter channel never comes out darker than a darker one. *)
Theorem blend_mono (c c' na : Z) :
  0 <= c -> c <= c' -> c' <= 255 -> 0 <= na <= unit32 ->
  exists z z', blend c (Fin na) = Ok z /\ blend c' (Fin na) = Ok z' /\ z <= z'.
Proof.
  intros C0 CC C1 Ha. pose proof unit32_pos as U0.
  destruct (@blended_channel c na ltac:(lia) Ha) as [E _].
  destruct (@blended_channel c' na ltac:(lia) Ha) as [E' _].
  exists (blended c na / unit32), (blended c' na / unit32).
  split; [exact E|]. split; [exact E'|].
  apply Z.div_le_mono; [lia|]. unfold blended.
  set (t := rndz 24 (255 * rndz 24 (unit32 - na) 1) 1).
  assert (T0 : 0 <= t).
  { apply rndz_nonneg; [lia| |lia].
    apply Z.mul_nonneg_nonneg; [lia|]. apply rndz_nonneg; lia. }
  assert (M : rndz 24 (na * c) 1 <= rndz 24 (na * c') 1).
  { apply rndz_mono; try lia; try (apply Z.mul_nonneg_nonneg; lia); nia. }
  assert (N0 : 0 <= rndz 24 (na * c) 1).
  { apply rndz_nonneg; try lia; apply Z.mul_nonneg_nonneg; lia. }
  apply rndz_mono; lia.
Qed.

Lemma blend_mono_witness :
  exists z z',
    blend 10 (Fin (2 ^ 148)) = Ok z /\ blend 200 (Fin (2 ^ 148)) = Ok z'
    /\ z <= z'.
Proof.
  apply blend_mono; try lia. vm_compute. split; discriminate.
Defined.

End BlendFacts.

(** ** ColorMath: the shape of colour texts *)

Module HexTextFacts.
Import Hex HexSpec HexText HexFacts.

Lemma forallb_firstn {A} (f : A -> bool) (n : nat) (l : list A) :
  forallb f l = true -> forallb f (firstn n l) = true.
Proof.
  revert n. induction l as [|a l IH]; intros [|n] H; try reflexivity.
  simpl in *. apply andb_prop in H. destruct H as [-> H]. now apply IH.
Qed.

Lemma digits16_length (n : nat) (u : Z) : length (digits16 n u) = n.
Proof.
  revert u. induction n as [|n IH]; intros u; simpl; [reflexivity|].
  rewrite length_app, IH. simpl. lia.
Qed.

Lemma digit_char_lower (u : Z) : lower_xdigit (digit_char (u mod 16)) = true.
Proof.
  pose proof (Z.mod_pos_bound u 16 ltac:(lia)) as B.
  assert (A : forallb (fun d => lower_xdigit (digit_char (Z.of_nat d)))
                      (seq 0 16) = true) by reflexivity.
  rewrite forallb_forall in A.
  specialize (A (Z.to_nat (u mod 16))). rewrite Z2Nat.id in A by lia.
  apply A, in_seq. lia.
Qed.

Lemma digits16_lower (n : nat) (u : Z) :
  forallb lower_xdigit (digits16 n u) = true.
Proof.
  revert u. induction n as [|n IH]; intros u; simpl; [reflexivity|].
  rewrite forallb_app, IH. simpl. now rewrite digit_char_lower.
Qed.

Lemma drop_zeros_length (keep : nat) (s : str) :
  (keep <= length s)%nat -> (keep <= length (drop_zeros keep s))%nat.
Proof.
  induction s as [|c t IH]; intros L; [exact L|].
  cbn [drop_zeros].
  destruct c as [[] [] [] [] [] [] [] []]; try exact L.
  destruct (Nat.ltb_spec keep (length ("0"%char :: t))) as [K|K]; [|exact L].
  apply IH. simpl in K. lia.
Qed.

Lemma fmt_02x_length (v : Z) : (2 <= length (fmt_02x v))%nat.
Proof.
  unfold fmt_02x. apply drop_zeros_length. rewrite digits16_length. lia.
Qed.

Lemma fmt_02x_lower (v : Z) : forallb lower_xdigit (fmt_02x v) = true.
Proof.
  unfold fmt_02x. apply FloatTextFacts.drop_zeros_forall, digits16_lower.
Qed.

(** Whatever the three integers are, in [0,255] or not, [rgbToHex] writes
    seven characters: a [#] and six lower-case hexadecimal digits.  A
    channel outside [0,255] is not clamped; its digits push the later ones
    out of the buffer. *)
Theorem rgbToHex_shape (r g b : Z) :
  exists t, rgbToHex r g b = "#"%char :: t
            /\ length t = 6%nat
            /\ forallb lower_xdigit t = true.
Proof.
  unfold rgbToHex. cbn [firstn].
  exists (firstn 6 (fmt_02x r ++ fmt_02x g ++ fmt_02x b)).
  split; [reflexivity|]. split.
  - rewrite length_firstn, !length_app.
    pose proof (fmt_02x_length r). pose proof (fmt_02x_length g).
    pose proof (fmt_02x_length b). lia.
  - apply forallb_firstn. now rewrite !forallb_app, !fmt_02x_lower.
Qed.

(** On channels, [rgbToHex] is injective: two different colours never get
    the same text. *)
Theorem rgbToHex_injective (r g b r' g' b' : Z) :
  0 <= r <= 255 -> 0 <= g <= 255 -> 0 <= b <= 255 ->
  0 <= r' <= 255 -> 0 <= g' <= 255 -> 0 <= b' <= 255 ->
  (r, g, b) <> (r', g', b') -> rgbToHex r g b <> rgbToHex r' g' b'.
Proof.
  intros Hr Hg Hb Hr' Hg' Hb' N E. apply N.
  pose proof (rgbToHex_read_back Hr Hg Hb) as A.
  pose proof (rgbToHex_read_back Hr' Hg' Hb') as A'.
  rewrite E, A' in A. congruence.
Qed.

Lemma rgbToHex_injective_witness : rgbToHex 1 2 3 <> rgbToHex 1 2 4.
Proof. apply rgbToHex_injective; try lia. discriminate. Defined.

(** *** Reading hexadecimal digits *)

Lemma pair_checked (c1 c2 : ascii) : pair_check c1 c2 = true.
Proof. revert c1 c2. apply ascii_forall2. vm_compute. reflexivity. Qed.

Lemma stoi16_pair (c1 c2 : ascii) :
  is_xdigit c1 = true -> is_xdigit c2 = true ->
  stoi16 [c1; c2] = Ok (pair_value c1 c2)
  /\ fmt_02x (pair_value c1 c2) = [to_lower c1; to_lower c2].
Proof.
  intros H1 H2. pose proof (pair_checked c1 c2) as P.
  unfold pair_check in P. rewrite H1, H2 in P. cbn [andb] in P.
  destruct (stoi16 [c1; c2]) as [v|e]; [|discriminate].
  apply andb_prop in P. destruct P as [V F].
  apply Z.eqb_eq in V. subst v. apply str_eqb_eq in F. now split.
Qed.

Lemma strip_hash_xdigit (c : ascii) (t : str) :
  is_xdigit c = true -> strip_hash (c :: t) = c :: t.
Proof.
  intros H. unfold strip_hash.
  destruct c as [[] [] [] [] [] [] [] []]; try reflexivity; discriminate H.
Qed.

Lemma value_range (c : ascii) : 0 <= value c <= 15.
Proof.
  assert (A : forall c, (0 <=? value c) && (value c <=? 15) = true).
  { apply ascii_forall. vm_compute. reflexivity. }
  specialize (A c). apply andb_prop in A. lia.
Qed.

(** Six hexadecimal digits, in either case and with or without the [#],
    are read as three channels of [0,255]: each pair of digits as sixteen
    times the first digit plus the second. *)
Theorem hexToRgb_digits (d1 d2 d3 d4 d5 d6 : ascii) :
  forallb is_xdigit [d1; d2; d3; d4; d5; d6] = true ->
  let c := (pair_value d1 d2, pair_value d3 d4, pair_value d5 d6) in
  hexToRgb [d1; d2; d3; d4; d5; d6] = Ok c
  /\ hexToRgb ("#"%char :: [d1; d2; d3; d4; d5; d6]) = Ok c
  /\ 0 <= pair_value d1 d2 <= 255
  /\ 0 <= pair_value d3 d4 <= 255
  /\ 0 <= pair_value d5 d6 <= 255.
Proof.
  intros H c. cbn [forallb] in H.
  repeat (apply andb_prop in H; destruct H as [?X H]).
  assert (E : forall s, strip_hash s = [d1; d2; d3; d4; d5; d6] ->
                        hexToRgb s = Ok c).
  { intros s S. unfold hexToRgb. rewrite S.
    cbn [length Nat.eqb substr Nat.ltb Nat.leb firstn skipn bind].
    rewrite (proj1 (@stoi16_pair d1 d2 X X0)). cbn [bind].
    rewrite (proj1 (@stoi16_pair d3 d4 X1 X2)). cbn [bind].
    rewrite (proj1 (@stoi16_pair d5 d6 X3 X4)). reflexivity. }
  split; [apply E; now apply strip_hash_xdigit|].
  split; [apply E; reflexivity|].
  unfold pair_value.
  pose proof (value_range d1). pose proof (value_range d2).
  pose proof (value_range d3). pose proof (value_range d4).
  pose proof (value_range d5). pose proof (value_range d6). lia.
Qed.

Lemma hexToRgb_digits_witness :
  let c := (pair_value "F" "f", pair_value "8" "0", pair_value "0" "a") in
  hexToRgb (lit "Ff800a") = Ok c
  /\ hexToRgb (lit "#Ff800a") = Ok c
  /\ 0 <= pair_value "F" "f" <= 255
  /\ 0 <= pair_value "8" "0" <= 255
  /\ 0 <= pair_value "0" "a" <= 255.
Proof. apply (@hexToRgb_digits "F" "f" "8" "0" "0" "a"). reflexivity. Defined.

(** The three-digit shorthand is read as the six-digit code with every
    digit doubled: each channel is seventeen times its digit. *)
Theorem hexToRgb_shorthand (d1 d2 d3 : ascii) :
  forallb is_xdigit [d1; d2; d3] = true ->
  let c := (17 * value d1, 17 * value d2, 17 * value d3) in
  hexToRgb [d1; d2; d3] = Ok c
  /\ hexToRgb ("#"%char :: [d1; d2; d3]) = Ok c.
Proof.
  intros H c. cbn [forallb] in H.
  repeat (apply andb_prop in H; destruct H as [?X H]).
  assert (E : forall s, strip_hash s = [d1; d2; d3] -> hexToRgb s = Ok c).
  { intros s S. unfold hexToRgb. rewrite S.
    cbn [length Nat.eqb expand substr Nat.ltb Nat.leb firstn skipn bind].
    rewrite (proj1 (@stoi16_pair d1 d1 X X)). cbn [bind].
    rewrite (proj1 (@stoi16_pair d2 d2 X0 X0)). cbn [bind].
    rewrite (proj1 (@stoi16_pair d3 d3 X1 X1)). cbn [bind].
    unfold c, pair_value.
    replace (16 * value d1 + value d1) with (17 * value d1) by lia.
    replace (16 * value d2 + value d2) with (17 * value d2) by lia.
    replace (16 * value d3 + value d3) with (17 * value d3) by lia.
    reflexivity. }
  split; apply E; [now apply strip_hash_xdigit | reflexivity].
Qed.

Lemma hexToRgb_shorthand_witness :
  let c := (17 * value "a", 17 * value "B", 17 * value "3") in
  hexToRgb (lit "aB3") = Ok c /\ hexToRgb (lit "#aB3") = Ok c.
Proof. apply (@hexToRgb_shorthand "a" "B" "3"). reflexivity. Defined.

(** Reading six hexadecimal digits and writing the colour again gives the
    same digits in lower case after a [#]: [rgbToHex] undoes [hexToRgb] up
    to the case of the letters. *)
Theorem rgbToHex_hexToRgb (d1 d2 d3 d4 d5 d6 : ascii) (r g b : Z) :
  forallb is_xdigit [d1; d2; d3; d4; d5; d6] = true ->
  hexToRgb [d1; d2; d3; d4; d5; d6] = Ok (r, g, b) ->
  rgbToHex r g b = "#"%char :: map to_lower [d1; d2; d3; d4; d5; d6].
Proof.
  intros H E. cbn [forallb] in H.
  repeat (apply andb_prop in H; destruct H as [?X H]).
  unfold hexToRgb in E. rewrite strip_hash_xdigit in E by assumption.
  cbn [length Nat.eqb substr Nat.ltb Nat.leb firstn skipn bind] in E.
  destruct (@stoi16_pair d1 d2 X X0) as [S1 F1].
  destruct (@stoi16_pair d3 d4 X1 X2) as [S2 F2].
  destruct (@stoi16_pair d5 d6 X3 X4) as [S3 F3].
  rewrite S1 in E. cbn [bind] in E. rewrite S2 in E. cbn [bind] in E.
  rewrite S3 in E. cbn [bind] in E. injection E as <- <- <-.
  unfold rgbToHex. rewrite F1, F2, F3. reflexivity.
Qed.

Lemma rgbToHex_hexToRgb_witness :
  rgbToHex 255 128 10 = "#"%char :: map to_lower (lit "Ff800A").
Proof.
  apply (@rgbToHex_hexToRgb "F" "f" "8" "0" "0" "A" 255 128 10); reflexivity.
Defined.

End HexTextFacts.

(** ** ColorMapper: failures, exact matches and repeated mapping *)

Module NearestFacts.
Import IEEE IEEESpec ColorMapper MapperSpec MapperFacts.

Lemma findNearestColor_nearest (color : str) (colorList : list str) :
  ok color -> Forall ok colorList -> colorList <> [] ->
  exists c, findNearestColor color colorList = Ok c
    /\ first_nearest (rgb_of color) colorList c.
Proof.
  intros Ht Hl Ne.
  destruct (accepted_rgb_of color Ht) as [Et Rt].
  unfold findNearestColor. rewrite Et, bind_Ok.
  destruct colorList as [|first rest]; [congruence|].
  destruct (@nearest_loop_spec (rgb_of color) (first :: rest) Rt Hl [] DBL_MAX first)
    as (c & E & [[N _]|F]).
  - constructor.
  - left. now split.
  - discriminate.
  - exists c. now split.
Qed.

Lemma not_ok_throws (c : str) :
  HexSpec.accepted c = false -> throws (Hex.hexToRgb c).
Proof.
  intros A. pose proof (HexFacts.hexToRgb_spec c) as S. now rewrite A in S.
Qed.

(** One candidate that is no colour text makes the loop fail, wherever it
    stands and whatever was found before it. *)
Lemma nearest_loop_throws (t : Z * Z * Z) (l : list str) :
  Exists (fun c => HexSpec.accepted c = false) l ->
  forall minDistance nearest, throws (nearest_loop t minDistance nearest l).
Proof.
  induction 1 as [c rest Bad | c rest _ IH]; intros minD nearest;
    cbn [nearest_loop].
  - destruct (not_ok_throws c Bad) as [e ->]. now exists e.
  - destruct (Hex.hexToRgb c) as [rgb|e]; [|now exists e].
    rewrite bind_Ok. cbv zeta.
    destruct (ltb (distance t rgb) minD); apply IH.
Qed.

Lemma Forall_or_Exists (l : list str) :
  Forall ok l \/ Exists (fun c => HexSpec.accepted c = false) l.
Proof.
  induction l as [|c l [F|E]].
  - left. constructor.
  - unfold ok at 1. destruct (HexSpec.accepted c) eqn:A.
    + left. now constructor.
    + right. now constructor.
  - right. now constructor.
Qed.

(** [findNearestColor] fails exactly when the target is no colour text, the
    list is empty, or some candidate, anywhere in the list, is no colour
    text: every candidate is parsed, also after an exact match. *)
Theorem findNearestColor_throws_iff (color : str) (colorList : list str) :
  throws (findNearestColor color colorList)
  <-> HexSpec.accepted color = false
      \/ colorList = []
      \/ Exists (fun c => HexSpec.accepted c = false) colorList.
Proof.
  split.
  - intros [e T].
    destruct (HexSpec.accepted color) eqn:A; [|now left]. right.
    destruct colorList as [|first rest]; [now left|]. right.
    destruct (Forall_or_Exists (first :: rest)) as [F|E]; [|exact E].
    destruct (@findNearestColor_nearest color (first :: rest) A F
                ltac:(discriminate)) as (c & Ec & _).
    congruence.
  - intros [A|[->|E]].
    + unfold findNearestColor.
      destruct (not_ok_throws color A) as [e ->]. now exists e.
    + unfold findNearestColor.
      destruct (Hex.hexToRgb color) as [rgb|e]; [|now exists e].
      now exists undefined_behaviour.
    + unfold findNearestColor.
      destruct (Hex.hexToRgb color) as [rgb|e]; [|now exists e].
      rewrite bind_Ok. destruct colorList as [|first rest].
      * inversion E.
      * now apply nearest_loop_throws.
Qed.

Lemma sqdist_zero (a b : Z * Z * Z) : sqdist a b <= 0 -> a = b.
Proof.
  destruct a as [[ar ag] ab], b as [[br bg] bb]. unfold sqdist. intros H.
  pose proof (Z.square_nonneg (ar - br)) as Sr.
  pose proof (Z.square_nonneg (ag - bg)) as Sg.
  pose proof (Z.square_nonneg (ab - bb)) as Sb.
  assert (Qr : (ar - br) * (ar - br) = 0) by lia.
  assert (Qg : (ag - bg) * (ag - bg) = 0) by lia.
  assert (Qb : (ab - bb) * (ab - bb) = 0) by lia.
  apply Z.mul_eq_0 in Qr, Qg, Qb.
  f_equal; [f_equal|]; lia.
Qed.

Lemma sqdist_nonneg (a b : Z * Z * Z) : 0 <= sqdist a b.
Proof.
  destruct a as [[ar ag] ab], b as [[br bg] bb]. unfold sqdist.
  pose proof (Z.square_nonneg (ar - br)).
  pose proof (Z.square_nonneg (ag - bg)).
  pose proof (Z.square_nonneg (ab - bb)). lia.
Qed.

Lemma sqdist_refl (a : Z * Z * Z) : sqdist a a = 0.
Proof. destruct a as [[ar ag] ab]. unfold sqdist. lia. Qed.

(** A target whose colour is in the list is mapped to a candidate of
    exactly that colour: the first one in the list. *)
Theorem findNearestColor_exact (color : str) (colorList : list str) (c0 : str) :
  HexSpec.accepted color = true ->
  Forall (fun c => HexSpec.accepted c = true) colorList ->
  In c0 colorList -> rgb_of c0 = rgb_of color ->
  exists c pre post,
    findNearestColor color colorList = Ok c
    /\ colorList = pre ++ c :: post
    /\ rgb_of c = rgb_of color
    /\ forall c', In c' pre -> rgb_of c' <> rgb_of color.
Proof.
  intros Ht Hl I0 E0.
  assert (Ne : colorList <> []) by (intros ->; inversion I0).
  destruct (findNearestColor_nearest Ht Hl Ne)
    as (c & Ec & pre & post & D & Min & Strict).
  assert (Z0 : sqdist (rgb_of color) (rgb_of c) <= 0).
  { specialize (Min c0 I0). rewrite E0, sqdist_refl in Min. exact Min. }
  exists c, pre, post. split; [exact Ec|]. split; [exact D|]. split.
  - symmetry. now apply sqdist_zero.
  - intros c' I' E'. specialize (Strict c' I').
    rewrite E', sqdist_refl in Strict.
    pose proof (sqdist_nonneg (rgb_of color) (rgb_of c)). lia.
Qed.

Lemma findNearestColor_exact_witness :
  exists c pre post,
    findNearestColor (lit "#FFF") [lit "#000000"; lit "ffffff"; lit "#ffffff"]
      = Ok c
    /\ [lit "#000000"; lit "ffffff"; lit "#ffffff"] = pre ++ c :: post
    /\ rgb_of c = rgb_of (lit "#FFF")
    /\ forall c', In c' pre -> rgb_of c' <> rgb_of (lit "#FFF").
Proof.
  apply (@findNearestColor_exact (lit "#FFF")
           [lit "#000000"; lit "ffffff"; lit "#ffffff"] (lit "#ffffff")).
  - reflexivity.
  - repeat constructor.
  - simpl. auto.
  - reflexivity.
Defined.

Lemma split_compare {A} (pre pre' post post' : list A) (a b : A) :
  pre ++ a :: post = pre' ++ b :: post' ->
  In a pre' \/ In b pre \/ a = b.
Proof.
  revert pre'. induction pre as [|x pre IH]; intros [|y pre'] E; simpl in E.
  - right. right. congruence.
  - left. left. congruence.
  - right. left. left. congruence.
  - injection E as <- E. destruct (IH pre' E) as [I|[I|I]].
    + left. now right.
    + right. left. now right.
    + right. now right.
Qed.

(** Mapping is a projection onto the list: a colour that [findNearestColor]
    returned is mapped to itself, the very same text. *)
Theorem findNearestColor_idempotent (color : str) (colorList : list str) (c : str) :
  HexSpec.accepted color = true ->
  Forall (fun c => HexSpec.accepted c = true) colorList ->
  findNearestColor color colorList = Ok c ->
  findNearestColor c colorList = Ok c.
Proof.
  intros Ht Hl E.
  assert (Ne : colorList <> []).
  { intros ->. unfold findNearestColor in E.
    destruct (Hex.hexToRgb color); discriminate. }
  destruct (findNearestColor_nearest Ht Hl Ne)
    as (c1 & E1 & pre & post & D & Min & Strict).
  assert (c1 = c) by congruence. subst c1.
  assert (Ic : In c colorList).
  { rewrite D. apply in_or_app. right. now left. }
  assert (Hc : ok c) by (rewrite Forall_forall in Hl; now apply Hl).
  destruct (findNearestColor_nearest Hc Hl Ne)
    as (c2 & E2 & pre2 & post2 & D2 & Min2 & Strict2).
  rewrite E2. f_equal.
  assert (Z2 : rgb_of c = rgb_of c2).
  { apply sqdist_zero. specialize (Min2 c Ic). now rewrite sqdist_refl in Min2. }
  rewrite D in D2. destruct (@split_compare _ pre pre2 post post2 c c2 D2) as [I|[I|I]].
  - specialize (Strict2 c I). rewrite <- Z2, sqdist_refl in Strict2. lia.
  - specialize (Strict c2 I). rewrite Z2 in Strict. lia.
  - now symmetry.
Qed.

Lemma findNearestColor_idempotent_witness :
  findNearestColor (lit "#000000") [lit "#000000"; lit "#ffffff"]
  = Ok (lit "#000000").
Proof.
  apply (@findNearestColor_idempotent (lit "#101010")
           [lit "#000000"; lit "#ffffff"] (lit "#000000")).
  - reflexivity.
  - repeat constructor.
  - vm_compute. reflexivity.
Defined.

End NearestFacts.

(** ** SvgNormalizer: what [optimizeSvg] keeps and what it removes *)

Module NormalFacts.
Import Text TextFacts Normalizer NormalizerSpec NormalizerFacts NormalSpec.

Lemma tidy_from_app (pre : str) (c : ascii) (post : str) (b : bool) :
  tidy_from b (pre ++ c :: post) = true -> exists b', tidy_from b' (c :: post) = true.
Proof.
  revert b. induction pre as [|x pre IH]; intros b H.
  - now exists b.
  - simpl in H. destruct (Hex.isspace x).
    + apply andb_prop in H. destruct H as [_ H]. now apply IH with true.
    + now apply IH with false.
Qed.

(** In the result of [optimizeSvg] the only white space left is the single
    blank: no tab and no line break, and no blank next to another one. *)
Theorem optimizeSvg_blanks (s pre post : str) (c : ascii) :
  optimizeSvg s = pre ++ c :: post -> Hex.isspace c = true ->
  c = " "%char
  /\ forall d rest, post = d :: rest -> Hex.isspace d = false.
Proof.
  intros E W.
  assert (T : tidy_from false (optimizeSvg s) = true).
  { unfold optimizeSvg. fold (squeeze (collapse_space s)).
    apply squeeze_tidy, collapse_from_tidy. }
  rewrite E in T. apply tidy_from_app in T. destruct T as [b T].
  cbn [tidy_from] in T. rewrite W in T.
  apply andb_prop in T. destruct T as [T T3].
  apply andb_prop in T. destruct T as [T1 _].
  split; [now apply Ascii.eqb_eq in T1|].
  intros d rest ->. cbn [tidy_from] in T3.
  destruct (Hex.isspace d); [|reflexivity].
  rewrite andb_false_r in T3. discriminate.
Qed.

Lemma optimizeSvg_blanks_witness :
  " "%char = " "%char
  /\ forall d rest, lit "d='M0 0'" = d :: rest -> Hex.isspace d = false.
Proof.
  apply (@optimizeSvg_blanks (lit "<path  d='M0 0'")
           (lit "<path") (lit "d='M0 0'") " "%char);
    reflexivity.
Defined.

Lemma squeeze_no_gap (s : str) : forall pre post, squeeze s <> pre ++ gap ++ post.
Proof.
  induction s as [s IH] using str_length_ind. intros pre post H.
  destruct s as [|c t].
  { rewrite squeeze_nil in H. destruct pre; discriminate. }
  destruct (squeeze_cases c t) as [(r & E & L & R)|[E R]]; rewrite R in H.
  - destruct pre as [|x [|y pre]]; try discriminate.
    simpl in H. injection H as _ _ H. now apply (IH r L pre post).
  - destruct pre as [|x pre].
    + simpl in H. injection H as -> H.
      apply squeeze_head in H; [|discriminate].
      destruct H as (t1 & -> & H).
      symmetry in H. apply squeeze_head in H; [|discriminate].
      destruct H as (t2 & -> & _). discriminate.
    + simpl in H. injection H as _ H.
      apply (IH t) with pre post; [simpl; lia | exact H].
Qed.

Lemma optimizeSvg_no_gap_aux (s : str) : ~ occurs gap (optimizeSvg s).
Proof.
  intros (pre & post & H). unfold optimizeSvg in H.
  fold (squeeze (collapse_space s)) in H. now apply squeeze_no_gap in H.
Qed.

(** The result of [optimizeSvg] has no gap [> <] left: the one pass of the
    second replacement closes them all, and closing one opens no new one. *)
Theorem optimizeSvg_no_gap (s : str) : ~ occurs gap (optimizeSvg s).
Proof. apply optimizeSvg_no_gap_aux. Qed.

Lemma collapse_from_length (b : bool) (s : str) :
  (length (collapse_from b s) <= length s)%nat.
Proof.
  revert b. induction s as [|c t IH]; intros b; simpl; [lia|].
  pose proof (IH true). pose proof (IH false).
  destruct (Hex.isspace c); [destruct b|]; simpl; lia.
Qed.

Lemma squeeze_length (s : str) : (length (squeeze s) <= length s)%nat.
Proof.
  induction s as [s IH] using str_length_ind.
  destruct s as [|c t]; [simpl; lia|].
  destruct (squeeze_cases c t) as [(r & E & L & R)|[E R]]; rewrite R.
  - rewrite E. specialize (IH r L). simpl. lia.
  - specialize (IH t ltac:(simpl; lia)). simpl. lia.
Qed.

Lemma collapse_from_ink (b : bool) (s : str) : ink (collapse_from b s) = ink s.
Proof.
  revert b. induction s as [|c t IH]; intros b; simpl; [reflexivity|].
  destruct (Hex.isspace c) eqn:E.
  - destruct b; simpl; apply IH.
  - simpl. rewrite E. simpl. f_equal. apply IH.
Qed.

Lemma squeeze_ink (s : str) : ink (squeeze s) = ink s.
Proof.
  induction s as [s IH] using str_length_ind.
  destruct s as [|c t]; [reflexivity|].
  destruct (squeeze_cases c t) as [(r & E & L & R)|[E R]]; rewrite R.
  - rewrite E. simpl. do 2 f_equal. now apply IH.
  - simpl. rewrite IH by (simpl; lia). reflexivity.
Qed.

(** [optimizeSvg] only removes or changes white space: the other
    characters of the text are all kept, in their order, and the result is
    never longer than the text. *)
Theorem optimizeSvg_ink (s : str) :
  ink (optimizeSvg s) = ink s
  /\ (length (optimizeSvg s) <= length s)%nat.
Proof.
  unfold optimizeSvg. fold (squeeze (collapse_space s)). split.
  - rewrite squeeze_ink. apply collapse_from_ink.
  - pose proof (squeeze_length (collapse_space s)).
    pose proof (collapse_from_length false s). unfold collapse_space in *. lia.
Qed.

(** The texts that [optimizeSvg] leaves as they are: those whose white
    space is single blanks only and that have no gap [> <]. *)
Theorem optimizeSvg_fixed_iff (s : str) :
  optimizeSvg s = s <-> tidy_from false s = true /\ ~ occurs gap s.
Proof.
  split.
  - intros E. split.
    + rewrite <- E. unfold optimizeSvg. fold (squeeze (collapse_space s)).
      apply squeeze_tidy, collapse_from_tidy.
    + rewrite <- E. apply optimizeSvg_no_gap_aux.
  - intros [T N]. unfold optimizeSvg, collapse_space.
    rewrite (collapse_from_fixed _ _ T).
    apply FlattenFacts.replace_all_absent; [discriminate|].
    intros pre post H. apply N. now exists pre, post.
Qed.

End NormalFacts.

(** ** SvgNormalizer: [viewboxify] *)

Module ViewboxFacts.
Import Text TextFacts FloatTextFacts Viewbox NormalSpec ViewboxSpec.

Lemma dquote_not_digit : is_digit dquote = false.
Proof. reflexivity. Qed.

Lemma match_size_Some (open s v : str) :
  match_size open s = Some v ->
  v <> [] /\ forallb is_digit v = true
  /\ exists rest, s = open ++ v ++ dquote :: rest.
Proof.
  unfold match_size.
  destruct (strip_prefix open s) as [t|] eqn:E; [|discriminate].
  apply strip_prefix_Some in E.
  destruct (span is_digit t) as [a b] eqn:S.
  apply span_eq in S. destruct S as [-> F].
  destruct a as [|x a]; [discriminate|].
  destruct b as [|q b]; [discriminate|].
  destruct (Ascii.eqb_spec q dquote) as [->|]; [|discriminate].
  intros H. injection H as <-.
  split; [discriminate|]. split; [exact F|].
  exists b. exact E.
Qed.

Lemma match_size_found (open v rest : str) :
  v <> [] -> forallb is_digit v = true ->
  match_size open (open ++ v ++ dquote :: rest) = Some v.
Proof.
  intros N F. unfold match_size. rewrite strip_prefix_app.
  rewrite (@span_app is_digit v dquote rest F dquote_not_digit).
  destruct v; [congruence|]. now rewrite Ascii.eqb_refl.
Qed.

Lemma search_size_Some (open s v : str) :
  search_size open s = Some v -> v <> [] /\ forallb is_digit v = true.
Proof.
  induction s as [|c t IH]; [discriminate|]. cbn [search_size].
  destruct (match_size open (c :: t)) as [u|] eqn:M.
  - intros H. injection H as <-. apply match_size_Some in M. tauto.
  - exact IH.
Qed.

(** The search passes over a run of digits when the pattern starts with
    another character. *)
Lemma search_size_digits (c : ascii) (open v rest : str) :
  is_digit c = false -> forallb is_digit v = true ->
  search_size (c :: open) (v ++ rest) = search_size (c :: open) rest.
Proof.
  intros C. induction v as [|d v IH]; intros F; [reflexivity|].
  simpl in F. apply andb_prop in F. destruct F as [D F].
  change ((d :: v) ++ rest) with (d :: (v ++ rest)).
  cbn [search_size]. unfold match_size at 1. cbn [strip_prefix].
  destruct (Ascii.eqb_spec c d) as [->|_]; [congruence|]. now apply IH.
Qed.

Lemma replace_first_prefix (old new r : str) :
  old <> [] -> replace_first old new (old ++ r) = new ++ r.
Proof.
  intros N. destruct old as [|c old]; [congruence|].
  change ((c :: old) ++ r) with (c :: (old ++ r)). cbn [replace_first].
  change (c :: old ++ r) with ((c :: old) ++ r).
  now rewrite strip_prefix_app.
Qed.

Lemma search_size_found (open v rest : str) :
  open <> [] -> size v ->
  search_size open (open ++ v ++ dquote :: rest) = Some v.
Proof.
  intros N [V F]. destruct open as [|c open]; [congruence|].
  change ((c :: open) ++ v ++ dquote :: rest)
    with (c :: (open ++ v ++ dquote :: rest)).
  cbn [search_size].
  change (c :: open ++ v ++ dquote :: rest)
    with ((c :: open) ++ v ++ dquote :: rest).
  now rewrite match_size_found.
Qed.

Lemma clash_strip (p s r : str) :
  clash p s = true -> strip_prefix p (s ++ r) = None.
Proof.
  revert s. induction p as [|a p IH]; intros [|b s] H; try discriminate.
  simpl in *. destruct (Ascii.eqb a b); [|reflexivity]. now apply IH.
Qed.

Lemma clash_app (p q s : str) : clash p s = true -> clash (p ++ q) s = true.
Proof.
  revert s. induction p as [|a p IH]; intros [|b s] H; try discriminate.
  simpl in *. destruct (Ascii.eqb a b); [|reflexivity]. now apply IH.
Qed.

Lemma clear_of_app (p q s : str) : clear_of p s = true -> clear_of (p ++ q) s = true.
Proof.
  induction s as [|c t IH]; intros H; [reflexivity|].
  cbn [clear_of] in *. apply andb_prop in H. destruct H as [H1 H2].
  rewrite (clash_app _ _ _ H1). now apply IH.
Qed.

Lemma clear_of_search (open pre r : str) :
  clear_of open pre = true ->
  search_size open (pre ++ r) = search_size open r.
Proof.
  induction pre as [|c t IH]; intros H; [reflexivity|].
  cbn [clear_of] in H. apply andb_prop in H. destruct H as [H1 H2].
  change ((c :: t) ++ r) with (c :: (t ++ r)). cbn [search_size].
  unfold match_size.
  change (c :: t ++ r) with ((c :: t) ++ r).
  rewrite (clash_strip _ _ r H1). now apply IH.
Qed.

Lemma clear_of_replace (old new pre r : str) :
  clear_of old pre = true ->
  replace_first old new (pre ++ r) = pre ++ replace_first old new r.
Proof.
  induction pre as [|c t IH]; intros H; [reflexivity|].
  cbn [clear_of] in H. apply andb_prop in H. destruct H as [H1 H2].
  change ((c :: t) ++ r) with (c :: (t ++ r)). cbn [replace_first].
  change (c :: t ++ r) with ((c :: t) ++ r).
  rewrite (clash_strip _ _ r H1). simpl. f_equal. now apply IH.
Qed.

Lemma oldHeader_open (w h : str) :
  oldHeader w h
  = headerOpen ++ w ++ svg "' height='" ++ h ++ svg "'>".
Proof. reflexivity. Qed.

(** A document that starts with the header in the form [viewboxify] looks
    for, possibly after a prolog in which no size attribute and no such
    header starts, gets its width and height replaced by a view box; the
    prolog and the body are kept. *)
Theorem viewboxify_header (pre w h body : str) :
  size w -> size h ->
  clear_of widthPattern pre = true ->
  clear_of heightPattern pre = true ->
  clear_of headerOpen pre = true ->
  viewboxify (pre ++ oldHeader w h ++ body) = pre ++ newHeader w h ++ body.
Proof.
  intros Sw Sh Cw Ch Co.
  set (P := svg "<svg xmlns='http://www.w3.org/2000/svg' ").
  assert (Ew : search_size widthPattern (pre ++ oldHeader w h ++ body) = Some w).
  { rewrite (clear_of_search _ _ _ Cw).
    change (oldHeader w h ++ body)
      with ((P ++ widthPattern ++ w ++ svg "' height='" ++ h ++ svg "'>") ++ body).
    rewrite <- app_assoc.
    rewrite (clear_of_search widthPattern P _ eq_refl).
    replace ((widthPattern ++ w ++ svg "' height='" ++ h ++ svg "'>") ++ body)
      with (widthPattern ++ w ++ dquote :: (svg " height='" ++ h ++ svg "'>" ++ body)).
    - apply search_size_found; [discriminate | exact Sw].
    - rewrite <- !app_assoc. reflexivity. }
  assert (Eh : search_size heightPattern (pre ++ oldHeader w h ++ body) = Some h).
  { rewrite (clear_of_search _ _ _ Ch).
    replace (oldHeader w h ++ body)
      with ((P ++ widthPattern) ++ w ++ svg "' " ++ heightPattern ++ h
            ++ dquote :: (svg ">" ++ body)).
    - rewrite (clear_of_search heightPattern (P ++ widthPattern) _ eq_refl).
      rewrite (@search_size_digits "h"%char (svg "eight='") w _ eq_refl (proj2 Sw)).
      rewrite (clear_of_search heightPattern (svg "' ") _ eq_refl).
      apply search_size_found; [discriminate | exact Sh].
    - unfold oldHeader. rewrite <- !app_assoc. reflexivity. }
  unfold viewboxify. rewrite Ew, Eh.
  rewrite clear_of_replace.
  - f_equal. apply replace_first_prefix. discriminate.
  - rewrite oldHeader_open. now apply clear_of_app.
Qed.

Lemma viewboxify_header_witness :
  viewboxify (svg "<?xml version='1.0'?>" ++ oldHeader (lit "640") (lit "480")
              ++ svg "<path d='M0 0z'/></svg>")
  = svg "<?xml version='1.0'?>" ++ newHeader (lit "640") (lit "480")
    ++ svg "<path d='M0 0z'/></svg>".
Proof.
  apply viewboxify_header; try reflexivity; split; try reflexivity; discriminate.
Defined.

Lemma replace_first_cases (old new s : str) :
  replace_first old new s = s
  \/ exists pre post, s = pre ++ old ++ post
       /\ replace_first old new s = pre ++ new ++ post.
Proof.
  induction s as [|c t IH]; [now left|]. cbn [replace_first].
  destruct (strip_prefix old (c :: t)) as [rest|] eqn:E.
  - right. exists [], rest. apply strip_prefix_Some in E. now split.
  - destruct IH as [->|(pre & post & -> & ->)]; [now left|].
    right. now exists (c :: pre), post.
Qed.

Lemma viewboxify_split (s : str) :
  viewboxify s = s
  \/ exists pre post w h,
       size w /\ size h
       /\ s = pre ++ oldHeader w h ++ post
       /\ viewboxify s = pre ++ newHeader w h ++ post.
Proof.
  unfold viewboxify.
  destruct (search_size widthPattern s) as [w|] eqn:Ew; [|now left].
  destruct (search_size heightPattern s) as [h|] eqn:Eh; [|now left].
  destruct (replace_first_cases (oldHeader w h) (newHeader w h) s)
    as [->|(pre & post & E & ->)]; [now left|].
  right. exists pre, post, w, h.
  split; [now apply search_size_Some in Ew|].
  split; [now apply search_size_Some in Eh|]. now split.
Qed.

(** Whatever the text is, [viewboxify] either returns it as it is, or
    rewrites one header [<svg xmlns=... width=W height=H>] whose sizes are
    runs of digits into its view-box form, keeping all that is before and
    after it; the result is then three characters shorter. *)
Theorem viewboxify_cases (s : str) :
  viewboxify s = s
  \/ exists pre post w h,
       size w /\ size h
       /\ s = pre ++ oldHeader w h ++ post
       /\ viewboxify s = pre ++ newHeader w h ++ post
       /\ length s = (3 + length (viewboxify s))%nat.
Proof.
  unfold viewboxify.
  destruct (search_size widthPattern s) as [w|] eqn:Ew; [|now left].
  destruct (search_size heightPattern s) as [h|] eqn:Eh; [|now left].
  destruct (replace_first_cases (oldHeader w h) (newHeader w h) s)
    as [->|(pre & post & E & ->)]; [now left|].
  right. exists pre, post, w, h.
  split; [now apply search_size_Some in Ew|].
  split; [now apply search_size_Some in Eh|].
  split; [exact E|]. split; [reflexivity|].
  rewrite E. unfold oldHeader, newHeader. rewrite !length_app. simpl. lia.
Qed.

End ViewboxFacts.

(** ** OpacityFlattener: when [getSolid] returns, and what it works on *)

Module OpacityFacts.
Import IEEE IEEESpec IEEEFacts Text TextFacts FloatText FloatTextFacts.
Import ColorMath ColorMathSpec ColorMathFacts BlendSpec BlendFacts.
Import Flatten FlattenSpec FlattenFacts OpacitySpec.

(** *** Values that are read *)

Lemma mapM_ok {A B} (f : A -> result B) (P : B -> Prop) (l : list A) :
  Forall (fun a => exists b, f a = Ok b /\ P b) l ->
  exists bs, mapM f l = Ok bs /\ Forall P bs.
Proof.
  induction 1 as [|a l (b & E & Pb) _ (bs & Es & Ps)].
  - exists []. now split.
  - exists (b :: bs). cbn [mapM]. rewrite E, bind_Ok, Es, bind_Ok.
    split; [reflexivity | now constructor].
Qed.

Lemma mapM_throws {A B} (f : A -> result B) (l : list A) :
  Exists (fun a => throws (f a)) l -> throws (mapM f l).
Proof.
  induction 1 as [a l [e E] | a l _ [e E]]; cbn [mapM].
  - rewrite E. now exists e.
  - destruct (f a) as [b|e']; [|now exists e'].
    rewrite bind_Ok, E. now exists e.
Qed.

Lemma trueOpacity_unit (lighter : list float) (opacity : float) :
  unit_opacity opacity -> Forall unit_opacity lighter ->
  unit_opacity (trueOpacity opacity lighter).
Proof.
  unfold trueOpacity. revert opacity.
  induction lighter as [|b l IH]; intros a Ha Hl; [exact Ha|].
  apply Forall_cons_iff in Hl. destruct Hl as [Hb Hl].
  cbn [fold_left]. apply IH; [|exact Hl].
  destruct Ha as (na & -> & Ra), Hb as (nb & -> & Rb).
  destruct (combineOpacity_unit Ra Rb) as [E R].
  exists (composite na nb). now split.
Qed.

Lemma rgbaToHex_black (a : float) :
  unit_opacity a -> exists hex, rgbaToHex 0 0 0 a = Ok hex.
Proof.
  intros (n & -> & R).
  destruct (@blended_channel 0 n ltac:(lia) R) as [E _].
  unfold rgbaToHex. rewrite E. cbn [bind]. eauto.
Qed.

Lemma flatten_loop_ok (stroke : bool) (ops : list float) :
  Forall unit_opacity ops ->
  forall res, exists out, flatten_loop stroke ops res = Ok out.
Proof.
  induction 1 as [|a ops Ha Hops IH]; intros res; cbn [flatten_loop].
  - now exists res.
  - destruct (rgbaToHex_black (trueOpacity_unit Ha Hops)) as [hex ->].
    rewrite bind_Ok. apply IH.
Qed.

Lemma getSolid_defined (s : str) (stroke : bool) :
  Forall reads_unit (opacity_matches (strip_black s)) ->
  exists out, getSolid s stroke = Ok out.
Proof.
  intros H. unfold getSolid. fold (strip_black s).
  destruct (mapM_ok stof unit_opacity H) as (values & -> & V).
  rewrite bind_Ok. cbv zeta.
  assert (U : Forall unit_opacity
                (fold_left (fun s v => set_insert v s) values [])).
  { apply fold_set_insert_Forall; [exact V | constructor]. }
  destruct (fold_left _ values []) as [|a u] eqn:Eu; [eauto|].
  assert (R : Forall unit_opacity (rev (a :: u))).
  { apply Forall_forall. intros x I. apply in_rev in I.
    rewrite Forall_forall in U. now apply U. }
  destruct (flatten_loop_ok stroke R (strip_black s)) as [out ->].
  rewrite bind_Ok. eauto.
Qed.

(** [getSolid] returns for every document whose [fill-opacity] values are
    read by [stof] as opacities between 0 and 1: no conversion fails and no
    cast of a blended channel is out of range, however many opacities are
    composed. *)
Theorem getSolid_returns (s : str) (stroke : bool) :
  Forall reads_unit (opacity_matches (strip_black s)) ->
  exists out, getSolid s stroke = Ok out.
Proof. apply getSolid_defined. Qed.

Lemma getSolid_returns_witness :
  exists out,
    getSolid (svg "<path fill-opacity='0.25'/><path fill-opacity='1.'/>") true
    = Ok out.
Proof.
  apply getSolid_returns.
  change (opacity_matches
            (strip_black (svg "<path fill-opacity='0.25'/><path fill-opacity='1.'/>")))
    with [lit "0.25"; lit "1."].
  repeat constructor.
  - exists (Fin (2 ^ 147)). split; [reflexivity|].
    exists (2 ^ 147). split; [reflexivity|]. vm_compute. split; discriminate.
  - exists (Fin (2 ^ 149)). split; [reflexivity|].
    exists (2 ^ 149). split; [reflexivity|]. vm_compute. split; discriminate.
Defined.

Lemma stof_no_digit (v : str) :
  forallb is_opacity_char v = true ->
  forallb (fun c => negb (is_digit c)) v = true ->
  stof v = Throw invalid_argument.
Proof.
  intros O N.
  assert (S : forall t, forallb (fun c => negb (is_digit c)) t = true ->
                        span is_digit t = ([], t)).
  { intros [|c t] H; [reflexivity|]. simpl in *.
    apply andb_prop in H. destruct H as [H _].
    apply negb_true_iff in H. now rewrite H. }
  unfold stof. rewrite (S v N).
  destruct v as [|c t]; [reflexivity|].
  simpl in N. apply andb_prop in N. destruct N as [_ N].
  replace (match c :: t with
           | "."%char :: t0 => fst (span is_digit t0)
           | _ => []
           end) with (@nil ascii); [reflexivity|].
  destruct (Ascii.eqb_spec c "."%char) as [->|D].
  - now rewrite (S t N).
  - destruct c as [[] [] [] [] [] [] [] []]; try reflexivity. now destruct D.
Qed.

(** One [fill-opacity] value without a digit, a run of dots, makes
    [getSolid] fail with the exception of [stof], wherever it stands in the
    document: every captured value is converted before anything is
    rewritten. *)
Theorem getSolid_throws (s : str) (stroke : bool) (v : str) :
  In v (opacity_matches (strip_black s)) ->
  forallb (fun c => negb (is_digit c)) v = true ->
  throws (getSolid s stroke).
Proof.
  intros I N. unfold getSolid. fold (strip_black s).
  assert (T : throws (mapM stof (opacity_matches (strip_black s)))).
  { apply mapM_throws. apply Exists_exists. exists v. split; [exact I|].
    exists invalid_argument. apply stof_no_digit; [|exact N].
    clear N. revert I. generalize (strip_black s). intros d.
    induction d as [d IH] using str_length_ind. intros I.
    destruct d as [|c t]; [destruct I|].
    destruct (match_opacity (c :: t)) as [[u suffix]|] eqn:M.
    - unfold opacity_matches in I. cbn [opacity_matches_from] in I.
      rewrite M in I. destruct I as [<-|I].
      + now apply match_opacity_Some in M.
      + rewrite opacity_matches_from_skipn in I.
        apply IH in I; [exact I|].
        rewrite length_skipn. simpl. lia.
    - rewrite (@opacity_matches_keep c t M) in I.
      apply IH in I; [exact I | simpl; lia]. }
  destruct T as [e ->]. now exists e.
Qed.

Lemma getSolid_throws_witness :
  throws (getSolid (svg "<path fill-opacity='0.5'/><path fill-opacity='..'/>") false).
Proof.
  apply (@getSolid_throws _ false (lit "..")).
  - change (opacity_matches
              (strip_black (svg "<path fill-opacity='0.5'/><path fill-opacity='..'/>")))
      with [lit "0.5"; lit ".."].
    simpl. auto.
  - reflexivity.
Defined.

(** *** The set of opacities *)

Lemma ltb_fin (x y : Z) : ltb (Fin x) (Fin y) = (x <? y).
Proof. reflexivity. Qed.

Lemma set_insert_ascending (x : float) (l : list float) :
  finite x -> Forall finite l -> ascending l ->
  ascending (set_insert x l)
  /\ forall a, In a (set_insert x l) <-> a = x \/ In a l.
Proof.
  intros [nx ->]. induction l as [|y t IH]; intros F A.
  - split; [repeat constructor|]. intros a. simpl. intuition.
  - apply Forall_cons_iff in F. destruct F as [[ny ->] Ft].
    apply StronglySorted_inv in A. destruct A as [At Ay].
    cbn [set_insert]. rewrite !ltb_fin.
    destruct (Z.ltb_spec nx ny) as [L|L].
    + split; [|intros a; simpl; intuition].
      constructor; [now constructor|].
      constructor; [rewrite ltb_fin; now apply Z.ltb_lt|].
      rewrite Forall_forall in *. intros a I.
      destruct (Ft a I) as [na ->]. specialize (Ay _ I).
      rewrite ltb_fin in *. apply Z.ltb_lt. apply Z.ltb_lt in Ay. lia.
    + destruct (Z.ltb_spec ny nx) as [G|G].
      * destruct (IH Ft At) as [S M]. split.
        -- constructor; [exact S|]. rewrite Forall_forall. intros a I.
           apply M in I. destruct I as [->|I].
           ++ rewrite ltb_fin. now apply Z.ltb_lt.
           ++ rewrite Forall_forall in Ay. now apply Ay.
        -- intros a. simpl. rewrite M. intuition.
      * assert (nx = ny) by lia. subst ny. split.
        -- now constructor.
        -- intros a. simpl. intuition.
Qed.

Lemma fold_set_insert_ascending (values acc : list float) :
  Forall finite values -> Forall finite acc -> ascending acc ->
  let u := fold_left (fun s v => set_insert v s) values acc in
  ascending u /\ Forall finite u
  /\ forall a, In a u <-> In a values \/ In a acc.
Proof.
  revert acc. induction values as [|v values IH]; intros acc Fv Fa A.
  - cbn. split; [exact A|]. split; [exact Fa|]. intuition.
  - apply Forall_cons_iff in Fv. destruct Fv as [Hv Fv].
    destruct (set_insert_ascending Hv Fa A) as [S M].
    assert (Fs : Forall finite (set_insert v acc)).
    { now apply set_insert_Forall. }
    destruct (IH (set_insert v acc) Fv Fs S) as (S' & F' & M').
    cbn [fold_left]. split; [exact S'|]. split; [exact F'|].
    intros a. rewrite M', M. simpl. intuition.
Qed.

Lemma descending_snoc (l : list float) (a : float) :
  descending l -> Forall (fun b => ltb a b = true) l -> descending (l ++ [a]).
Proof.
  induction l as [|b l IH]; intros D F; simpl.
  - repeat constructor.
  - apply StronglySorted_inv in D. destruct D as [D Db].
    apply Forall_cons_iff in F. destruct F as [Fb F].
    constructor; [now apply IH|].
    apply Forall_app. split; [exact Db | now constructor].
Qed.

Lemma ascending_rev (l : list float) : ascending l -> descending (rev l).
Proof.
  induction 1 as [|a l _ IH H]; [constructor|].
  cbn [rev]. apply descending_snoc; [exact IH|].
  apply Forall_forall. intros b I. apply in_rev in I.
  rewrite Forall_forall in H. now apply H.
Qed.

Lemma descending_NoDup (l : list float) :
  Forall finite l -> descending l -> NoDup l.
Proof.
  induction l as [|a l IH]; intros F D; [constructor|].
  apply Forall_cons_iff in F. destruct F as [[na ->] F].
  apply StronglySorted_inv in D. destruct D as [D Da].
  constructor; [|now apply IH].
  intros I. rewrite Forall_forall in Da. specialize (Da _ I).
  rewrite ltb_fin in Da. apply Z.ltb_lt in Da. lia.
Qed.

(** The opacities that the loop of [getSolid] works on: the values read
    from the document, each once, in strictly descending order. *)
Theorem sortedOpacities_descending (texts : list str) (values : list float) :
  mapM stof texts = Ok values ->
  let sortedOpacities := rev (fold_left (fun s v => set_insert v s) values []) in
  descending sortedOpacities
  /\ NoDup sortedOpacities
  /\ forall a, In a sortedOpacities <-> In a values.
Proof.
  intros H sortedOpacities.
  assert (F : Forall finite values).
  { apply mapM_stof_nonneg in H. rewrite Forall_forall in *.
    intros a I. destruct (H a I) as (n & -> & _). now exists n. }
  destruct (@fold_set_insert_ascending values [] F ltac:(constructor)
              ltac:(constructor)) as (A & Fu & M).
  assert (D : descending sortedOpacities) by now apply ascending_rev.
  split; [exact D|]. split.
  - apply descending_NoDup; [|exact D].
    apply Forall_forall. intros a I. apply in_rev in I.
    rewrite Forall_forall in Fu. now apply Fu.
  - intros a. unfold sortedOpacities. rewrite <- in_rev, M. simpl. intuition.
Qed.

Lemma sortedOpacities_descending_witness :
  let sortedOpacities :=
    rev (fold_left (fun s v => set_insert v s)
           [Fin (2 ^ 148); Fin (2 ^ 149); Fin (2 ^ 148)] []) in
  descending sortedOpacities
  /\ NoDup sortedOpacities
  /\ forall a, In a sortedOpacities
               <-> In a [Fin (2 ^ 148); Fin (2 ^ 149); Fin (2 ^ 148)].
Proof.
  apply (@sortedOpacities_descending [lit "0.5"; lit "1"; lit ".5"]).
  reflexivity.
Defined.

(** *** Six decimals *)

Lemma span_all (f : ascii -> bool) (l : str) :
  forallb f l = true -> span f l = (l, []).
Proof.
  induction l as [|c t IH]; intros H; [reflexivity|].
  simpl in *. apply andb_prop in H. destruct H as [-> H]. now rewrite IH.
Qed.

Lemma dec_value_snoc (l : str) (c : ascii) (acc : Z) :
  dec_value acc (l ++ [c]) = 10 * dec_value acc l + (ascii_code c - 48).
Proof.
  revert acc. induction l as [|d l IH]; intros acc; [reflexivity|].
  cbn [app dec_value]. apply IH.
Qed.

Lemma digit_char_code (u : Z) : ascii_code (Hex.digit_char (u mod 10)) - 48 = u mod 10.
Proof.
  pose proof (Z.mod_pos_bound u 10 ltac:(lia)) as B.
  assert (A : forallb (fun d => ascii_code (Hex.digit_char (Z.of_nat d)) - 48
                                =? Z.of_nat d) (seq 0 10) = true) by reflexivity.
  rewrite forallb_forall in A.
  specialize (A (Z.to_nat (u mod 10))). rewrite Z2Nat.id in A by lia.
  apply Z.eqb_eq, A, in_seq. lia.
Qed.

Lemma dec_value_digits10 (n : nat) (u acc : Z) :
  dec_value acc (digits10 n u) = acc * 10 ^ Z.of_nat n + u mod 10 ^ Z.of_nat n.
Proof.
  revert u. induction n as [|n IH]; intros u.
  - cbn [digits10 dec_value]. change (10 ^ Z.of_nat 0) with 1.
    rewrite Z.mod_1_r. lia.
  - cbn [digits10]. rewrite dec_value_snoc, IH, digit_char_code.
    rewrite Nat2Z.inj_succ, Z.pow_succ_r by lia.
    assert (P : 0 < 10 ^ Z.of_nat n) by (apply Z.pow_pos_nonneg; lia).
    rewrite (Z.rem_mul_r u 10 (10 ^ Z.of_nat n)) by lia. lia.
Qed.

Lemma digits10_length (n : nat) (u : Z) : length (digits10 n u) = n.
Proof.
  revert u. induction n as [|n IH]; intros u; simpl; [reflexivity|].
  rewrite length_app, IH. simpl. lia.
Qed.

(** The integer nearest to a value that is less than half a unit away. *)
Lemma round_half_even_unique (x den k : Z) :
  0 < den -> 2 * (x - k * den) < den -> 2 * (k * den - x) < den ->
  round_half_even x den = k.
Proof.
  intros D A B.
  destruct (round_half_even_near x D) as (N1 & N2 & _).
  set (m := round_half_even x den) in *.
  destruct (Z.lt_trichotomy m k) as [L|[E|G]]; [exfalso|exact E|exfalso].
  - assert (m * den + den <= k * den) by nia. lia.
  - assert (k * den + den <= m * den) by nia. lia.
Qed.

Lemma six_head (k : Z) :
  0 <= k <= 10 ^ 6 ->
  exists d, six k = d :: "."%char :: digits10 6 (k mod 10 ^ 6)
            /\ is_digit d = true /\ ascii_code d - 48 = k / 10 ^ 6.
Proof.
  intros K. unfold six.
  destruct (Z.eq_dec k (10 ^ 6)) as [->|N].
  - exists "1"%char. repeat split.
  - rewrite (Z.div_small k) by lia. exists "0"%char. repeat split.
Qed.

(** What [stof] reads from a six-decimal text between 0 and 1, and that
    [to_string] writes this value as the same text. *)
Lemma stof_six (k : Z) :
  0 <= k <= 10 ^ 6 ->
  let n := rndz 24 (k * unit32) (10 ^ 6) in
  stof (six k) = Ok (Fin n) /\ 0 <= n <= unit32 /\ to_string (Fin n) = six k.
Proof.
  intros K n. pose proof unit32_pos as U0.
  destruct (six_head K) as (d & E & Dd & Vd).
  pose proof (digits10_digits 6 (k mod 10 ^ 6)) as Dg.
  set (ds := digits10 6 (k mod 10 ^ 6)) in *.
  assert (V : dec_value 0 (d :: ds) = k).
  { cbn [dec_value]. unfold ds. rewrite dec_value_digits10.
    change (Z.of_nat 6) with 6. rewrite Z.mod_mod by lia.
    pose proof (Z.div_mod k (10 ^ 6) ltac:(lia)). lia. }
  assert (Ku : k * unit32 <= unit32 * 10 ^ 6) by nia.
  destruct (@rnd32_unit (k * unit32) (10 ^ 6) ltac:(lia) ltac:(lia) Ku)
    as [R B].
  fold n in R, B.
  assert (Er : 2 * (n * 10 ^ 6 - k * unit32) <= 10 ^ 6 * 2 ^ 126
               /\ 2 * (k * unit32 - n * 10 ^ 6) <= 10 ^ 6 * 2 ^ 126).
  { destruct (@rndz_error 24 prec32 (k * unit32) (10 ^ 6)
                ltac:(lia) ltac:(lia)) as [E1 E2].
    fold n in E1, E2. cbv zeta in E1, E2.
    assert (Q : k * unit32 / 10 ^ 6 <= unit32).
    { apply Z.div_le_upper_bound; lia. }
    assert (Q0 : 0 <= k * unit32 / 10 ^ 6) by (apply Z.div_pos; lia).
    pose proof (@shift_mono 24 _ _ Q) as Sm.
    change (shift 24 unit32) with 126 in Sm.
    assert (S0 : 0 <= shift 24 (k * unit32 / 10 ^ 6)) by (unfold shift; lia).
    assert (P : 2 ^ shift 24 (k * unit32 / 10 ^ 6) <= 2 ^ 126).
    { apply Z.pow_le_mono_r; lia. }
    split; nia. }
  split; [|split; [exact B|]].
  - rewrite E. unfold stof. cbn [span]. rewrite Dd.
    change (is_digit ".") with false. cbv iota.
    rewrite (span_all is_digit ds Dg). cbn [fst app].
    replace (length ds) with 6%nat by (unfold ds; now rewrite digits10_length).
    change (Z.of_nat 6) with 6. rewrite V.
    change FloatText.f32 with f32. change (one f32) with unit32. rewrite R.
    replace ((Z.abs n <? 2 ^ 23) && negb (n * 10 ^ 6 =? k * unit32))
      with false; [reflexivity|].
    symmetry. destruct (Z.eq_dec k 0) as [->|N].
    + reflexivity.
    + apply andb_false_iff. left. apply Z.ltb_ge.
      rewrite Z.abs_eq by lia.
      assert (F : fits 24 (2 ^ 23)).
      { exists 1, 23. split; [reflexivity|]. split; [reflexivity | lia]. }
      rewrite <- (rndz_fits prec32 F).
      rewrite <- (rndz_scale 24 (2 ^ 23) (d := 10 ^ 6)) by lia.
      apply rndz_mono; try lia.
      change unit32 with (2 ^ 149). lia.
  - unfold to_string. destruct (Z.ltb_spec n 0) as [C|_]; [lia|].
    rewrite Z.abs_eq by lia. change (one FloatText.f32) with unit32.
    rewrite (@round_half_even_unique (n * 10 ^ 6) unit32 k U0).
    + reflexivity.
    + change unit32 with (2 ^ 149) in *. lia.
    + change unit32 with (2 ^ 149) in *. lia.
Qed.

(** An opacity between 0 and 1 that is written with six digits after the
    point, as [0.500000], is read by [stof] and written back by
    [to_string] as the same text: the attribute that [getSolid] searches
    for is then the one of the document. *)
Theorem to_string_stof_six (k : Z) :
  0 <= k <= 10 ^ 6 ->
  exists a, stof (six k) = Ok a /\ unit_opacity a /\ to_string a = six k.
Proof.
  intros K. destruct (stof_six K) as (E & B & T).
  exists (Fin (rndz 24 (k * unit32) (10 ^ 6))).
  split; [exact E|]. split; [|exact T]. eexists. split; [reflexivity | exact B].
Qed.

Lemma to_string_stof_six_witness :
  exists a, stof (lit "0.500000") = Ok a /\ unit_opacity a
            /\ to_string a = lit "0.500000".
Proof. apply (@to_string_stof_six 500000). lia. Defined.

Lemma mapM_same {A B} (f : A -> result B) (x : A) (y : B) (l : list A) :
  f x = Ok y -> Forall (eq x) l -> mapM f l = Ok (repeat y (length l)).
Proof.
  intros E. induction 1 as [|a l <- _ IH]; [reflexivity|].
  cbn [mapM]. now rewrite E, bind_Ok, IH.
Qed.

Lemma fold_set_insert_same (n : Z) (m : nat) :
  fold_left (fun s v => set_insert v s) (repeat (Fin n) m) [Fin n] = [Fin n].
Proof.
  induction m as [|m IH]; [reflexivity|].
  cbn [repeat fold_left set_insert]. rewrite ltb_fin, Z.ltb_irrefl. exact IH.
Qed.

(** A document in which every [fill-opacity] has the same six-decimal
    value between 0 and 1: [getSolid] removes [fill="black"], replaces every
    such attribute by the fill (and, on request, the stroke) of the grey
    that the opacity gives over white, and removes [stroke="none"]. *)
Theorem getSolid_one_opacity (s : str) (stroke : bool) (k : Z) (v : str) (vs : list str) :
  0 <= k <= 10 ^ 6 ->
  opacity_matches (strip_black s) = v :: vs ->
  Forall (eq (six k)) (v :: vs) ->
  exists a hex,
    stof (six k) = Ok a
    /\ rgbaToHex 0 0 0 a = Ok hex
    /\ getSolid s stroke
       = Ok (replace_all stroke_none []
               (replace_all (opacity_attr (six k)) (newAttr stroke hex)
                  (strip_black s))).
Proof.
  intros K M F. destruct (stof_six K) as (E & B & T).
  set (n := rndz 24 (k * unit32) (10 ^ 6)) in *.
  destruct (@rgbaToHex_black (Fin n)) as [hex H].
  { exists n. now split. }
  exists (Fin n), hex. split; [exact E|]. split; [exact H|].
  unfold getSolid. fold (strip_black s). rewrite M.
  rewrite (mapM_same stof E F), bind_Ok. cbv zeta.
  cbn [length repeat fold_left set_insert]. rewrite fold_set_insert_same.
  cbn [rev app flatten_loop trueOpacity fold_left]. rewrite H, bind_Ok.
  cbn [bind]. unfold oldAttr. now rewrite T.
Qed.

Lemma getSolid_one_opacity_witness :
  exists a hex,
    stof (six 500000) = Ok a
    /\ rgbaToHex 0 0 0 a = Ok hex
    /\ getSolid (svg "<path fill='black' fill-opacity='0.500000' stroke='none'/>")
         true
       = Ok (replace_all stroke_none []
               (replace_all (opacity_attr (six 500000)) (newAttr true hex)
                  (strip_black
                     (svg "<path fill='black' fill-opacity='0.500000' stroke='none'/>")))).
Proof.
  apply (@getSolid_one_opacity _ true 500000 (lit "0.500000") []).
  - lia.
  - reflexivity.
  - repeat constructor.
Defined.

End OpacityFacts.

(** ** DominantColorExtractor: which colours are returned *)

Module DominantFacts.
Import Palette PaletteSpec PaletteFacts Inspect.

Lemma StronglySorted_app_inv {A} (R : A -> A -> Prop) (l1 l2 : list A) :
  StronglySorted R (l1 ++ l2) ->
  forall a b, In a l1 -> In b l2 -> R a b.
Proof.
  induction l1 as [|x l1 IH]; intros S a b Ia Ib; [destruct Ia|].
  simpl in S. apply StronglySorted_inv in S. destruct S as [S F].
  destruct Ia as [<-|Ia].
  - rewrite Forall_forall in F. apply F, in_or_app. now right.
  - now apply IH.
Qed.

Lemma NoDup_firstn {A} (n : nat) (l : list A) : NoDup l -> NoDup (firstn n l).
Proof.
  intros D. rewrite <- (firstn_skipn n l) in D.
  now apply NoDup_app_remove_r in D.
Qed.

(** The histogram of the scan, sorted: its keys are the distinct colours of
    the scan and its counts their frequencies. *)
Lemma sorted_histogram (data : PixelData) :
  let sortedColors := sort_by_count (counted (scanned data)) in
  StronglySorted by_count sortedColors
  /\ NoDup (map fst sortedColors)
  /\ (forall c, In c (map fst sortedColors) <-> In c (scanned data))
  /\ (forall c n, In (c, n) sortedColors -> n = Z.of_nat (frequency data c)).
Proof.
  intros sortedColors.
  set (M := counted (scanned data)).
  destruct (counted_spec (scanned data)) as [[S P] G]. fold M in S, P, G.
  destruct (counted_entries (scanned data)) as [_ Ent]. fold M in Ent.
  pose proof (sort_by_count_perm M) as Perm. fold sortedColors in Perm.
  pose proof (Permutation_map fst Perm) as PermK.
  split; [apply sort_by_count_sorted|]. split; [|split].
  - apply (Permutation_NoDup (Permutation_sym PermK)).
    now apply sorted_keys_NoDup.
  - intros c. split.
    + intros I. apply (Permutation_in _ PermK) in I.
      apply in_map_iff in I. destruct I as ([k n] & <- & I).
      now apply Ent in I.
    + intros I. apply (Permutation_in _ (Permutation_sym PermK)).
      destruct (get_positive c P) as [K _]. apply K. rewrite G.
      apply (count_occ_In (list_eq_dec ascii_dec)) in I. lia.
  - intros c n I. apply (Permutation_in _ Perm) in I.
    now apply Ent in I.
Qed.

(** The colours that [extractDominantColors] returns are distinct colours
    of the scan, and they are the most frequent ones: no colour of the scan
    that is left out is more frequent than a returned one. *)
Theorem extractDominantColors_top (data : PixelData) (numColors : Z)
    (colors : list str) :
  well_formed data ->
  extractDominantColors data numColors = Ok colors ->
  NoDup colors
  /\ (forall c, In c colors -> In c (scanned data))
  /\ (forall c c', In c colors -> In c' (scanned data) -> ~ In c' colors ->
        (frequency data c' <= frequency data c)%nat).
Proof.
  intros W E. unfold extractDominantColors in E.
  rewrite (histogram_counted W), bind_Ok in E. cbv zeta in E.
  injection E as <-.
  destruct (sorted_histogram data) as (S & D & K & F).
  set (l := sort_by_count (counted (scanned data))) in *.
  set (n := Z.to_nat numColors).
  split; [now apply NoDup_firstn|]. split.
  - intros c I. apply In_firstn in I. now apply K.
  - intros c c' I I' N.
    rewrite firstn_map in I. apply in_map_iff in I.
    destruct I as ([k m] & <- & I).
    assert (J : In c' (map fst (skipn n l))).
    { apply K in I'. rewrite <- (firstn_skipn n l), map_app in I'.
      apply in_app_or in I'. destruct I' as [I'|I']; [|exact I'].
      rewrite <- firstn_map in I'. contradiction. }
    apply in_map_iff in J. destruct J as ([k' m'] & <- & J).
    rewrite <- (firstn_skipn n l) in S.
    pose proof (@StronglySorted_app_inv _ _ _ _ S _ _ I J) as R.
    unfold by_count in R. simpl in *.
    apply In_firstn in I.
    assert (J' : In (k', m') l).
    { rewrite <- (firstn_skipn n l). apply in_or_app. now right. }
    apply F in I, J'. lia.
Qed.

Lemma extractDominantColors_top_witness :
  NoDup [lit "#e0e0e0"]
  /\ (forall c, In c [lit "#e0e0e0"] -> In c (scanned white_white_blue))
  /\ (forall c c', In c [lit "#e0e0e0"] -> In c' (scanned white_white_blue) ->
        ~ In c' [lit "#e0e0e0"] ->
        (frequency white_white_blue c' <= frequency white_white_blue c)%nat).
Proof.
  apply (@extractDominantColors_top white_white_blue 1).
  - apply rgb_row_well_formed.
  - vm_compute. reflexivity.
Defined.

(** When at least as many colours are asked for as the scan has, every
    colour of the scan is returned, each once. *)
Theorem extractDominantColors_all (data : PixelData) (numColors : Z) :
  well_formed data ->
  Z.of_nat (length (first_seen (scanned data))) <= numColors ->
  exists colors,
    extractDominantColors data numColors = Ok colors
    /\ Permutation colors (first_seen (scanned data)).
Proof.
  intros W L. unfold extractDominantColors.
  rewrite (histogram_counted W), bind_Ok. cbv zeta.
  eexists. split; [reflexivity|].
  destruct (sorted_histogram data) as (_ & D & K & _).
  destruct (counted_entries (scanned data)) as [Len _].
  set (l := sort_by_count (counted (scanned data))) in *.
  assert (Ll : length (map fst l) = length (first_seen (scanned data))).
  { rewrite length_map. unfold l.
    now rewrite (Permutation_length (sort_by_count_perm _)). }
  rewrite firstn_all2 by lia.
  destruct (first_seen_length_In (scanned data)) as [D' I'].
  apply NoDup_Permutation; try assumption.
  intros c. now rewrite K, I'.
Qed.

Lemma extractDominantColors_all_witness :
  exists colors,
    extractDominantColors white_white_blue 5 = Ok colors
    /\ Permutation colors (first_seen (scanned white_white_blue)).
Proof.
  apply extractDominantColors_all.
  - apply rgb_row_well_formed.
  - vm_compute. discriminate.
Defined.

Lemma foldM_const {A B} (f : A -> B -> result A) (l : list B) (a : A) :
  (forall a b, f a b = Ok a) -> foldM f l a = Ok a.
Proof.
  intros H. induction l as [|b l IH]; simpl; [reflexivity|].
  now rewrite H, bind_Ok.
Qed.

(** A buffer of fewer than three channels, a grey image with or without
    alpha, has no dominant colour, and [inspectImage] offers the single
    black option for it; no pixel is read, whatever the buffer holds. *)
Theorem inspectImage_grey (data : PixelData) (numColors : Z) :
  channels data < 3 ->
  extractDominantColors data numColors = Ok []
  /\ inspectImage data = Ok [black_option].
Proof.
  intros C.
  assert (H : histogram data = Ok []).
  { unfold histogram. apply foldM_const. intros m y.
    apply foldM_const. intros m' x. unfold visit.
    destruct (Z.leb_spec 3 (channels data)); [lia | reflexivity]. }
  assert (E : forall n, extractDominantColors data n = Ok []).
  { intros n. unfold extractDominantColors. rewrite H, bind_Ok. cbv zeta.
    cbn [sort_by_count fold_right map]. now rewrite firstn_nil. }
  split; [apply E|]. unfold inspectImage. now rewrite E.
Qed.

Lemma inspectImage_grey_witness :
  extractDominantColors
    {| pixels := [[[Byte.x10]]]; width := 1; height := 1; channels := 1;
       mode := lit "L" |} 5 = Ok []
  /\ inspectImage
       {| pixels := [[[Byte.x10]]]; width := 1; height := 1; channels := 1;
          mode := lit "L" |} = Ok [black_option].
Proof. apply inspectImage_grey. cbn. lia. Defined.

(** *** The options of [inspectImage] *)

Lemma extractDominantColors_scanned (data : PixelData) (numColors : Z) :
  well_formed data ->
  exists colors,
    extractDominantColors data numColors = Ok colors
    /\ Forall bucket_color colors.
Proof.
  intros W. unfold extractDominantColors.
  rewrite (histogram_counted W), bind_Ok. cbv zeta.
  eexists. split; [reflexivity|].
  destruct (sorted_histogram data) as (_ & _ & K & _).
  apply Forall_forall. intros c I. apply In_firstn in I.
  apply K in I. now apply (scanned_bucket data).
Qed.

Lemma options_upto_length (n : nat) (palette : list str) :
  length (options_upto n palette) = n.
Proof.
  induction n as [|n IH]; [reflexivity|].
  cbn [options_upto]. rewrite length_app, IH. simpl. lia.
Qed.

Lemma options_upto_nth (n : nat) (palette : list str) (i : nat)
    (opt : VectorizationOption) :
  nth_error (options_upto n palette) i = Some opt ->
  (i < n)%nat
  /\ opt = {| step := Z.of_nat (S i); colors := firstn (S i) palette |}.
Proof.
  induction n as [|n IH]; intros H.
  - destruct i; discriminate.
  - cbn [options_upto] in H.
    destruct (Nat.lt_ge_cases i n) as [L|L].
    + rewrite nth_error_app1 in H by now rewrite options_upto_length.
      destruct (IH H) as [_ E]. split; [lia | exact E].
    + rewrite nth_error_app2 in H by now rewrite options_upto_length.
      rewrite options_upto_length in H.
      destruct (i - n)%nat as [|j] eqn:Ej.
      * assert (i = n) by lia. subst i. simpl in H. injection H as <-.
        split; [lia | reflexivity].
      * simpl in H. destruct j; discriminate.
Qed.

Lemma black_bucket : bucket_color (lit "#000000").
Proof. exists 0, 0, 0. repeat split. Qed.

Lemma bucket_hexToRgb (c : str) :
  bucket_color c -> exists rgb, Hex.hexToRgb c = Ok rgb.
Proof. intros (r & g & b & E & _). eauto. Qed.

Lemma inspectImage_shape (data : PixelData) :
  well_formed data ->
  exists options,
    inspectImage data = Ok options
    /\ (1 <= length options <= 4)%nat
    /\ forall i opt, nth_error options i = Some opt ->
         step opt = Z.of_nat (S i)
         /\ length (colors opt) = S i
         /\ Forall bucket_color (colors opt).
Proof.
  intros W.
  assert (Black : (1 <= length [black_option] <= 4)%nat
    /\ forall i opt, nth_error [black_option] i = Some opt ->
         step opt = Z.of_nat (S i)
         /\ length (colors opt) = S i
         /\ Forall bucket_color (colors opt)).
  { split; [simpl; lia|]. intros [|[|i]] opt H; try discriminate.
    injection H as <-. repeat split. repeat constructor. apply black_bucket. }
  destruct (extractDominantColors_scanned 5 W) as (palette & E & B).
  unfold inspectImage. rewrite E, bind_Ok.
  destruct palette as [|first rest]; [now exists [black_option]|].
  (* the working palette *)
  assert (WP : exists p, workingPalette (first :: rest) = Ok p
                         /\ p <> [] /\ Forall bucket_color p).
  { unfold workingPalette.
    apply Forall_cons_iff in B. destruct B as [Bf Br].
    destruct (bucket_hexToRgb Bf) as [rgb ->]. rewrite bind_Ok. cbv zeta.
    destruct (near_white rgb && (1 <? length (first :: rest))%nat) eqn:C.
    - exists rest. split; [reflexivity|]. split; [|exact Br].
      apply andb_prop in C. destruct C as [_ C].
      destruct rest; [discriminate C | discriminate].
    - exists (first :: rest). split; [reflexivity|].
      split; [discriminate | now constructor]. }
  destruct WP as (p & -> & Np & Bp). rewrite bind_Ok.
  destruct (rev p) as [|back front] eqn:R.
  { apply (f_equal (@rev str)) in R. rewrite rev_involutive in R.
    now destruct Np. }
  assert (Ib : In back p).
  { apply in_rev. rewrite R. now left. }
  rewrite Forall_forall in Bp.
  destruct (bucket_hexToRgb (Bp _ Ib)) as [lastRgb ->]. rewrite !bind_Ok.
  destruct (near_black lastRgb); [now exists [black_option]|].
  eexists. split; [reflexivity|].
  rewrite options_upto_length.
  assert (Lp : (1 <= length p)%nat).
  { destruct p; [now destruct Np | simpl; lia]. }
  split; [lia|].
  intros i opt H. apply options_upto_nth in H. destruct H as [L ->].
  cbn [step colors]. split; [reflexivity|]. split.
  - rewrite length_firstn. lia.
  - apply Forall_forall. intros c I. apply In_firstn in I. now apply Bp.
Qed.

(** On every well-formed buffer [inspectImage] returns, with one to four
    options: option number [i] has step [i] and exactly [i] colours, each
    with channels that are multiples of 32. *)
Theorem inspectImage_options (data : PixelData) :
  well_formed data ->
  exists options,
    inspectImage data = Ok options
    /\ (1 <= length options <= 4)%nat
    /\ forall i opt, nth_error options i = Some opt ->
         step opt = Z.of_nat (S i)
         /\ length (colors opt) = S i
         /\ Forall bucket_color (colors opt).
Proof. apply inspectImage_shape. Qed.

Lemma inspectImage_options_witness :
  exists options,
    inspectImage white_white_blue = Ok options
    /\ (1 <= length options <= 4)%nat
    /\ forall i opt, nth_error options i = Some opt ->
         step opt = Z.of_nat (S i)
         /\ length (colors opt) = S i
         /\ Forall bucket_color (colors opt).
Proof. apply inspectImage_options, rgb_row_well_formed. Defined.

End DominantFacts.

(** ** PixelStore: the buffer that [getPixels] builds *)

Module PixelFacts.
Import Palette PaletteSpec PaletteFacts PixelStore PixelSpec Inspect DominantFacts.

Lemma mapM_map {A B} (f : A -> result B) (g : A -> B) (l : list A) :
  (forall a, In a l -> f a = Ok (g a)) -> Flatten.mapM f l = Ok (map g l).
Proof.
  induction l as [|a l IH]; intros H; [reflexivity|].
  cbn [Flatten.mapM map]. rewrite (H a) by now left. rewrite bind_Ok.
  rewrite IH by (intros b I; apply H; now right). reflexivity.
Qed.

Lemma at_nth {A} (d : A) (v : list A) (i : nat) :
  (i < length v)%nat -> at_ v (Z.of_nat i) = Ok (nth i v d).
Proof.
  intros L. unfold at_.
  destruct (Z.ltb_spec (Z.of_nat i) 0) as [C|_]; [lia|].
  rewrite Nat2Z.id.
  destruct (nth_error v i) as [a|] eqn:E.
  - now rewrite (nth_error_nth _ _ d E).
  - apply nth_error_None in E. lia.
Qed.

Lemma counter_In (n i : Z) : In i (counter n) -> exists k, i = Z.of_nat k /\ (k < Z.to_nat n)%nat.
Proof.
  unfold counter. intros I. apply in_map_iff in I.
  destruct I as (k & <- & I). apply in_seq in I. exists k. split; [reflexivity | lia].
Qed.

Lemma firstn_plus {A} (a b : nat) (l : list A) :
  firstn (a + b) l = firstn a l ++ firstn b (skipn a l).
Proof.
  revert l. induction a as [|a IH]; intros l; [reflexivity|].
  destruct l as [|x l]; simpl.
  - now rewrite firstn_nil.
  - now rewrite IH.
Qed.

(** The samples of one pixel are a segment of the buffer. *)
Lemma segment_nth {A} (d : A) (l : list A) (m b : nat) :
  (b + m <= length l)%nat ->
  map (fun k => nth (b + k) l d) (seq 0 m) = firstn m (skipn b l).
Proof.
  revert b. induction m as [|m IH]; intros b L; [reflexivity|].
  rewrite <- cons_seq, <- seq_shift. cbn [map]. rewrite map_map.
  rewrite Nat.add_0_r.
  assert (E : skipn b l = nth b l d :: skipn (S b) l).
  { clear IH. revert b L. induction l as [|x l IHl]; intros b L.
    - simpl in L. lia.
    - destruct b as [|b]; [reflexivity|]. simpl. apply IHl. simpl in L. lia. }
  rewrite E. cbn [firstn]. f_equal.
  rewrite <- (IH (S b)) by lia.
  apply map_ext. intros k. f_equal. lia.
Qed.

(** Consecutive segments of equal length make up a longer segment. *)
Lemma concat_segments {A} (l : list A) (m n b : nat) :
  concat (map (fun i => firstn m (skipn (b + i * m) l)) (seq 0 n))
  = firstn (n * m) (skipn b l).
Proof.
  revert b. induction n as [|n IH]; intros b; [reflexivity|].
  rewrite <- cons_seq, <- seq_shift. cbn [map concat]. rewrite map_map.
  rewrite Nat.mul_0_l, Nat.add_0_r.
  change (S n * m)%nat with (m + n * m)%nat.
  rewrite firstn_plus, skipn_skipn. f_equal.
  rewrite <- (IH (m + b)%nat). f_equal.
  apply map_ext. intros i. do 2 f_equal. lia.
Qed.

(** What [getPixels] returns, with the dimensions as natural numbers. *)
Lemma getPixels_rows (buf : list Byte.byte) (W H C : nat) :
  length buf = (H * W * C)%nat ->
  getPixels buf (Z.of_nat W) (Z.of_nat H) (Z.of_nat C)
  = Ok {| pixels :=
            map (fun y => map (fun x => map (fun c =>
                   nth ((y * W + x) * C + c) buf Byte.x00)
                 (seq 0 C)) (seq 0 W)) (seq 0 H);
          width := Z.of_nat W; height := Z.of_nat H;
          channels := Z.of_nat C; mode := mode_of (Z.of_nat C) |}.
Proof.
  intros L. unfold getPixels, counter. rewrite !Nat2Z.id.
  rewrite (@mapM_map _ _ _
    (fun y => map (fun x => map (fun c =>
        nth (Z.to_nat ((y * Z.of_nat W + x) * Z.of_nat C + c)) buf Byte.x00)
      (map Z.of_nat (seq 0 C))) (map Z.of_nat (seq 0 W)))).
  - rewrite bind_Ok. f_equal. f_equal.
    rewrite map_map. apply map_ext. intros y.
    rewrite map_map. apply map_ext. intros x.
    rewrite map_map. apply map_ext. intros c.
    f_equal. rewrite <- !Nat2Z.inj_mul, <- !Nat2Z.inj_add, <- Nat2Z.inj_mul,
      <- Nat2Z.inj_add. apply Nat2Z.id.
  - intros y Iy. apply in_map_iff in Iy. destruct Iy as (y' & <- & Iy).
    apply in_seq in Iy.
    apply mapM_map. intros x Ix. apply in_map_iff in Ix.
    destruct Ix as (x' & <- & Ix). apply in_seq in Ix.
    apply mapM_map. intros c Ic. apply in_map_iff in Ic.
    destruct Ic as (c' & <- & Ic). apply in_seq in Ic.
    rewrite <- !Nat2Z.inj_mul, <- !Nat2Z.inj_add, <- Nat2Z.inj_mul,
      <- Nat2Z.inj_add, Nat2Z.id.
    apply at_nth. rewrite L.
    assert ((y' * W + x') * C + c' < (y' * W + x' + 1) * C)%nat by nia.
    assert ((y' * W + x' + 1) * C <= (y' * W + W) * C)%nat
      by (apply Nat.mul_le_mono_r; lia).
    assert ((y' * W + W) * C <= H * W * C)%nat
      by (apply Nat.mul_le_mono_r; nia).
    lia.
Qed.

Lemma at_map_seq {A} (F : nat -> A) (n i : nat) :
  (i < n)%nat -> at_ (map F (seq 0 n)) (Z.of_nat i) = Ok (F i).
Proof.
  intros L. rewrite (at_nth (F 0%nat)) by now rewrite length_map, length_seq.
  now rewrite map_nth, seq_nth.
Qed.

Lemma getPixels_buffer (buf : list Byte.byte) (w h c : Z) :
  0 <= w -> 0 <= h -> 0 <= c -> Z.of_nat (length buf) = h * w * c ->
  exists data,
    getPixels buf w h c = Ok data
    /\ well_formed data
    /\ (width data = w /\ height data = h /\ channels data = c)
    /\ (forall y x k, 0 <= y < h -> 0 <= x < w -> 0 <= k < c ->
          sample data y x k = at_ buf ((y * w + x) * c + k))
    /\ samples data = buf.
Proof.
  intros Hw Hh Hc L.
  rewrite <- (Z2Nat.id w), <- (Z2Nat.id h), <- (Z2Nat.id c) in * by assumption.
  set (W := Z.to_nat w) in *. set (H := Z.to_nat h) in *.
  set (C := Z.to_nat c) in *.
  assert (Ln : length buf = (H * W * C)%nat).
  { apply Nat2Z.inj. now rewrite L, !Nat2Z.inj_mul. }
  eexists. split; [apply (getPixels_rows buf W H C Ln)|].
  split; [|split; [|split]].
  - unfold well_formed. cbn [pixels width height channels].
    rewrite length_map, length_seq. split; [reflexivity|].
    apply Forall_forall. intros row I. apply in_map_iff in I.
    destruct I as (y & <- & _). rewrite length_map, length_seq.
    split; [reflexivity|].
    apply Forall_forall. intros px I. apply in_map_iff in I.
    destruct I as (x & <- & _). now rewrite length_map, length_seq.
  - cbn [width height channels]. repeat split.
  - intros y x k Y X K. unfold sample. cbn [pixels].
    rewrite <- (Z2Nat.id y), <- (Z2Nat.id x), <- (Z2Nat.id k) by lia.
    rewrite at_map_seq by lia. rewrite bind_Ok.
    rewrite at_map_seq by lia. rewrite bind_Ok.
    rewrite at_map_seq by lia.
    rewrite <- !Nat2Z.inj_mul, <- !Nat2Z.inj_add, <- Nat2Z.inj_mul,
      <- Nat2Z.inj_add.
    symmetry. apply at_nth. rewrite Ln.
    assert (Z.to_nat y < H)%nat by lia. assert (Z.to_nat x < W)%nat by lia.
    assert (Z.to_nat k < C)%nat by lia.
    set (y' := Z.to_nat y) in *. set (x' := Z.to_nat x) in *.
    set (k' := Z.to_nat k) in *.
    assert ((y' * W + x') * C + k' < (y' * W + x' + 1) * C)%nat by nia.
    assert ((y' * W + x' + 1) * C <= (y' * W + W) * C)%nat
      by (apply Nat.mul_le_mono_r; lia).
    assert ((y' * W + W) * C <= H * W * C)%nat
      by (apply Nat.mul_le_mono_r; nia).
    lia.
  - unfold samples. cbn [pixels]. rewrite map_map.
    assert (Row : forall y, (y < H)%nat ->
      concat (map (fun x => map (fun k => nth ((y * W + x) * C + k) buf Byte.x00)
                              (seq 0 C)) (seq 0 W))
      = firstn (W * C) (skipn (y * (W * C)) buf)).
    { intros y Y. rewrite <- (concat_segments buf C W (y * (W * C))).
      f_equal. apply map_ext_in. intros x Ix. apply in_seq in Ix.
      replace (y * (W * C) + x * C)%nat with ((y * W + x) * C)%nat by lia.
      apply segment_nth. rewrite Ln.
      assert ((y * W + x + 1) * C <= (y * W + W) * C)%nat
        by (apply Nat.mul_le_mono_r; lia).
      assert ((y * W + W) * C <= H * W * C)%nat
        by (apply Nat.mul_le_mono_r; nia).
      lia. }
    rewrite (map_ext_in _ (fun y => firstn (W * C) (skipn (0 + y * (W * C)) buf))).
    + rewrite concat_segments. cbn [skipn].
      apply firstn_all2. rewrite Ln. lia.
    + intros y Iy. apply in_seq in Iy. now rewrite Row by lia.
Qed.

(** The buffer that [getPixels] builds from a decoded image of [height]
    rows of [width] pixels of [channels] samples is well formed, has these
    dimensions, and holds at [(y, x, c)] the sample
    [(y * width + x) * channels + c] of the decoder. *)
Theorem getPixels_well_formed (buf : list Byte.byte) (w h c : Z) :
  0 <= w -> 0 <= h -> 0 <= c -> Z.of_nat (length buf) = h * w * c ->
  exists data,
    getPixels buf w h c = Ok data
    /\ well_formed data
    /\ (width data = w /\ height data = h /\ channels data = c)
    /\ forall y x k, 0 <= y < h -> 0 <= x < w -> 0 <= k < c ->
         sample data y x k = at_ buf ((y * w + x) * c + k).
Proof.
  intros Hw Hh Hc L.
  destruct (getPixels_buffer buf Hw Hh Hc L) as (data & E & W & D & S & _).
  now exists data.
Qed.

Lemma getPixels_well_formed_witness :
  exists data,
    getPixels [Byte.x01; Byte.x02; Byte.x03; Byte.x04; Byte.x05; Byte.x06] 2 1 3
      = Ok data
    /\ well_formed data
    /\ (width data = 2 /\ height data = 1 /\ channels data = 3)
    /\ forall y x k, 0 <= y < 1 -> 0 <= x < 2 -> 0 <= k < 3 ->
         sample data y x k
         = at_ [Byte.x01; Byte.x02; Byte.x03; Byte.x04; Byte.x05; Byte.x06]
               ((y * 2 + x) * 3 + k).
Proof. apply getPixels_well_formed; try lia. reflexivity. Defined.

(** The conversion loses nothing and adds nothing: read row by row and
    pixel by pixel, the samples of the buffer are those of the decoder. *)
Theorem getPixels_samples (buf : list Byte.byte) (w h c : Z) :
  0 <= w -> 0 <= h -> 0 <= c -> Z.of_nat (length buf) = h * w * c ->
  exists data, getPixels buf w h c = Ok data /\ samples data = buf.
Proof.
  intros Hw Hh Hc L.
  destruct (getPixels_buffer buf Hw Hh Hc L) as (data & E & _ & _ & _ & S).
  now exists data.
Qed.

Lemma getPixels_samples_witness :
  exists data,
    getPixels [Byte.x01; Byte.x02; Byte.x03; Byte.x04; Byte.x05; Byte.x06] 2 1 3
      = Ok data
    /\ samples data = [Byte.x01; Byte.x02; Byte.x03; Byte.x04; Byte.x05; Byte.x06].
Proof. apply getPixels_samples; try lia. reflexivity. Defined.

(** [inspectImage] on a decoded image: the conversion and the inspection
    both return, with one to four options, whatever the samples are. *)
Theorem inspectImage_decoded (buf : list Byte.byte) (w h c : Z) :
  0 <= w -> 0 <= h -> 0 <= c -> Z.of_nat (length buf) = h * w * c ->
  exists data options,
    getPixels buf w h c = Ok data
    /\ inspectImage data = Ok options
    /\ (1 <= length options <= 4)%nat.
Proof.
  intros Hw Hh Hc L.
  destruct (getPixels_buffer buf Hw Hh Hc L) as (data & E & W & _).
  destruct (inspectImage_shape W) as (options & I & N & _).
  now exists data, options.
Qed.

Lemma inspectImage_decoded_witness :
  exists data options,
    getPixels [Byte.xff; Byte.xff; Byte.xff; Byte.x20; Byte.x40; Byte.x60] 2 1 3
      = Ok data
    /\ inspectImage data = Ok options
    /\ (1 <= length options <= 4)%nat.
Proof. apply inspectImage_decoded; try lia. reflexivity. Defined.

End PixelFacts.

(** ** Posterizer: the grey levels *)

Module PosterizeFacts.
Import Posterize.

Lemma step_range (levels : Z) :
  2 <= levels <= 256 -> 1 <= 256 / levels <= 128.
Proof.
  intros L. split.
  - apply Z.div_le_lower_bound; lia.
  - apply Z.div_le_upper_bound; lia.
Qed.

Lemma posterize_unfold (levels p : Z) :
  2 <= levels <= 256 -> 0 <= p <= 255 ->
  posterize levels p = Ok (p / (256 / levels) * (256 / levels)).
Proof.
  intros L P. pose proof (step_range L) as S.
  unfold posterize. destruct (Z.ltb_spec 1 levels) as [_|C]; [|lia].
  cbv zeta. rewrite (Z.quot_div_nonneg 256 levels) by lia.
  destruct (Z.eqb_spec (256 / levels) 0) as [C|_]; [lia|].
  rewrite Z.quot_div_nonneg by lia. f_equal.
  apply Z.mod_small.
  pose proof (Z.mul_div_le p (256 / levels) ltac:(lia)).
  assert (0 <= p / (256 / levels)) by (apply Z.div_pos; lia).
  nia.
Qed.

(** For two to 256 levels, a sample is rounded down to a multiple of the
    step [256 / levels]: it loses less than one step and never grows. *)
Theorem posterize_floor (levels p : Z) :
  2 <= levels <= 256 -> 0 <= p <= 255 ->
  let step := 256 / levels in
  exists q, posterize levels p = Ok q
            /\ q mod step = 0 /\ q <= p < q + step.
Proof.
  intros L P step. pose proof (step_range L) as S. fold step in S.
  exists (p / step * step). split; [now apply posterize_unfold|].
  split; [apply Z.mod_mul; lia|].
  pose proof (Z.div_mod p step ltac:(lia)).
  pose proof (Z.mod_pos_bound p step ltac:(lia)). lia.
Qed.

Lemma posterize_floor_witness :
  let step := 256 / 3 in
  exists q, posterize 3 200 = Ok q /\ q mod step = 0 /\ q <= 200 < q + step.
Proof. apply posterize_floor; lia. Defined.

(** The posterization of a sample is defined exactly for at most 256
    levels: with more, the step is zero and the division by it is
    undefined. *)
Theorem posterize_defined_iff (levels p : Z) :
  (exists q, posterize levels p = Ok q) <-> levels <= 256.
Proof.
  unfold posterize. destruct (Z.ltb_spec 1 levels) as [L|L].
  - cbv zeta. destruct (Z_le_gt_dec levels 256) as [U|U].
    + rewrite (Z.quot_div_nonneg 256 levels) by lia.
      pose proof (@step_range levels ltac:(lia)).
      destruct (Z.eqb_spec (256 / levels) 0) as [C|_]; [lia|].
      split; [intros _; exact U | eauto].
    + rewrite Z.quot_small by lia. cbn. split; [|lia].
      intros [q H]. discriminate.
  - split; [lia | eauto].
Qed.

(** The grey levels that come out are the multiples of the step up to
    255, and there are at least as many as were asked for: exactly as
    many when [levels] divides 256, and more otherwise (four for three
    levels). *)
Theorem posterize_levels (levels : Z) :
  2 <= levels <= 256 ->
  let step := 256 / levels in
  let top := 255 / step in
  (forall k, 0 <= k <= top -> posterize levels (k * step) = Ok (k * step))
  /\ levels <= top + 1
  /\ (top + 1 = levels <-> 256 mod levels = 0).
Proof.
  intros L step top. pose proof (step_range L) as S. fold step in S.
  pose proof (Z.div_mod 256 levels ltac:(lia)) as D. fold step in D.
  pose proof (Z.mod_pos_bound 256 levels ltac:(lia)) as M.
  pose proof (Z.div_mod 255 step ltac:(lia)) as D'. fold top in D'.
  pose proof (Z.mod_pos_bound 255 step ltac:(lia)) as M'.
  assert (T0 : 0 <= top) by (apply Z.div_pos; lia).
  split; [|split].
  - intros k K.
    assert (Kp : 0 <= k * step <= 255) by nia.
    rewrite (posterize_unfold L Kp). fold step.
    now rewrite Z.div_mul by lia.
  - destruct (Z_le_gt_dec levels (top + 1)) as [|G]; [assumption|exfalso].
    assert (step * (top + 1) <= step * (levels - 1)) by (apply Z.mul_le_mono_nonneg_l; lia).
    nia.
  - split.
    + intros E. destruct (Z.eq_dec (256 mod levels) 0) as [|N]; [assumption|exfalso].
      assert (levels * step <= 255) by lia.
      assert (step * levels <= step * top) by nia.
      assert (levels <= top) by nia. lia.
    + intros Z0. rewrite Z0 in D.
      destruct (Z_le_gt_dec (top + 1) levels) as [Le|G].
      * assert (levels <= top + 1); [|lia].
        destruct (Z_le_gt_dec levels (top + 1)) as [|G]; [assumption|exfalso].
        assert (step * (top + 1) <= step * (levels - 1))
          by (apply Z.mul_le_mono_nonneg_l; lia).
        nia.
      * exfalso.
        assert (step * levels <= step * top) by (apply Z.mul_le_mono_nonneg_l; lia).
        nia.
Qed.

Lemma posterize_levels_witness :
  let step := 256 / 3 in
  let top := 255 / step in
  (forall k, 0 <= k <= top -> posterize 3 (k * step) = Ok (k * step))
  /\ 3 <= top + 1
  /\ (top + 1 = 3 <-> 256 mod 3 = 0).
Proof. apply posterize_levels. lia. Defined.

End PosterizeFacts.

(** ** The command line: from the options to the posterizer *)

Module CliFacts.
Import Palette PaletteSpec PaletteFacts Inspect DominantFacts Posterize
  PosterizeFacts Cli.

(** With the options of [inspectImage], the automatic selection is defined
    exactly for an option index that is not negative (a negative one
    indexes the vector before its start); the selected option has the step
    [min (optionIndex, size - 1) + 1], between 1 and 4, and with this number
    of levels the posterization of every sample is defined. *)
Theorem selectOption_step (data : PixelData)
    (options : list VectorizationOption) (optionIndex : Z) :
  well_formed data -> inspectImage data = Ok options ->
  ((exists opt, selectOption options optionIndex = Ok opt) <-> 0 <= optionIndex)
  /\ forall opt, selectOption options optionIndex = Ok opt ->
       step opt = Z.min optionIndex (Z.of_nat (length options) - 1) + 1
       /\ 1 <= step opt <= 4
       /\ forall p, 0 <= p <= 255 -> exists q, posterize (step opt) p = Ok q.
Proof.
  intros W E.
  destruct (inspectImage_shape W) as (options' & E' & L & S).
  assert (options' = options) by congruence. subst options'.
  unfold selectOption. cbv zeta.
  set (idx := Z.min optionIndex (Z.of_nat (length options) - 1)).
  assert (A : forall opt, at_ options idx = Ok opt ->
                0 <= idx /\ step opt = idx + 1 /\ 1 <= step opt <= 4).
  { intros opt H. unfold at_ in H.
    destruct (Z.ltb_spec idx 0) as [C|C]; [discriminate|].
    destruct (nth_error options (Z.to_nat idx)) as [o|] eqn:N; [|discriminate].
    injection H as <-.
    destruct (S _ _ N) as (St & _).
    assert (Z.to_nat idx < length options)%nat.
    { apply nth_error_Some. congruence. }
    rewrite St. lia. }
  split; [split|].
  - intros [opt H]. apply A in H. lia.
  - intros I.
    destruct (@at_in_range _ options idx ltac:(lia)) as (opt & H & _).
    now exists opt.
  - intros opt H. destruct (A opt H) as (I & St & R).
    split; [exact St|]. split; [exact R|].
    intros p P. destruct (Z.eq_dec (step opt) 1) as [->|N].
    + now exists p.
    + rewrite posterize_unfold by lia. eauto.
Qed.

Lemma selectOption_step_witness :
  ((exists opt,
      selectOption [{| step := 1; colors := [lit "#204060"] |}] 2 = Ok opt)
   <-> 0 <= 2)
  /\ forall opt,
       selectOption [{| step := 1; colors := [lit "#204060"] |}] 2 = Ok opt ->
       step opt
       = Z.min 2 (Z.of_nat (length [{| step := 1; colors := [lit "#204060"] |}]) - 1) + 1
       /\ 1 <= step opt <= 4
       /\ forall p, 0 <= p <= 255 -> exists q, posterize (step opt) p = Ok q.
Proof.
  apply (@selectOption_step white_white_blue).
  - apply rgb_row_well_formed.
  - vm_compute. reflexivity.
Defined.

End CliFacts.

(** ** The end of [parseImage]: [optimizeSvg], then [viewboxify] *)

Module PipelineFacts.
Import Text TextFacts Normalizer NormalizerSpec NormalizerFacts NormalSpec
  NormalFacts Viewbox ViewboxSpec ViewboxFacts PipelineSpec.

(** *** Single blanks *)

Lemma tidy_from_split (b : bool) (l : str) (c : ascii) (r : str) :
  Hex.isspace c = false ->
  tidy_from b (l ++ c :: r) = tidy_from b l && tidy_from false (c :: r).
Proof.
  intros C. revert b. induction l as [|x l IH]; intros b.
  - cbn [app tidy_from]. now rewrite C.
  - cbn [app tidy_from]. destruct (Hex.isspace x).
    + rewrite IH. now rewrite !andb_assoc.
    + apply IH.
Qed.

Lemma tidy_from_run (b : bool) (l r : str) :
  forallb not_space l = true -> l <> [] ->
  tidy_from b (l ++ r) = tidy_from false r.
Proof.
  intros F N. destruct l as [|c l]; [congruence|]. clear N.
  revert c b F. induction l as [|d l IH]; intros c b F.
  - cbn in F. rewrite andb_true_r in F. apply negb_true_iff in F.
    cbn [app tidy_from]. now rewrite F.
  - cbn [forallb] in F. apply andb_prop in F. destruct F as [Fc F].
    apply negb_true_iff in Fc.
    change ((c :: d :: l) ++ r) with (c :: ((d :: l) ++ r)).
    cbn [tidy_from]. rewrite Fc. now apply IH.
Qed.

Lemma digit_not_space (l : str) :
  forallb is_digit l = true -> forallb not_space l = true.
Proof.
  assert (A : forall c, implb (is_digit c) (not_space c) = true).
  { apply ascii_forall. vm_compute. reflexivity. }
  induction l as [|c l IH]; intros F; [reflexivity|].
  cbn [forallb] in *. apply andb_prop in F. destruct F as [Fc F].
  specialize (A c). rewrite Fc in A. cbn in A. rewrite A. now apply IH.
Qed.

Lemma digit_not_gt (l : str) :
  forallb is_digit l = true -> forallb not_gt l = true.
Proof.
  assert (A : forall c, implb (is_digit c) (not_gt c) = true).
  { apply ascii_forall. vm_compute. reflexivity. }
  induction l as [|c l IH]; intros F; [reflexivity|].
  cbn [forallb] in *. apply andb_prop in F. destruct F as [Fc F].
  specialize (A c). rewrite Fc in A. cbn in A. rewrite A. now apply IH.
Qed.

(** The new header without its closing [>]. *)
Lemma newHeader_front (w h : str) :
  newHeader w h
  = (svg "<svg xmlns='http://www.w3.org/2000/svg' viewBox='0 0 " ++ w
     ++ lit " " ++ h ++ [dquote]) ++ [">"%char].
Proof. unfold newHeader. now rewrite <- !app_assoc. Qed.

Lemma oldHeader_front (w h : str) :
  oldHeader w h
  = (svg "<svg xmlns='http://www.w3.org/2000/svg' width='" ++ w
     ++ svg "' height='" ++ h ++ [dquote]) ++ [">"%char].
Proof. unfold oldHeader. now rewrite <- !app_assoc. Qed.

Lemma newHeader_tidy (w h : str) :
  size w -> size h ->
  tidy_from false
    (svg "<svg xmlns='http://www.w3.org/2000/svg' viewBox='0 0 " ++ w
     ++ lit " " ++ h ++ [dquote]) = true.
Proof.
  intros [Nw Fw] [Nh Fh].
  destruct w as [|d w]; [congruence|].
  assert (Sd : Hex.isspace d = false).
  { cbn [forallb] in Fw. apply andb_prop in Fw. destruct Fw as [Fd _].
    assert (A : forallb not_space [d] = true).
    { apply digit_not_space. cbn. now rewrite Fd. }
    cbn in A. rewrite andb_true_r in A. now apply negb_true_iff in A. }
  change ((d :: w) ++ lit " " ++ h ++ [dquote])
    with (d :: (w ++ lit " " ++ h ++ [dquote])).
  rewrite (@tidy_from_split _ _ _ _ Sd).
  apply andb_true_intro. split; [reflexivity|].
  change (d :: w ++ lit " " ++ h ++ [dquote])
    with ((d :: w) ++ lit " " ++ h ++ [dquote]).
  rewrite tidy_from_run by (try discriminate; now apply digit_not_space).
  cbn [lit list_ascii_of_string app tidy_from].
  change (Hex.isspace " ") with true. cbn [Ascii.eqb Bool.eqb negb andb].
  rewrite tidy_from_run by (try assumption; now apply digit_not_space).
  reflexivity.
Qed.

(** *** Gaps *)

Lemma starts_gap_three (x y z : ascii) (r r' : str) :
  starts_gap (x :: y :: z :: r) = starts_gap (x :: y :: z :: r').
Proof.
  unfold starts_gap, gap. cbn [lit list_ascii_of_string strip_prefix].
  destruct (Ascii.eqb ">" x), (Ascii.eqb " " y), (Ascii.eqb "<" z);
    reflexivity.
Qed.

Lemma starts_gap_head (c : ascii) (r : str) :
  not_gt c = true -> starts_gap (c :: r) = false.
Proof.
  intros N. unfold starts_gap, gap.
  cbn [lit list_ascii_of_string strip_prefix].
  unfold not_gt in N. apply negb_true_iff in N.
  rewrite Ascii.eqb_sym, N. reflexivity.
Qed.

Lemma gap_free_suffix (l r : str) : gap_free (l ++ r) = true -> gap_free r = true.
Proof.
  induction l as [|c l IH]; intros H; [exact H|].
  cbn [app gap_free] in H. apply andb_prop in H. now apply IH.
Qed.

Lemma gap_free_no_gt (l r : str) :
  forallb not_gt l = true -> gap_free (l ++ r) = gap_free r.
Proof.
  induction l as [|c l IH]; intros F; [reflexivity|].
  cbn [forallb] in F. apply andb_prop in F. destruct F as [Fc F].
  cbn [app gap_free]. rewrite (@starts_gap_head c _ Fc). cbn. now apply IH.
Qed.

(** What follows the first two characters of the second part does not
    matter for the gaps that start in the first part. *)
Lemma gap_free_replace (l : str) (a b : ascii) (r r' : str) :
  gap_free (l ++ a :: b :: r) = true ->
  gap_free (a :: b :: r') = true ->
  gap_free (l ++ a :: b :: r') = true.
Proof.
  intros H H'. induction l as [|x l IH]; [exact H'|].
  cbn [app gap_free] in *. apply andb_prop in H. destruct H as [G H].
  rewrite (IH H), andb_true_r.
  destruct l as [|y [|z l]].
  - cbn [app] in *. now rewrite (starts_gap_three x a b r' r).
  - cbn [app] in *. now rewrite (starts_gap_three x y a (b :: r') (b :: r)).
  - cbn [app] in *.
    now rewrite (starts_gap_three x y z (l ++ a :: b :: r') (l ++ a :: b :: r)).
Qed.

Lemma gap_free_absent (s : str) : ~ occurs gap s -> gap_free s = true.
Proof.
  induction s as [|c t IH]; intros N; [reflexivity|].
  cbn [gap_free]. apply andb_true_intro. split.
  - unfold starts_gap.
    destruct (strip_prefix gap (c :: t)) as [r|] eqn:E; [|reflexivity].
    apply strip_prefix_Some in E. exfalso. apply N. now exists [], r.
  - apply IH. intros (pre & post & ->). apply N. now exists (c :: pre), post.
Qed.

Lemma gap_free_squeeze (s : str) : gap_free s = true -> squeeze s = s.
Proof.
  induction s as [|c t IH]; intros G; [reflexivity|].
  cbn [gap_free] in G. apply andb_prop in G. destruct G as [G1 G2].
  unfold starts_gap in G1.
  destruct (strip_prefix gap (c :: t)) as [r|] eqn:E; [discriminate|].
  unfold squeeze. rewrite (@replace_all_keep _ _ c t E). f_equal. now apply IH.
Qed.

Lemma viewboxify_optimizeSvg_fixed (s : str) :
  optimizeSvg (viewboxify (optimizeSvg s)) = viewboxify (optimizeSvg s).
Proof.
  set (t := optimizeSvg s).
  assert (T : tidy_from false t = true).
  { unfold t, optimizeSvg. fold (squeeze (collapse_space s)).
    apply squeeze_tidy, collapse_from_tidy. }
  assert (G : gap_free t = true).
  { apply gap_free_absent, optimizeSvg_no_gap_aux. }
  assert (Fix : forall v, tidy_from false v = true -> gap_free v = true ->
                          optimizeSvg v = v).
  { intros v Tv Gv. unfold optimizeSvg, collapse_space.
    rewrite (@collapse_from_fixed false v Tv). now apply gap_free_squeeze. }
  destruct (viewboxify_split t) as [->|(pre & post & w & h & Sw & Sh & E & ->)].
  { now apply Fix. }
  rewrite E in T, G. rewrite oldHeader_front, <- app_assoc in T, G.
  set (OF := svg "<svg xmlns='http://www.w3.org/2000/svg' width='" ++ w
             ++ svg "' height='" ++ h ++ [dquote]) in *.
  set (NF := svg "<svg xmlns='http://www.w3.org/2000/svg' viewBox='0 0 " ++ w
             ++ lit " " ++ h ++ [dquote]).
  cbn [app] in T, G.
  assert (Gt : Hex.isspace ">" = false) by reflexivity.
  assert (Lt : Hex.isspace "<" = false) by reflexivity.
  (* what is known of the text after the header *)
  assert (Tp : tidy_from false pre = true
               /\ tidy_from false (">"%char :: post) = true).
  { change (pre ++ OF ++ ">"%char :: post)
      with (pre ++ "<"%char :: (tl OF ++ ">"%char :: post)) in T.
    rewrite (@tidy_from_split _ _ _ _ Lt) in T.
    apply andb_prop in T. destruct T as [T1 T2]. split; [exact T1|].
    change ("<"%char :: tl OF ++ ">"%char :: post)
      with (OF ++ ">"%char :: post) in T2.
    rewrite (@tidy_from_split _ _ _ _ Gt) in T2.
    now apply andb_prop in T2. }
  assert (Gp : gap_free (">"%char :: post) = true).
  { rewrite app_assoc in G. now apply gap_free_suffix in G. }
  rewrite newHeader_front, <- app_assoc. fold NF. cbn [app].
  apply Fix.
  - change (pre ++ NF ++ ">"%char :: post)
      with (pre ++ "<"%char :: (tl NF ++ ">"%char :: post)).
    rewrite (@tidy_from_split _ _ _ _ Lt).
    apply andb_true_intro. split; [apply Tp|].
    change ("<"%char :: tl NF ++ ">"%char :: post)
      with (NF ++ ">"%char :: post).
    rewrite (@tidy_from_split _ _ _ _ Gt).
    apply andb_true_intro. split; [now apply newHeader_tidy | apply Tp].
  - change (pre ++ NF ++ ">"%char :: post)
      with (pre ++ "<"%char :: "s"%char :: (tl (tl NF) ++ ">"%char :: post)).
    apply gap_free_replace with (r := tl (tl OF) ++ ">"%char :: post).
    + exact G.
    + change ("<"%char :: "s"%char :: tl (tl NF) ++ ">"%char :: post)
        with (NF ++ ">"%char :: post).
      rewrite gap_free_no_gt; [exact Gp|].
      unfold NF. rewrite !forallb_app.
      destruct Sw as [_ Fw], Sh as [_ Fh].
      rewrite (@digit_not_gt w Fw), (@digit_not_gt h Fh). reflexivity.
Qed.

(** The text that [parseImage] writes is normalised: after [optimizeSvg]
    and [viewboxify], a further [optimizeSvg] would change nothing; the
    rewritten header brings in no white space but single blanks and no gap
    between tags. *)
Theorem viewboxify_optimizeSvg_normal (s : str) :
  optimizeSvg (viewboxify (optimizeSvg s)) = viewboxify (optimizeSvg s).
Proof. apply viewboxify_optimizeSvg_fixed. Qed.

End PipelineFacts.

(** ** ColorMapper: [replaceColors] *)

Module RecolorFacts.
Import Text TextFacts Palette PaletteSpec PaletteFacts ColorMapper MapperSpec
  MapperFacts NearestFacts DominantFacts Recolor RecolorSpec.

Lemma hex_run_ok (n : nat) (t : str) :
  hex_run n t = true ->
  length (firstn n t) = n /\ forallb Hex.is_xdigit (firstn n t) = true.
Proof.
  unfold hex_run. intros H.
  apply andb_prop in H. destruct H as [H _].
  apply andb_prop in H. destruct H as [L F].
  apply Nat.eqb_eq in L. now split.
Qed.

Lemma accepted_six (ds : str) :
  length ds = 6%nat -> forallb Hex.is_xdigit ds = true ->
  ok ("#"%char :: ds).
Proof.
  intros L F.
  destruct ds as [|d1 [|d2 [|d3 [|d4 [|d5 [|d6 [|]]]]]]]; try discriminate.
  cbn [forallb] in F.
  repeat (apply andb_prop in F; destruct F as [?X F]).
  unfold ok, HexSpec.accepted.
  cbn [Hex.strip_hash length Nat.eqb Nat.leb firstn skipn HexSpec.field_ok].
  now rewrite X, X1, X3.
Qed.

Lemma accepted_three (ds : str) :
  length ds = 3%nat -> forallb Hex.is_xdigit ds = true ->
  ok ("#"%char :: ds).
Proof.
  intros L F.
  destruct ds as [|d1 [|d2 [|d3 [|]]]]; try discriminate.
  cbn [forallb] in F.
  repeat (apply andb_prop in F; destruct F as [?X F]).
  unfold ok, HexSpec.accepted.
  cbn [Hex.strip_hash length Nat.eqb Nat.leb Hex.expand firstn skipn
       HexSpec.field_ok].
  now rewrite X, X0, X1.
Qed.

Lemma match_color_ok (s m suffix : str) :
  match_color s = Some (m, suffix) -> ok m.
Proof.
  unfold match_color. destruct s as [|c t]; [discriminate|].
  destruct (Ascii.eqb_spec c "#"%char) as [->|N].
  - destruct (hex_run 6 t) eqn:H6.
    + intros H. injection H as <- _.
      destruct (hex_run_ok _ _ H6). now apply accepted_six.
    + destruct (hex_run 3 t) eqn:H3; [|discriminate].
      intros H. injection H as <- _.
      destruct (hex_run_ok _ _ H3). now apply accepted_three.
  - destruct c as [[] [] [] [] [] [] [] []]; try discriminate.
    now destruct N.
Qed.

(** Every text that the search finds is a colour text for [hexToRgb]. *)
Lemma color_matches_ok (s : str) (skip : nat) :
  Forall ok (color_matches_from skip s).
Proof.
  revert skip. induction s as [|c t IH]; intros skip; [constructor|].
  cbn [color_matches_from]. destruct skip as [|k]; [|apply IH].
  destruct (match_color (c :: t)) as [[m suffix]|] eqn:M; [|apply IH].
  constructor; [now apply match_color_ok in M | apply IH].
Qed.

Lemma set_insert_In (x a : str) (l : list str) :
  In a (set_insert x l) -> a = x \/ In a l.
Proof.
  induction l as [|y t IH]; simpl.
  - intros [<-|[]]. now left.
  - destruct (str_ltb x y); [simpl; intuition|].
    destruct (str_ltb y x); simpl; intuition.
Qed.

Lemma fold_set_insert_In (ms acc : list str) (a : str) :
  In a (fold_left (fun s m => set_insert m s) ms acc) -> In a ms \/ In a acc.
Proof.
  revert acc. induction ms as [|m ms IH]; intros acc I; [now right|].
  cbn [fold_left] in I. apply IH in I. destruct I as [I|I].
  - left. now right.
  - apply set_insert_In in I. destruct I as [->|I]; [left; now left | now right].
Qed.

Lemma bucket_ok (c : str) : bucket_color c -> ok c.
Proof.
  intros (r & g & b & E & _). unfold ok.
  pose proof (HexFacts.hexToRgb_spec c) as S.
  destruct (HexSpec.accepted c); [reflexivity|].
  destruct S as [e S]. congruence.
Qed.

Lemma foldM_ok {A B} (f : A -> B -> result A) (l : list B) :
  (forall a b, In b l -> exists a', f a b = Ok a') ->
  forall a, exists out, foldM f l a = Ok out.
Proof.
  induction l as [|b l IH]; intros H a; simpl; [eauto|].
  destruct (H a b ltac:(now left)) as [a' ->]. rewrite bind_Ok.
  apply IH. intros a0 b0 I. apply H. now right.
Qed.

Lemma replaceColors_defined (svgContent : str) (data : PixelData) :
  well_formed data -> exists out, replaceColors svgContent data = Ok out.
Proof.
  intros W. unfold replaceColors.
  destruct (_ || _); [eauto|]. cbv zeta.
  set (svgColors := fold_left (fun s m => set_insert m s)
                      (color_matches svgContent) []).
  assert (S : Forall ok svgColors).
  { apply Forall_forall. intros a I. apply fold_set_insert_In in I.
    destruct I as [I|[]].
    pose proof (color_matches_ok svgContent 0) as F.
    rewrite Forall_forall in F. now apply F. }
  destruct svgColors as [|c0 cs] eqn:E; [eauto|]. rewrite <- E in *.
  destruct (extractDominantColors_scanned
              (Z.min (Z.of_nat (length svgColors)) 5) W) as (dom & -> & B).
  rewrite bind_Ok. destruct dom as [|d0 ds] eqn:Ed; [eauto|]. rewrite <- Ed in *.
  apply foldM_ok. intros res svgColor I.
  assert (D : Forall ok dom).
  { rewrite Forall_forall in *. intros c Ic. now apply bucket_ok, B. }
  rewrite Forall_forall in S.
  destruct (@findNearestColor_nearest svgColor dom (S _ I) D
              ltac:(rewrite Ed; discriminate)) as (nearest & -> & _).
  rewrite bind_Ok. eauto.
Qed.

(** [replaceColors] returns for every document and every well-formed
    image: the texts that the colour pattern finds are all colour texts
    for [hexToRgb], and so are the dominant colours, so that no call of
    [findNearestColor] fails. *)
Theorem replaceColors_returns (svgContent : str) (data : PixelData) :
  well_formed data -> exists out, replaceColors svgContent data = Ok out.
Proof. apply replaceColors_defined. Qed.

Lemma replaceColors_returns_witness :
  exists out,
    replaceColors (svg "<path fill='#7f7f7f'/><path fill='#FFF'/>")
      white_white_blue = Ok out.
Proof. apply replaceColors_returns, rgb_row_well_formed. Defined.

(** *** Documents that are already in the palette *)










End RecolorFacts.

(** ** [parseImage]: the whole text processing *)

Module ParseFacts.
Import Text Palette PaletteSpec PaletteFacts Flatten FlattenSpec Normalizer
  Viewbox OpacitySpec OpacityFacts PipelineFacts RecolorFacts Pipeline.

(** The text processing of [parseImage] returns, for every step, every
    list of colours and every well-formed image, on a drawing whose
    [fill-opacity] values are opacities between 0 and 1 (in particular on
    one that has none); and the document it returns is normalised:
    [optimizeSvg] would leave it as it is. *)
Theorem processSvg_returns (svgContent : str) (step : Z) (colors : list str)
    (data : PixelData) :
  well_formed data ->
  Forall reads_unit (opacity_matches (strip_black svgContent)) ->
  exists out,
    processSvg svgContent step colors data = Ok out
    /\ optimizeSvg out = out.
Proof.
  intros W H. unfold processSvg.
  destruct (@getSolid_defined svgContent (negb (step =? 1)) H) as [s1 ->].
  rewrite bind_Ok.
  assert (S2 : exists s2,
    (if (step =? 1) && negb (length colors =? 0)%nat
     then do c <- at_ colors 0; Ok (replace_all (lit "#000000") c s1)
     else if 1 <? step then Recolor.replaceColors s1 data else Ok s1)
    = Ok s2).
  { destruct ((step =? 1) && negb (length colors =? 0)%nat) eqn:C.
    - apply andb_prop in C. destruct C as [_ C].
      apply negb_true_iff, Nat.eqb_neq in C.
      destruct (@at_in_range _ colors 0 ltac:(lia)) as (c & -> & _).
      rewrite bind_Ok. eauto.
    - destruct (1 <? step); [now apply replaceColors_defined | eauto]. }
  destruct S2 as [s2 ->]. rewrite bind_Ok. cbv zeta.
  eexists. split; [reflexivity|]. apply viewboxify_optimizeSvg_fixed.
Qed.

Lemma processSvg_returns_witness :
  exists out,
    processSvg (svg "<svg><path fill='#000000' d='M0 0z'/> </svg>") 1
      [lit "#204060"] white_white_blue = Ok out
    /\ optimizeSvg out = out.
Proof.
  apply processSvg_returns.
  - apply rgb_row_well_formed.
  - constructor.
Defined.

End ParseFacts.

(** ** Posterizer: the grey conversion *)

Module GrayFacts.
Import IEEE IEEESpec IEEEFacts MapperSpec MapperFacts Palette PaletteFacts.
Import PixelStore PixelFacts Posterize PosterizeFacts OpacityFacts Gray GraySpec.

Lemma unit64_pos : 0 < unit64.
Proof. vm_compute. reflexivity. Qed.

Lemma rnd64_bounded (num den B : Z) :
  0 <= num -> 0 < den -> num <= B * den -> fits 53 B -> B <= largest f64 ->
  rnd f64 num den = Fin (rndz 53 num den) /\ 0 <= rndz 53 num den <= B.
Proof.
  intros N D L F G.
  assert (R : 0 <= rndz 53 num den <= B).
  { split; [now apply rndz_nonneg|].
    rewrite <- (rndz_fits prec64 F). apply rndz_mono; lia. }
  split; [|exact R]. apply rnd_finite. change (prec f64) with 53.
  assert (0 <= largest f64) by (vm_compute; discriminate). lia.
Qed.

Lemma rndz64_err (n B : Z) :
  0 <= n <= B ->
  2 * (rndz 53 n 1 - n) <= 2 ^ shift 53 B
  /\ 2 * (n - rndz 53 n 1) <= 2 ^ shift 53 B.
Proof.
  intros [N0 N1].
  destruct (rndz_error prec64 N0 Z.lt_0_1) as [E1 E2].
  rewrite Z.div_1_r in E1, E2.
  assert (K : shift 53 n <= shift 53 B) by (apply shift_mono; lia).
  assert (K0 : 0 <= shift 53 n) by (unfold shift; lia).
  assert (P : 2 ^ shift 53 n <= 2 ^ shift 53 B).
  { apply Z.pow_le_mono_r; lia. }
  lia.
Qed.

(** The weights: what the literals are, and how far from the decimals. *)
Lemma literals :
  literal 299 = Fin k299 /\ literal 587 = Fin k587 /\ literal 114 = Fin k114.
Proof. repeat split; vm_compute; reflexivity. Qed.

Lemma weights :
  (0 <= k299 <= unit64 /\ 0 <= k587 <= unit64 /\ 0 <= k114 <= unit64)
  /\ Z.abs (1000 * k299 - 299 * unit64) <= 2 ^ 1030
  /\ Z.abs (1000 * k587 - 587 * unit64) <= 2 ^ 1030
  /\ Z.abs (1000 * k114 - 114 * unit64) <= 2 ^ 1030.
Proof. repeat split; vm_compute; discriminate. Qed.

Lemma big_fits : fits 53 (2 ^ 9 * unit64) /\ 2 ^ 9 * unit64 <= largest f64.
Proof.
  split.
  - exists 1, 1083. split; [reflexivity|]. split; [reflexivity | lia].
  - vm_compute. discriminate.
Qed.

(** One weighted channel. *)
Lemma weighted (k c : Z) :
  0 <= k <= unit64 -> 0 <= c <= 255 ->
  mul f64 (Fin k) (of_int f64 c) = Fin (rndz 53 (k * c) 1)
  /\ 0 <= rndz 53 (k * c) 1 <= 2 ^ 8 * unit64
  /\ 2 * Z.abs (rndz 53 (k * c) 1 - k * c) <= 2 ^ 1031.
Proof.
  intros K C. pose proof unit64_pos as U0.
  rewrite of_int64 by (apply Z.abs_lt; lia).
  cbn [mul]. change (one f64) with unit64.
  replace (k * (c * unit64)) with (k * c * unit64) by ring.
  rewrite rnd_unfold, (rndz_scale (prec f64) (k * c) U0), <- rnd_unfold.
  assert (F : fits 53 (2 ^ 8 * unit64)).
  { exists 1, 1082. split; [reflexivity|]. split; [reflexivity | lia]. }
  assert (L : 2 ^ 8 * unit64 <= largest f64) by (vm_compute; discriminate).
  assert (P : 0 <= k * c <= 2 ^ 8 * unit64) by nia.
  destruct (@rnd64_bounded (k * c) 1 (2 ^ 8 * unit64)) as [E B];
    try lia; try assumption.
  split; [exact E|]. split; [exact B|].
  destruct (@rndz64_err (k * c) (2 ^ 8 * unit64) P) as [E1 E2].
  change (shift 53 (2 ^ 8 * unit64)) with 1030 in E1, E2.
  assert (2 ^ 1030 <= 2 ^ 1031) by (apply Z.pow_le_mono_r; lia).
  lia.
Qed.

(** The sum before the cast, in units of [2^-1074]. *)
Lemma gray_sum (r g b : Z) :
  0 <= r <= 255 -> 0 <= g <= 255 -> 0 <= b <= 255 ->
  exists s,
    add f64
      (add f64 (mul f64 (literal 299) (of_int f64 r))
               (mul f64 (literal 587) (of_int f64 g)))
      (mul f64 (literal 114) (of_int f64 b)) = Fin s
    /\ 0 <= s
    /\ Z.abs (1000 * s - luma r g b * unit64) < unit64.
Proof.
  intros Hr Hg Hb. pose proof unit64_pos as U0.
  destruct literals as (-> & -> & ->).
  destruct weights as ((K1 & K2 & K3) & D1 & D2 & D3).
  destruct big_fits as [F9 L9].
  destruct (weighted K1 Hr) as (-> & B1 & E1).
  destruct (weighted K2 Hg) as (-> & B2 & E2).
  destruct (weighted K3 Hb) as (-> & B3 & E3).
  set (t1 := rndz 53 (k299 * r) 1) in *.
  set (t2 := rndz 53 (k587 * g) 1) in *.
  set (t3 := rndz 53 (k114 * b) 1) in *.
  cbn [add].
  assert (P1 : 0 <= t1 + t2 <= 2 ^ 9 * unit64) by lia.
  destruct (@rnd64_bounded (t1 + t2) 1 (2 ^ 9 * unit64)) as [-> Bs];
    try lia; try assumption.
  destruct (@rndz64_err (t1 + t2) (2 ^ 9 * unit64) P1) as [Es1 Es2].
  change (shift 53 (2 ^ 9 * unit64)) with 1031 in Es1, Es2.
  set (s1 := rndz 53 (t1 + t2) 1) in *.
  (* the first sum is below 2^8: the weights sum to about one *)
  assert (S1 : 1000 * (k299 * r + k587 * g) <= 1000 * (2 ^ 8 - 1) * unit64).
  { clearbody t1 t2 t3 s1.
    assert (1000 * k299 * r <= (299 * unit64 + 2 ^ 1030) * r)
      by (apply Z.mul_le_mono_nonneg_r; lia).
    assert (1000 * k587 * g <= (587 * unit64 + 2 ^ 1030) * g)
      by (apply Z.mul_le_mono_nonneg_r; lia).
    assert (299 * unit64 * r <= 299 * unit64 * 255)
      by (apply Z.mul_le_mono_nonneg_l; lia).
    assert (587 * unit64 * g <= 587 * unit64 * 255)
      by (apply Z.mul_le_mono_nonneg_l; lia).
    assert (2 ^ 1030 * r <= 2 ^ 1030 * 255) by (apply Z.mul_le_mono_nonneg_l; lia).
    assert (2 ^ 1030 * g <= 2 ^ 1030 * 255) by (apply Z.mul_le_mono_nonneg_l; lia).
    change unit64 with (2 ^ 1074) in *. lia. }
  assert (P2 : 0 <= s1 + t3 <= 2 ^ 9 * unit64).
  { clearbody t1 t2 t3 s1. change unit64 with (2 ^ 1074) in *. lia. }
  destruct (@rnd64_bounded (s1 + t3) 1 (2 ^ 9 * unit64)) as [E Bs2];
    try lia; try assumption.
  destruct (@rndz64_err (s1 + t3) (2 ^ 9 * unit64) P2) as [Et1 Et2].
  change (shift 53 (2 ^ 9 * unit64)) with 1031 in Et1, Et2.
  exists (rndz 53 (s1 + t3) 1). split; [exact E|]. split; [lia|].
  set (s := rndz 53 (s1 + t3) 1) in *.
  unfold luma.
  (* the error of the weights *)
  assert (W1 : Z.abs (1000 * (k299 * r) - 299 * r * unit64) <= 2 ^ 1030 * 255).
  { replace (1000 * (k299 * r) - 299 * r * unit64)
      with ((1000 * k299 - 299 * unit64) * r) by ring.
    rewrite Z.abs_mul, (Z.abs_eq r) by lia.
    transitivity (2 ^ 1030 * r); [apply Z.mul_le_mono_nonneg_r; lia|].
    apply Z.mul_le_mono_nonneg_l; lia. }
  assert (W2 : Z.abs (1000 * (k587 * g) - 587 * g * unit64) <= 2 ^ 1030 * 255).
  { replace (1000 * (k587 * g) - 587 * g * unit64)
      with ((1000 * k587 - 587 * unit64) * g) by ring.
    rewrite Z.abs_mul, (Z.abs_eq g) by lia.
    transitivity (2 ^ 1030 * g); [apply Z.mul_le_mono_nonneg_r; lia|].
    apply Z.mul_le_mono_nonneg_l; lia. }
  assert (W3 : Z.abs (1000 * (k114 * b) - 114 * b * unit64) <= 2 ^ 1030 * 255).
  { replace (1000 * (k114 * b) - 114 * b * unit64)
      with ((1000 * k114 - 114 * unit64) * b) by ring.
    rewrite Z.abs_mul, (Z.abs_eq b) by lia.
    transitivity (2 ^ 1030 * b); [apply Z.mul_le_mono_nonneg_r; lia|].
    apply Z.mul_le_mono_nonneg_l; lia. }
  clearbody t1 t2 t3 s1 s.
  generalize dependent (k299 * r). generalize dependent (k587 * g).
  generalize dependent (k114 * b). intros p3 E3 W3 p2 E2 W2 S1' p1.
  intros. change unit64 with (2 ^ 1074) in *. lia.
Qed.

Lemma gray_value (r g b : Z) :
  0 <= r <= 255 -> 0 <= g <= 255 -> 0 <= b <= 255 ->
  let q := luma r g b / 1000 in
  exists z, gray r g b = Ok z
            /\ byte_value z
            /\ q - 1 <= z <= q
            /\ (luma r g b mod 1000 <> 0 -> z = q).
Proof.
  intros Hr Hg Hb q. pose proof unit64_pos as U0.
  destruct (gray_sum Hr Hg Hb) as (s & E & S0 & D).
  assert (N : 0 <= luma r g b <= 255000) by (unfold luma; lia).
  pose proof (Z.div_mod (luma r g b) 1000 ltac:(lia)) as Q. fold q in Q.
  pose proof (Z.mod_pos_bound (luma r g b) 1000 ltac:(lia)) as M.
  set (m := luma r g b mod 1000) in *.
  assert (Q0 : 0 <= q <= 255) by lia.
  apply Z.abs_lt in D.
  assert (Up : s < (q + 1) * unit64).
  { assert (1000 * s < (1000 * q + m + 1) * unit64) by lia.
    assert ((1000 * q + m + 1) * unit64 <= 1000 * (q + 1) * unit64)
      by (apply Z.mul_le_mono_nonneg_r; lia).
    lia. }
  assert (Lo : (q - 1) * unit64 <= s).
  { assert ((1000 * q + m - 1) * unit64 < 1000 * s) by lia.
    assert (1000 * (q - 1) * unit64 <= (1000 * q + m - 1) * unit64)
      by (apply Z.mul_le_mono_nonneg_r; lia).
    lia. }
  assert (Zq : s / unit64 <= q).
  { assert (s / unit64 < q + 1) by (apply Z.div_lt_upper_bound; lia). lia. }
  assert (Zl : q - 1 <= s / unit64).
  { apply Z.div_le_lower_bound; lia. }
  assert (Z0 : 0 <= s / unit64) by (apply Z.div_pos; lia).
  exists (s / unit64). split; [|split; [|split]].
  - unfold gray. rewrite E. unfold to_uchar. change (one f64) with unit64.
    rewrite Z.quot_div_nonneg by lia.
    destruct (Z.leb_spec 0 (s / unit64)); [|lia].
    destruct (Z.leb_spec (s / unit64) 255); [reflexivity | lia].
  - unfold byte_value. lia.
  - lia.
  - intros Nz. fold m in Nz.
    assert (q <= s / unit64); [|lia].
    apply Z.div_le_lower_bound; [lia|].
    assert (1000 * q * unit64 <= (1000 * q + m - 1) * unit64)
      by (apply Z.mul_le_mono_nonneg_r; lia).
    lia.
Qed.

(** The grey value of a pixel is defined, a sample of [0..255], and the
    luminance [(299 r + 587 g + 114 b) / 1000] rounded down; only when the
    luminance is a whole number can the rounding of the [double]
    operations make it one less. *)
Theorem gray_floor (r g b : Z) :
  0 <= r <= 255 -> 0 <= g <= 255 -> 0 <= b <= 255 ->
  let q := luma r g b / 1000 in
  exists z, gray r g b = Ok z
            /\ byte_value z
            /\ q - 1 <= z <= q
            /\ (luma r g b mod 1000 <> 0 -> z = q).
Proof. apply gray_value. Qed.

Lemma gray_floor_witness :
  let q := luma 200 100 50 / 1000 in
  exists z, gray 200 100 50 = Ok z
            /\ byte_value z
            /\ q - 1 <= z <= q
            /\ (luma 200 100 50 mod 1000 <> 0 -> z = q).
Proof. apply gray_floor; lia. Defined.

(** *** The loops of [posterizeImage] *)

Lemma sample_value_byte (x : Byte.byte) : 0 <= sample_value x <= 255.
Proof.
  unfold sample_value. pose proof (Byte.to_N_bounded x). lia.
Qed.

Lemma mapM_length {A B} (f : A -> result B) (l : list A) (bs : list B) :
  Flatten.mapM f l = Ok bs -> length bs = length l.
Proof.
  revert bs. induction l as [|a l IH]; intros bs H; cbn [Flatten.mapM] in H.
  - now injection H as <-.
  - apply bind_Ok_inv in H. destruct H as (b & _ & H).
    apply bind_Ok_inv in H. destruct H as (bs' & E & H).
    injection H as <-. simpl. f_equal. now apply IH.
Qed.

Lemma counter_length (n : Z) : 0 <= n -> Z.of_nat (length (counter n)) = n.
Proof.
  intros N. unfold counter. rewrite length_map, length_seq. lia.
Qed.

(** With three channels or more, every pixel of a decoded buffer has its
    grey value. *)
Lemma toGray_defined (pixels : list Byte.byte) (w h c : Z) :
  0 <= w -> 0 <= h -> 3 <= c -> Z.of_nat (length pixels) = h * w * c ->
  exists working,
    toGray pixels w h c = Ok working
    /\ Z.of_nat (length working) = w * h
    /\ Forall byte_value working.
Proof.
  intros Hw Hh Hc L.
  assert (N : 0 <= w * h) by nia.
  destruct (@mapM_ok _ _
    (fun i => do r <- at_ pixels (i * c);
              do g <- at_ pixels (i * c + 1);
              do b <- at_ pixels (i * c + 2);
              gray (sample_value r) (sample_value g) (sample_value b))
    byte_value (counter (w * h))) as (working & E & F).
  { apply Forall_forall. intros i I. apply counter_In in I.
    destruct I as (k & -> & K).
    assert (Kz : 0 <= Z.of_nat k < w * h) by lia.
    assert (R : (Z.of_nat k + 1) * c <= h * w * c).
    { replace (h * w * c) with (w * h * c) by ring.
      apply Z.mul_le_mono_nonneg_r; lia. }
    destruct (@at_in_range _ pixels (Z.of_nat k * c) ltac:(nia)) as (r & -> & _).
    destruct (@at_in_range _ pixels (Z.of_nat k * c + 1) ltac:(nia)) as (g & -> & _).
    destruct (@at_in_range _ pixels (Z.of_nat k * c + 2) ltac:(nia)) as (b & -> & _).
    rewrite !bind_Ok.
    destruct (gray_value (sample_value_byte r) (sample_value_byte g)
                (sample_value_byte b)) as (z & Ez & Bz & _).
    exists z. split; [exact Ez | exact Bz]. }
  exists working. split; [exact E|]. split; [|exact F].
  rewrite (mapM_length _ _ E). now apply counter_length.
Qed.

Lemma posterize_all (levels : Z) (working : list Z) (n : Z) :
  levels <= 256 -> Forall byte_value working ->
  Z.of_nat (length working) = n ->
  exists out,
    Flatten.mapM (fun i => do p <- at_ working i; posterize levels p)
      (counter n) = Ok out
    /\ Z.of_nat (length out) = n
    /\ Forall (fun q => byte_value q
                        /\ (1 < levels -> q mod (256 / levels) = 0)) out.
Proof.
  intros Lv F Ln.
  assert (N : 0 <= n) by lia.
  destruct (@mapM_ok _ _
    (fun i => do p <- at_ working i; posterize levels p)
    (fun q => byte_value q /\ (1 < levels -> q mod (256 / levels) = 0))
    (counter n)) as (out & E & Fo).
  { apply Forall_forall. intros i I. apply counter_In in I.
    destruct I as (k & -> & K).
    destruct (@at_in_range _ working (Z.of_nat k) ltac:(lia)) as (p & -> & Ip).
    rewrite bind_Ok. rewrite Forall_forall in F. specialize (F p Ip).
    unfold byte_value in F.
    destruct (Z_le_gt_dec levels 1) as [L1|L1].
    - exists p. split; [|split; [exact F | lia]].
      unfold posterize. destruct (Z.ltb_spec 1 levels); [lia | reflexivity].
    - assert (L : 2 <= levels <= 256) by lia.
      pose proof (step_range L) as S.
      rewrite (posterize_unfold L F).
      eexists. split; [reflexivity|]. split.
      + unfold byte_value.
        pose proof (Z.mul_div_le p (256 / levels) ltac:(lia)).
        assert (0 <= p / (256 / levels)) by (apply Z.div_pos; lia).
        nia.
      + intros _. apply Z.mod_mul. lia. }
  exists out. split; [exact E|]. split; [|exact Fo].
  rewrite (mapM_length _ _ E). now apply counter_length.
Qed.

(** On a decoded buffer of one channel, or of three or more, and for at
    most 256 levels, [posterizeImage] returns: it writes [width * height]
    samples of [0..255], each a multiple of the step [256 / levels] when
    more than one level is asked for. *)
Theorem posterizeImage_returns (pixels : list Byte.byte) (w h c levels : Z) :
  0 <= w -> 0 <= h -> c = 1 \/ 3 <= c ->
  Z.of_nat (length pixels) = h * w * c -> levels <= 256 ->
  exists out,
    posterizeImage pixels w h c levels = Ok out
    /\ Z.of_nat (length out) = w * h
    /\ Forall (fun q => byte_value q
                        /\ (1 < levels -> q mod (256 / levels) = 0)) out.
Proof.
  intros Hw Hh Hc L Lv. unfold posterizeImage.
  assert (Wk : exists working,
    (if 1 <? c then toGray pixels w h c else Ok (map sample_value pixels))
    = Ok working
    /\ Z.of_nat (length working) = w * h /\ Forall byte_value working).
  { destruct Hc as [->|Hc].
    - exists (map sample_value pixels). split; [reflexivity|]. split.
      + rewrite length_map, L. ring.
      + apply Forall_forall. intros z I. apply in_map_iff in I.
        destruct I as (x & <- & _). apply sample_value_byte.
    - destruct (Z.ltb_spec 1 c) as [_|C]; [|lia].
      now apply toGray_defined. }
  destruct Wk as (working & -> & Ln & F). rewrite bind_Ok.
  destruct (Z.ltb_spec 1 levels) as [L1|L1].
  - now apply posterize_all.
  - exists working. split; [reflexivity|]. split; [exact Ln|].
    apply Forall_forall. intros q I. rewrite Forall_forall in F.
    split; [now apply F | lia].
Qed.

Lemma posterizeImage_returns_witness :
  exists out,
    posterizeImage [Byte.xff; Byte.x80; Byte.x00; Byte.x10; Byte.x20; Byte.x30]
      2 1 3 3 = Ok out
    /\ Z.of_nat (length out) = 2 * 1
    /\ Forall (fun q => byte_value q /\ (1 < 3 -> q mod (256 / 3) = 0)) out.
Proof. apply posterizeImage_returns; try lia. reflexivity. Defined.

(** A buffer of two channels, grey with alpha: the conversion reads a third
    sample of every pixel, and for the last pixel this is one past the end
    of the buffer, which is undefined behaviour. *)
Theorem posterizeImage_grey_alpha (pixels : list Byte.byte) (w h levels : Z) :
  0 < w -> 0 < h -> Z.of_nat (length pixels) = h * w * 2 ->
  posterizeImage pixels w h 2 levels = Throw undefined_behaviour.
Proof.
  intros Hw Hh L. unfold posterizeImage. change (1 <? 2) with true. cbv iota.
  assert (T : toGray pixels w h 2 = Throw undefined_behaviour);
    [|now rewrite T].
  unfold toGray.
  assert (N : 0 < w * h) by nia.
  set (f := fun i => do r <- at_ pixels (i * 2);
                     do g <- at_ pixels (i * 2 + 1);
                     do b <- at_ pixels (i * 2 + 2);
                     gray (sample_value r) (sample_value g) (sample_value b)).
  assert (Last : f (w * h - 1) = Throw undefined_behaviour).
  { unfold f.
    destruct (@at_in_range _ pixels ((w * h - 1) * 2) ltac:(lia)) as (r & -> & _).
    destruct (@at_in_range _ pixels ((w * h - 1) * 2 + 1) ltac:(lia)) as (g & -> & _).
    rewrite !bind_Ok. unfold at_.
    destruct (Z.ltb_spec ((w * h - 1) * 2 + 2) 0); [reflexivity|].
    destruct (nth_error pixels (Z.to_nat ((w * h - 1) * 2 + 2))) eqn:E;
      [|reflexivity].
    assert (Z.to_nat ((w * h - 1) * 2 + 2) < length pixels)%nat.
    { apply nth_error_Some. congruence. }
    lia. }
  assert (Before : forall i, 0 <= i < w * h - 1 -> exists z, f i = Ok z).
  { intros i I. unfold f.
    destruct (@at_in_range _ pixels (i * 2) ltac:(lia)) as (r & -> & _).
    destruct (@at_in_range _ pixels (i * 2 + 1) ltac:(lia)) as (g & -> & _).
    destruct (@at_in_range _ pixels (i * 2 + 2) ltac:(lia)) as (b & -> & _).
    rewrite !bind_Ok.
    destruct (gray_value (sample_value_byte r) (sample_value_byte g)
                (sample_value_byte b)) as (z & Ez & _).
    exists z. exact Ez. }
  unfold counter.
  replace (Z.to_nat (w * h)) with (S (Z.to_nat (w * h - 1))) by lia.
  assert (G : forall n k,
    (forall i, (k <= i < k + n)%nat -> exists z, f (Z.of_nat i) = Ok z) ->
    f (Z.of_nat (k + n)) = Throw undefined_behaviour ->
    Flatten.mapM f (map Z.of_nat (seq k (S n))) = Throw undefined_behaviour).
  { induction n as [|n IH]; intros k B T.
    - cbn [seq map Flatten.mapM]. rewrite Nat.add_0_r in T. now rewrite T.
    - change (seq k (S (S n))) with (k :: seq (S k) (S n)).
      cbn [map Flatten.mapM].
      destruct (B k ltac:(lia)) as [z ->]. rewrite bind_Ok.
      rewrite IH; [reflexivity| |].
      + intros i I. apply B. lia.
      + replace (S k + n)%nat with (k + S n)%nat by lia. exact T. }
  apply G.
  - intros i I. apply Before. lia.
  - replace (Z.of_nat (0 + Z.to_nat (w * h - 1))) with (w * h - 1) by lia.
    exact Last.
Qed.

Lemma posterizeImage_grey_alpha_witness :
  posterizeImage [Byte.xff; Byte.x80; Byte.x00; Byte.x10] 2 1 2 3
  = Throw undefined_behaviour.
Proof. apply posterizeImage_grey_alpha; try lia. reflexivity. Defined.

End GrayFacts.
